(** * Beekeeper: the node registry, the job handlers and the fan-out dispatcher

    A shallow embedding of [lib/node.go] and [lib/callbacks.go] of the
    beekeeper package, with the properties of its specification that
    concern the registry ([updateNode], [find], [sort]), the receiving-side
    handlers ([jobTransferCallback], [jobExecuteCallback]) and the
    dispatcher ([ExecuteMany]). *)

From Stdlib Require Import ZArith Lia Permutation Sorted.
From Stdlib Require Import Strings.Byte.
From stdpp Require Import base option list strings sorting pretty.


(** ** Go values the package works on *)

(** A Go byte slice; the nil slice and the empty slice are both [[]], the
    code under study never tells them apart (it only takes [len] and
    compares contents). *)
Definition bytes := list byte.

#[global] Instance byte_eq_dec : EqDecision byte := Byte.byte_eq_dec.

(** A nil pointer dereference aborts the goroutine with a run-time panic. *)
Inductive outcome (A : Type) : Type :=
| Ok (a : A)
| Panic.
Arguments Ok {A} a.
Arguments Panic {A}.

#[global] Instance outcome_ret : MRet outcome := fun A a => Ok a.

#[global] Instance outcome_bind : MBind outcome := fun A B k m =>
  match m with
  | Ok a => k a
  | Panic => Panic
  end.

(** *** [net.IP] *)

Definition IP := bytes.

Definition IPv4len : nat := 4.
Definition IPv6len : nat := 16.

(** [net.v4InV6Prefix]: ten zero bytes followed by [0xff 0xff]. *)
Definition v4InV6Prefix : bytes :=
  [x00; x00; x00; x00; x00; x00; x00; x00; x00; x00; xff; xff].

Definition bytes_Equal (a b : bytes) : bool := bool_decide (a = b).

(** [func (ip IP) Equal(x IP) bool] of package [net]: byte equality for
    addresses of one length, and a 4-byte address equals its 16-byte
    IPv4-in-IPv6 form. *)
Definition IP_Equal (ip x : IP) : bool :=
  if Nat.eqb (length ip) (length x) then bytes_Equal ip x
  else if Nat.eqb (length ip) IPv4len && Nat.eqb (length x) IPv6len then
    bytes_Equal (take 12 x) v4InV6Prefix && bytes_Equal ip (drop 12 x)
  else if Nat.eqb (length ip) IPv6len && Nat.eqb (length x) IPv4len then
    bytes_Equal (take 12 ip) v4InV6Prefix && bytes_Equal (drop 12 ip) x
  else false.

(** [bytes.Compare]: lexicographic comparison of two byte slices, a
    shorter slice comes before any of its extensions. *)
Fixpoint bytes_Compare (a b : bytes) : Z :=
  match a, b with
  | [], [] => 0
  | [], _ :: _ => -1
  | _ :: _, [] => 1
  | x :: a', y :: b' =>
      match N.compare (Byte.to_N x) (Byte.to_N y) with
      | Lt => -1
      | Gt => 1
      | Eq => bytes_Compare a' b'
      end
  end%Z.

(** *** Records of the package *)

(** [net.TCPAddr]. *)
Record TCPAddr : Type := mkTCPAddr {
  TCPAddr_IP : IP;
  TCPAddr_Port : Z;
  TCPAddr_Zone : string
}.

(** Modelled from the spec: the type [Status] and its constants are declared
    outside the two source files; section 3 of the specification gives the
    enumeration {Idle, Working}, the first being the zero value. *)
Inductive Status : Type :=
| StatusIDLE
| StatusWorking.

#[global] Instance Status_eq_dec : EqDecision Status.
Proof. solve_decision. Defined.

(** Modelled from the spec: [NodeInfo] is declared outside the two source
    files; the handlers use its fields [OS], [Usage] and [CPUTemp]. The two
    [float32] fields are kept as their IEEE-754 bit patterns. *)
Record NodeInfo : Type := mkNodeInfo {
  OS : string;
  Usage : Z;
  CPUTemp : Z
}.

Definition NodeInfo_zero : NodeInfo := mkNodeInfo "" 0 0.

(** A [*Conn] is a handle; [None] is the nil pointer. *)
Definition ConnPtr := option nat.

(** [type Node struct]. [Addr] is a [*net.TCPAddr], [None] being nil. *)
Module Node.
Record t : Type := mk {
  Conn : ConnPtr;
  Addr : option TCPAddr;
  Name : string;
  Status : Status;
  Info : NodeInfo
}.
End Node.
Abbreviation Node := Node.t.

(** [type Nodes []Node]. *)
Abbreviation Nodes := (list Node).

(** The zero value [Node{}]. *)
Definition Node_zero : Node :=
  Node.mk None None "" StatusIDLE NodeInfo_zero.

(** [node.Addr.IP]: dereferences the address pointer. *)
Definition Addr_IP (n : Node) : outcome IP :=
  match Node.Addr n with
  | Some a => Ok (TCPAddr_IP a)
  | None => Panic
  end.

(** [func (n Node) Equals(w2 Node) bool]. *)
Definition Equals (n w2 : Node) : outcome bool :=
  ip ← Addr_IP n; ip2 ← Addr_IP w2; Ok (IP_Equal ip ip2).

(** The part of [Server] that the two files touch: the registry and the
    status cell. [nodesLock] makes each [updateNode] call atomic, which is
    how the calls are composed below. *)
Module Server.
Record t : Type := mk {
  nodes : Nodes;
  Status : Status
}.
End Server.
Abbreviation Server := Server.t.

(** ** The registry *)

(** The loop of [updateNode]: the index of the first entry whose IP equals
    that of [node2], [None] when the loop runs to its end. *)
Fixpoint updateNode_scan (i : nat) (nodes : Nodes) (node2 : Node)
  : outcome (option nat) :=
  match nodes with
  | [] => Ok None
  | node :: rest =>
      ip ← Addr_IP node;
      ip2 ← Addr_IP node2;
      if IP_Equal ip ip2 then Ok (Some i) else updateNode_scan (S i) rest node2
  end.

(** [func (s *Server) updateNode(node2 Node)]. *)
Definition updateNode (s : Server) (node2 : Node) : outcome Server :=
  r ← updateNode_scan 0 (Server.nodes s) node2;
  match r with
  | Some i => Ok (Server.mk (<[i := node2]> (Server.nodes s)) (Server.Status s))
  | None => Ok (Server.mk (Server.nodes s ++ [node2]) (Server.Status s))
  end.

(** [func (n Nodes) find(addr net.IP) Node]. *)
Fixpoint find (n : Nodes) (addr : IP) : outcome Node :=
  match n with
  | [] => Ok Node_zero
  | node :: rest =>
      ip ← Addr_IP node;
      if IP_Equal ip addr then Ok node else find rest addr
  end.

(** A sequence of [updateNode] calls, one after the other. *)
Fixpoint upserts (s : Server) (ns : list Node) : outcome Server :=
  match ns with
  | [] => Ok s
  | n :: ns' => s' ← updateNode s n; upserts s' ns'
  end.

(** ** The receiving-side handlers *)

(** A Go [error] is kept as its [Error()] text; [None] is the nil error. *)
Definition error := string.

(** Modelled from the spec: [Task] is declared outside the two source
    files; section 3 describes it as a unit of work identified by a UUID
    that carries a binary payload. *)
Module Task.
Record t : Type := mk {
  UUID : string;
  Payload : bytes
}.
End Task.
Abbreviation Task := Task.t.

(** Modelled from the spec: [Result] is declared outside the two source
    files; section 3 gives it a UUID and an error string that is empty on
    success, the two fields [jobExecuteCallback] fills in. *)
Module Result.
Record t : Type := mk {
  UUID : string;
  Error : string
}.
End Result.
Abbreviation Result := Result.t.

(** Modelled from the spec: the closed enumeration of section 3. *)
Inductive Operation : Type :=
| OperationStatus
| OperationJobTransfer
| OperationTransferAcknowledge
| OperationTransferFailed
| OperationJobExecute
| OperationJobResult.

#[global] Instance Operation_eq_dec : EqDecision Operation.
Proof. solve_decision. Defined.

(** Modelled from the spec: the wire envelope of section 6. *)
Module Message.
Record t : Type := mk {
  Operation : Operation;
  Name : string;
  Data : bytes;
  NodeInfo : NodeInfo
}.
End Message.
Abbreviation Message := Message.t.

(** [[]byte(errMsg)]. *)
Definition bytes_of_string (s : string) : bytes := String.list_byte_of_string s.

Inductive LogLevel : Type := Infoln | Errorln | Println.

(** What a handler does to the outside world, in order. A call to a
    function that lives outside the two source files is recorded with the
    answer it gave; a write to [s.Status] is recorded with the value
    written. *)
Inductive event : Type :=
| EvLog (level : LogLevel) (args : list string)
| EvCreateFolder (path : string) (err : option error)
| EvSaveBinary (path : string) (data : bytes) (err : option error)
| EvSend (conn : ConnPtr) (msg : Message) (err : option error)
| EvDecodeTask (data : bytes) (task : Task) (err : option error)
| EvRunLocalJob (task : Task) (res : Result) (err : option error)
| EvEncode (res : Result) (data : bytes) (err : option error)
| EvExecute (node : Node) (task : Task) (timeout : list Z)
    (res : Result) (err : option error)
| EvStatus (st : Status).

(** The functions the two files call and do not define. Each answer may
    depend on everything that happened before the call; the calls
    themselves are taken not to write to the server record. *)
Record Env : Type := mkEnv {
  env_createFolderIfNotExist : list event -> string -> option error;
  env_saveBinary : list event -> string -> bytes -> option error;
  env_sendWithConn : list event -> ConnPtr -> Message -> option error;
  env_decodeTask : list event -> bytes -> Task * option error;
  env_runLocalJob : list event -> Task -> Result * option error;
  env_encode : list event -> Result -> bytes * option error;
  env_Execute : list event -> Node -> Task -> list Z -> Result * option error
}.

(** The state a handler runs in: the server it was handed and the events
    so far. *)
Record World : Type := mkWorld {
  server : Server;
  trace : list event
}.

(** Handlers are state transformers over [World] that read [Env]. *)
Definition M (A : Type) : Type := Env -> World -> A * World.

#[global] Instance M_ret : MRet M := fun A a _ w => (a, w).

#[global] Instance M_bind : MBind M := fun A B k m env w =>
  let '(a, w') := m env w in k a env w'.

Definition ret {A} (a : A) : M A := mret a.

Definition emit (e : event) : M unit :=
  fun _ w => (tt, mkWorld (server w) (trace w ++ [e])).

Definition ask {A} (f : Env -> list event -> A) : M A :=
  fun env w => (f env (trace w), w).

Definition logger (level : LogLevel) (args : list string) : M unit :=
  emit (EvLog level args).

Definition createFolderIfNotExist (path : string) : M (option error) :=
  err ← ask (fun env h => env_createFolderIfNotExist env h path);
  emit (EvCreateFolder path err);; ret err.

Definition saveBinary (path : string) (data : bytes) : M (option error) :=
  err ← ask (fun env h => env_saveBinary env h path data);
  emit (EvSaveBinary path data err);; ret err.

Definition sendWithConn (conn : ConnPtr) (msg : Message) : M (option error) :=
  err ← ask (fun env h => env_sendWithConn env h conn msg);
  emit (EvSend conn msg err);; ret err.

Definition decodeTask (data : bytes) : M (Task * option error) :=
  r ← ask (fun env h => env_decodeTask env h data);
  emit (EvDecodeTask data (fst r) (snd r));; ret r.

Definition runLocalJob (task : Task) : M (Result * option error) :=
  r ← ask (fun env h => env_runLocalJob env h task);
  emit (EvRunLocalJob task (fst r) (snd r));; ret r.

Definition Result_encode (res : Result) : M (bytes * option error) :=
  r ← ask (fun env h => env_encode env h res);
  emit (EvEncode res (fst r) (snd r));; ret r.

(** [s.Status = st]. *)
Definition set_Status (st : Status) : M unit :=
  fun _ w =>
    (tt, mkWorld (Server.mk (Server.nodes (server w)) st) (trace w ++ [EvStatus st])).

(** [Message{Operation: op, Data: data}]: the other fields are zero. *)
Definition Message_of (op : Operation) (data : bytes) : Message :=
  Message.mk op "" data NodeInfo_zero.

(** [func respondTransferError(s *Server, conn *Conn, errMsg string)]. *)
Definition respondTransferError (conn : ConnPtr) (errMsg : string) : M unit :=
  err ← sendWithConn conn
           (Message_of OperationTransferFailed (bytes_of_string errMsg));
  match err with
  | Some e =>
      logger Errorln
        ["An additional error arose while reporting the transfer error:"; e]
  | None => ret tt
  end.

(** [func jobTransferCallback(s *Server, conn *Conn, msg Message)]. *)
Definition jobTransferCallback (conn : ConnPtr) (msg : Message) : M unit :=
  logger Infoln ["Starting job transfer from node"; Message.Name msg];;
  let folderPath := ".beekeeper" in
  err ← createFolderIfNotExist folderPath;
  match err with
  | Some e =>
      logger Println ["Unable to create beekeeper folder:"; e];;
      respondTransferError conn e
  | None =>
      if Nat.eqb (length (Message.Data msg)) 0 then
        logger Errorln ["Unable to save job data: empty data field"];;
        respondTransferError conn "empty data field"
      else
        let binPath := folderPath +:+ "/job.bin" in
        err ← saveBinary binPath (Message.Data msg);
        match err with
        | Some e =>
            logger Errorln ["Unable to save job data:"; e];;
            respondTransferError conn e
        | None =>
            err ← sendWithConn conn
                     (Message_of OperationTransferAcknowledge []);
            match err with
            | Some e => logger Println ["Failed to acknowledge transfer:"; e]
            | None =>
                logger Println
                  ["Job transferred successfully from node"; Message.Name msg]
            end
        end
  end.

(** [func jobExecuteCallback(s *Server, conn *Conn, msg Message)]. *)
Definition jobExecuteCallback (conn : ConnPtr) (msg : Message) : M unit :=
  d ← decodeTask (Message.Data msg);
  let task := fst d in
  match snd d with
  | Some e => logger Errorln ["Unable to read task data:"; e]
  | None =>
      logger Infoln
        ["Executing task"; Task.UUID task; "for node"; Message.Name msg];;
      set_Status StatusWorking;;
      r ← runLocalJob task;
      res ← match snd r with
             | Some e =>
                 let errMsg := "Unable to run job: " +:+ e in
                 logger Errorln [errMsg];;
                 ret (Result.mk (Task.UUID task) errMsg)
             | None => ret (fst r)
             end;
      logger Infoln ["Ran task"; Task.UUID task; "successfully"];;
      set_Status StatusIDLE;;
      b ← Result_encode res;
      match snd b with
      | Some e => logger Errorln ["Unable to encode response:"; e]
      | None =>
          err ← sendWithConn conn (Message_of OperationJobResult (fst b));
          match err with
          | Some e => logger Errorln ["Failed to send job result:"; e]
          | None => ret tt
          end
      end
  end.

(** The final world of a handler run, and the events the run added. *)
Definition run (h : M unit) (env : Env) (w : World) : World := snd (h env w).

Definition events_of (h : M unit) (env : Env) (w : World) : list event :=
  drop (length (trace w)) (trace (run h env w)).

(** The values written to [s.Status], in order. *)
Definition status_writes (evs : list event) : list Status :=
  omap (fun e => match e with EvStatus st => Some st | _ => None end) evs.

(** ** The fan-out dispatcher *)

(** One goroutine of [ExecuteMany], by the point it has reached: started
    and [s.Execute] not yet returned; blocked on [ec <- ...] with the error
    it built; blocked on [rc <- res]; gone after its send was received. *)
Inductive goroutine : Type :=
| GSpawned (node : Node)
| GSendErr (err : error)
| GSendRes (res : Result)
| GExited.

(** [fmt.Errorf("node %s error: %s", node.Name, err.Error())]. *)
Definition node_error (node : Node) (err : error) : error :=
  "node " +:+ Node.Name node +:+ " error: " +:+ err.

(** The state of one [ExecuteMany] call: its goroutines in the order of
    [n], the local [results], the pair the call has returned (if it has),
    and the [s.Execute] calls completed so far. The channels are unbuffered,
    so they hold nothing between a send and its receive. *)
Record EM : Type := mkEM {
  em_goroutines : list goroutine;
  em_results : list Result;
  em_returned : option (list Result * option error);
  em_trace : list event
}.

(** After the [for ... range n] loop of [go] statements. *)
Definition ExecuteMany_start (n : Nodes) : EM :=
  mkEM (GSpawned <$> n) [] None [].

(** The moves of the call: goroutine [i] runs [s.Execute] to its return and
    reaches its send; the [select] of the main loop receives what goroutine
    [i] is sending; the main loop finds [len(results) == len(n)] and
    returns. *)
Inductive action : Type :=
| Run (i : nat)
| Recv (i : nat)
| Leave.

Definition ExecuteMany_step (env : Env) (n : Nodes) (t : Task)
    (timeout : list Z) (a : action) (st : EM) : option EM :=
  match a with
  | Run i =>
      match em_goroutines st !! i with
      | Some (GSpawned node) =>
          let r := env_Execute env (em_trace st) node t timeout in
          let g := match snd r with
                   | Some e => GSendErr (node_error node e)
                   | None => GSendRes (fst r)
                   end in
          Some (mkEM (<[i := g]> (em_goroutines st)) (em_results st)
                  (em_returned st)
                  (em_trace st ++ [EvExecute node t timeout (fst r) (snd r)]))
      | _ => None
      end
  | Recv i =>
      match em_returned st with
      | Some _ => None
      | None =>
          if Nat.eqb (length (em_results st)) (length n) then None
          else
            match em_goroutines st !! i with
            | Some (GSendErr e) =>
                Some (mkEM (<[i := GExited]> (em_goroutines st))
                        (em_results st) (Some ([], Some e)) (em_trace st))
            | Some (GSendRes res) =>
                Some (mkEM (<[i := GExited]> (em_goroutines st))
                        (em_results st ++ [res]) None (em_trace st))
            | _ => None
            end
      end
  | Leave =>
      match em_returned st with
      | Some _ => None
      | None =>
          if Nat.eqb (length (em_results st)) (length n) then
            Some (mkEM (em_goroutines st) (em_results st)
                    (Some (em_results st, None)) (em_trace st))
          else None
      end
  end.

(** [func (s *Server) ExecuteMany(n Nodes, t Task, timeout ...time.Duration)]
    under a schedule: the state reached from the start by the given moves,
    [None] when one of them is not possible where it is tried. *)
Fixpoint ExecuteMany_run (env : Env) (n : Nodes) (t : Task)
    (timeout : list Z) (sched : list action) (st : EM) : option EM :=
  match sched with
  | [] => Some st
  | a :: sched' =>
      st' ← ExecuteMany_step env n t timeout a st;
      ExecuteMany_run env n t timeout sched' st'
  end.

Definition ExecuteMany (env : Env) (n : Nodes) (t : Task) (timeout : list Z)
    (sched : list action) : option EM :=
  ExecuteMany_run env n t timeout sched (ExecuteMany_start n).

(** No move is possible: every goroutine has exited or is blocked for
    good. (Such a state is one in which the call has returned, see
    [final_returned].) *)
Definition EM_final (env : Env) (n : Nodes) (t : Task) (timeout : list Z)
    (st : EM) : Prop :=
  forall a, ExecuteMany_step env n t timeout a st = None.

(** Goroutines that are gone, and the work the call still has ahead of it:
    a started goroutine has its [s.Execute] and its send to do, a blocked
    one its send, and the main loop its return. *)
Definition exited (g : goroutine) : nat :=
  match g with
  | GExited => 1
  | _ => 0
  end.

Definition goroutine_fuel (g : goroutine) : nat :=
  match g with
  | GSpawned _ => 2
  | GSendErr _ | GSendRes _ => 1
  | GExited => 0
  end.

Definition EM_fuel (st : EM) : nat :=
  sum_list_with goroutine_fuel (em_goroutines st)
  + match em_returned st with None => 1 | Some _ => 0 end.

(** What holds of every state of a call of [ExecuteMany env n t timeout]. *)
Record EM_inv (env : Env) (n : Nodes) (t : Task) (timeout : list Z)
    (st : EM) : Prop := mkEM_inv {
  inv_len : length (em_goroutines st) = length n;
  inv_spawned : forall i node,
    em_goroutines st !! i = Some (GSpawned node) -> n !! i = Some node;
  inv_senderr : forall i e,
    em_goroutines st !! i = Some (GSendErr e) ->
    exists node res inner,
      n !! i = Some node /\ e = node_error node inner /\
      EvExecute node t timeout res (Some inner) ∈ em_trace st;
  inv_sendres : forall i r,
    em_goroutines st !! i = Some (GSendRes r) ->
    exists node,
      n !! i = Some node /\ EvExecute node t timeout r None ∈ em_trace st;
  inv_exited : em_returned st = None -> forall i,
    em_goroutines st !! i = Some GExited ->
    exists node r,
      n !! i = Some node /\ EvExecute node t timeout r None ∈ em_trace st;
  inv_results : forall r, r ∈ em_results st ->
    exists node, node ∈ n /\ EvExecute node t timeout r None ∈ em_trace st;
  inv_count : em_returned st = None ->
    length (em_results st) = sum_list_with exited (em_goroutines st);
  inv_ret_ok : forall rs, em_returned st = Some (rs, None) ->
    rs = em_results st /\ length rs = length n;
  inv_ret_err : forall rs e, em_returned st = Some (rs, Some e) ->
    rs = [] /\
    exists node res inner,
      node ∈ n /\ e = node_error node inner /\
      EvExecute node t timeout res (Some inner) ∈ em_trace st;
  inv_trace : forall ev, ev ∈ em_trace st ->
    exists h node,
      node ∈ n /\
      ev = EvExecute node t timeout
             (fst (env_Execute env h node t timeout))
             (snd (env_Execute env h node t timeout))
}.

(** What holds in addition when [Execute] fails on the node at index [k]:
    its goroutine stays short of a handed-over result, so the results never
    fill up. *)
Definition EM_failing_inv (n : Nodes) (k : nat) (st : EM) : Prop :=
  length (em_results st) < length n /\
  (em_returned st = None ->
   exists g, em_goroutines st !! k = Some g /\ exited g = 0 /\
             forall r, g <> GSendRes r).

(** What the trace of a call of [ExecuteMany env n t timeout] is made of:
    its event number [i] is a call of [Execute] on a node of the list, with
    the answer [Execute] gives after the [i] events before it. *)
Definition EM_trace_inv (env : Env) (n : Nodes) (t : Task) (timeout : list Z)
    (st : EM) : Prop :=
  forall i ev, em_trace st !! i = Some ev ->
    exists node,
      node ∈ n /\
      ev = EvExecute node t timeout
             (fst (env_Execute env (take i (em_trace st)) node t timeout))
             (snd (env_Execute env (take i (em_trace st)) node t timeout)).

(** Modelled from the spec: [Execute] is defined outside the two source
    files, so what a call of it returns is an answer of the environment.
    Section 3 of the specification has "a Result's UUID always matches a
    previously issued Task's UUID": a [Result] that [Execute] returns without
    error carries the UUID of the [Task] it was given. *)
Definition Execute_keeps_UUID (env : Env) : Prop :=
  forall h node t timeout,
    snd (env_Execute env h node t timeout) = None ->
    Result.UUID (fst (env_Execute env h node t timeout)) = Task.UUID t.

(** [sub] occurs in [s]. *)
Definition contains (sub s : string) : Prop :=
  exists pre post, s = pre +:+ sub +:+ post.

(** ** Sorting *)

(** The closure handed to [sort.Slice] in [sort], on the two addresses it
    reads: [bytes.Compare(n[i].Addr.IP, n[j].Addr.IP) < 0]. *)
Definition less_IP (a b : IP) : bool := (bytes_Compare a b <? 0)%Z.

(** An implementation of [sort.Slice], by what it does to the elements of
    the slice given the comparison of two of them. *)
Definition sorter : Type := forall A : Type, (A -> A -> bool) -> list A -> list A.

(** [sort.SliceIsSorted]: no element is less than the one before it. *)
Definition SliceIsSorted {A} (less : A -> A -> bool) (l : list A) : Prop :=
  forall i a b, l !! i = Some a -> l !! S i = Some b -> less b a = false.

(** What package [sort] asks of a [less] function: a strict weak ordering. *)
Record less_ok {A} (less : A -> A -> bool) : Prop := mk_less_ok {
  less_irrefl : forall a, less a a = false;
  less_trans : forall a b c, less a b = true -> less b c = true -> less a c = true;
  less_incomp : forall a b c,
    less a b = false -> less b c = false -> less a c = false
}.

(** What package [sort] documents of [sort.Slice]: the slice is rearranged
    (same elements) into sorted order; nothing is said of the order of
    equal elements ("the sort is not guaranteed to be stable"). *)
Definition sort_Slice_contract (slice : sorter) : Prop :=
  forall A (less : A -> A -> bool) (l : list A),
    less_ok less ->
    Permutation l (slice A less l) /\ SliceIsSorted less (slice A less l).

(** [n[i].Addr.IP] for every element, as the closure reads it. *)
Fixpoint keyed (n : Nodes) : outcome (list (IP * Node)) :=
  match n with
  | [] => Ok []
  | node :: rest =>
      ip ← Addr_IP node;
      ks ← keyed rest;
      Ok ((ip, node) :: ks)
  end.

(** [func (n Nodes) sort() Nodes]. A slice of fewer than two elements is
    never compared; with two or more, every element goes through the
    closure, which dereferences its [Addr]. *)
Definition sort (slice : sorter) (n : Nodes) : outcome Nodes :=
  if Nat.leb (length n) 1 then Ok n
  else
    ks ← keyed n;
    Ok (snd <$> slice (IP * Node)%type (fun a b => less_IP (fst a) (fst b)) ks).

(** The nodes whose address compares equal to [ip] under [bytes.Compare]. *)
Definition same_key (ip : IP) (node : Node) : bool :=
  match Node.Addr node with
  | Some a => Z.eqb (bytes_Compare (TCPAddr_IP a) ip) 0
  | None => false
  end.

(** Stability as the specification words it: nodes whose IPs compare equal
    keep their relative input order. *)
Definition stable_by_IP (input output : Nodes) : Prop :=
  forall ip : IP,
    List.filter (same_key ip) output = List.filter (same_key ip) input.

(** ** Notions the properties are stated with *)

(** The node carries an address ([Addr] is not nil). *)
Definition has_addr (n : Node) : Prop := is_Some (Node.Addr n).

(** No two entries of the registry have equal IPs. *)
Definition distinct_IPs (nodes : Nodes) : Prop :=
  forall i j a b,
    nodes !! i = Some a -> nodes !! j = Some b -> Equals a b = Ok true -> i = j.

(** The most recently upserted node for an address, following the words of
    the specification: the last node of the sequence whose IP equals it. *)
Fixpoint last_upserted (addr : IP) (ns : list Node) : option Node :=
  match ns with
  | [] => None
  | n :: ns' =>
      match last_upserted addr ns' with
      | Some m => Some m
      | None =>
          match Node.Addr n with
          | Some a => if IP_Equal (TCPAddr_IP a) addr then Some n else None
          | None => None
          end
      end
  end.

(** A server with nothing registered. *)
Definition Server_empty (st : Status) : Server := Server.mk [] st.


(** ** An implementation of [sort.Slice]

    The routine that package [sort] of Go 1.18 and earlier runs on a slice
    of at most twelve elements ([quickSort_func] below its threshold): one
    pass of compare-and-swap at distance six, then insertion sort. It is
    used here on slices of any length, as one implementation that meets
    [sort_Slice_contract]. *)

(** [data.Swap(i, j)]. *)
Definition swap {A} (l : list A) (i j : nat) : list A :=
  match l !! i, l !! j with
  | Some a, Some b => <[i := b]> (<[j := a]> l)
  | _, _ => l
  end.

(** [for j := i; j > a && data.Less(j, j-1); j-- { data.Swap(j, j-1) }]. *)
Fixpoint sift {A} (less : A -> A -> bool) (l : list A) (j : nat) : list A :=
  match j with
  | 0 => l
  | S j' =>
      match l !! j, l !! j' with
      | Some x, Some y => if less x y then sift less (swap l j j') j' else l
      | _, _ => l
      end
  end.

(** [insertionSort_func(data, 0, len)]. *)
Definition insertionSort {A} (less : A -> A -> bool) (l : list A) : list A :=
  foldl (sift less) l (seq 1 (length l - 1)).

(** [if data.Less(i, i-6) { data.Swap(i, i-6) }]. *)
Definition gap_step {A} (less : A -> A -> bool) (l : list A) (i : nat) : list A :=
  match l !! i, l !! (i - 6) with
  | Some x, Some y => if less x y then swap l i (i - 6) else l
  | _, _ => l
  end.

(** [for i := a + 6; i < b; i++ { ... }]. *)
Definition shellPass {A} (less : A -> A -> bool) (l : list A) : list A :=
  foldl (gap_step less) l (seq 6 (length l - 6)).

Definition shellInsertionSort : sorter := fun A less l =>
  if Nat.leb (length l) 1 then l else insertionSort less (shellPass less l).

(** Insertion of [x] into a prefix kept back to front, and the ordering
    that [less] induces; both serve the proof that [insertionSort] sorts. *)
Fixpoint ins_rev {A} (less : A -> A -> bool) (x : A) (rpre : list A) : list A :=
  match rpre with
  | [] => [x]
  | y :: r => if less x y then y :: ins_rev less x r else x :: y :: r
  end.

Definition not_less {A} (less : A -> A -> bool) (a b : A) : Prop :=
  less b a = false.

(** ** Sample values *)

Definition ip4 (a b c d : byte) : IP := [a; b; c; d].

Definition node_at (name : string) (ip : IP) : Node :=
  Node.mk (Some 0) (Some (mkTCPAddr ip 2020 "")) name StatusIDLE NodeInfo_zero.

(** Seven nodes; the first two share an address, the last one has the
    smallest address. *)
Definition seven_nodes : Nodes :=
  [node_at "first" (ip4 x0a x00 x00 x02);
   node_at "second" (ip4 x0a x00 x00 x02);
   node_at "c" (ip4 x0a x00 x00 x03);
   node_at "d" (ip4 x0a x00 x00 x04);
   node_at "e" (ip4 x0a x00 x00 x05);
   node_at "f" (ip4 x0a x00 x00 x06);
   node_at "g" (ip4 x0a x00 x00 x01)].

Definition seven_nodes_sorted : Nodes :=
  [node_at "g" (ip4 x0a x00 x00 x01);
   node_at "second" (ip4 x0a x00 x00 x02);
   node_at "first" (ip4 x0a x00 x00 x02);
   node_at "c" (ip4 x0a x00 x00 x03);
   node_at "d" (ip4 x0a x00 x00 x04);
   node_at "e" (ip4 x0a x00 x00 x05);
   node_at "f" (ip4 x0a x00 x00 x06)].

(** The scenario of the specification: A at 10.0.0.1 idle, B at 10.0.0.1
    working, C at 10.0.0.2. *)
Definition node_A : Node :=
  Node.mk (Some 1) (Some (mkTCPAddr (ip4 x0a x00 x00 x01) 2020 "")) "A"
    StatusIDLE NodeInfo_zero.
Definition node_B : Node :=
  Node.mk (Some 2) (Some (mkTCPAddr (ip4 x0a x00 x00 x01) 2021 "")) "B"
    StatusWorking NodeInfo_zero.
Definition node_C : Node :=
  Node.mk (Some 3) (Some (mkTCPAddr (ip4 x0a x00 x00 x02) 2020 "")) "C"
    StatusIDLE NodeInfo_zero.

Definition scenario : list Node := [node_A; node_B; node_C].

(** An outside world in which folders, files and connections work, tasks
    decode unless [decode_err] is set, jobs run unless [job_err] is set, and
    [Execute] succeeds on every node but the one named [fail_node]. *)
Definition env_with (decode_err job_err : option error)
    (fail_node : option string) : Env :=
  mkEnv
    (fun _ _ => None)
    (fun _ _ _ => None)
    (fun _ _ _ => None)
    (fun _ data =>
       match decode_err with
       | Some e => (Task.mk "" [], Some e)
       | None => (Task.mk "task-1" data, None)
       end)
    (fun _ task =>
       match job_err with
       | Some e => (Result.mk "" "", Some e)
       | None => (Result.mk (Task.UUID task) "", None)
       end)
    (fun _ res => (bytes_of_string (Result.UUID res), None))
    (fun _ node t _ =>
       if bool_decide (Some (Node.Name node) = fail_node)
       then (Result.mk "" "", Some "connection refused")
       else (Result.mk (Task.UUID t) "", None)).

Definition sample_task : Task := Task.mk "task-1" [x01; x02].

Definition world0 : World := mkWorld (Server_empty StatusIDLE) [].

Definition msg_empty : Message :=
  Message.mk OperationJobTransfer "A" [] NodeInfo_zero.

Definition msg_execute : Message :=
  Message.mk OperationJobExecute "A" [x01; x02] NodeInfo_zero.

(** ** Further functions of [node.go] and notions for their properties *)

(** The node carries an address whose IP equals [addr] under
    [net.IP.Equal]: the test of the loop of [find]. *)
Definition has_IP (addr : IP) (node : Node) : Prop :=
  exists a, Node.Addr node = Some a /\ IP_Equal (TCPAddr_IP a) addr = true.

(** The IP bytes of a node, when it has an address. *)
Definition node_IP (node : Node) : option IP :=
  TCPAddr_IP <$> Node.Addr node.

(** [func (n Nodes) getOperatingSystems() (opSys []string)]: for each node
    the inner loop runs over all of [opSys] (there is no [break]) and sets
    [duplicate]; the OS is appended when it stayed [false]. *)
Definition getOperatingSystems (n : Nodes) : list string :=
  foldl
    (fun opSys node =>
       let duplicate :=
         foldl (fun dup ops => if String.eqb ops (OS (Node.Info node)) then true else dup)
           false opSys in
       if duplicate then opSys else opSys ++ [OS (Node.Info node)])
    [] n.

(** The distinct elements of a list in the order of their first
    occurrence. *)
Fixpoint distinct_first (l : list string) : list string :=
  match l with
  | [] => []
  | x :: l' => x :: filter (fun y => y <> x) (distinct_first l')
  end.

(** ** Notions for the properties of the handlers *)

(** The messages handed to [sendWithConn], in order. *)
Definition sent (evs : list event) : list (ConnPtr * Message) :=
  omap (fun e => match e with EvSend c m _ => Some (c, m) | _ => None end) evs.

(** The calls of [saveBinary], in order. *)
Definition saves (evs : list event) : list (string * bytes * option error) :=
  omap (fun e => match e with
                 | EvSaveBinary p d err => Some (p, d, err)
                 | _ => None
                 end) evs.

(** [string(data)], the inverse of [[]byte(s)]. *)
Definition string_of_bytes (data : bytes) : string :=
  String.string_of_list_byte data.

(** An outside world in which the folder can be created and the binary
    cannot be written. *)
Definition env_save_fails : Env :=
  mkEnv
    (fun _ _ => None)
    (fun _ _ _ => Some "disk full")
    (fun _ _ _ => None)
    (fun _ data => (Task.mk "task-1" data, None))
    (fun _ task => (Result.mk (Task.UUID task) "", None))
    (fun _ res => (bytes_of_string (Result.UUID res), None))
    (fun _ node t _ => (Result.mk (Task.UUID t) "", None)).

Definition msg_transfer : Message :=
  Message.mk OperationJobTransfer "A" [x7f; x45; x4c; x46] NodeInfo_zero.

(** ** Notions for the properties of [ExecuteMany] *)

(** A goroutine blocked on one of the two channels. *)
Definition blocked (g : goroutine) : nat :=
  match g with
  | GSendErr _ | GSendRes _ => 1
  | _ => 0
  end.

(** The nodes whose goroutine has not yet come back from [s.Execute]. *)
Definition spawned_nodes (gs : list goroutine) : list Node :=
  omap (fun g => match g with GSpawned node => Some node | _ => None end) gs.

(** The results waiting in goroutines blocked on [rc <- res]. *)
Definition pending_results (gs : list goroutine) : list Result :=
  omap (fun g => match g with GSendRes r => Some r | _ => None end) gs.

(** The nodes [s.Execute] has been called on, and the results it has
    returned without error, in the order of the returns. *)
Definition executed_nodes (tr : list event) : list Node :=
  omap (fun e => match e with
                 | EvExecute node _ _ _ _ => Some node
                 | _ => None
                 end) tr.

Definition successes (tr : list event) : list Result :=
  omap (fun e => match e with
                 | EvExecute _ _ _ r None => Some r
                 | _ => None
                 end) tr.

(** How many goroutines are gone once the call has returned: all of them
    after a return without error, one more than there are results after a
    return with an error. *)
Definition EM_exit_inv (st : EM) : Prop :=
  match em_returned st with
  | None => True
  | Some (_, None) =>
      sum_list_with exited (em_goroutines st) = length (em_goroutines st)
  | Some (_, Some _) =>
      sum_list_with exited (em_goroutines st) = length (em_results st) + 1
  end.

(** Every result on its way or delivered is one that [s.Execute] returned,
    and every call of [s.Execute] belongs to one node of the list. *)
Definition EM_flow_inv (n : Nodes) (st : EM) : Prop :=
  em_results st ++ pending_results (em_goroutines st)
    ≡ₚ successes (em_trace st) /\
  executed_nodes (em_trace st) ++ spawned_nodes (em_goroutines st) ≡ₚ n /\
  length (executed_nodes (em_trace st)) = length (em_trace st).

(** ** Status reports: [statusCallback] and [getCPUTemp] *)

(** Floating-point numbers are not computed with here: [float64] is any
    type with the operations the two functions use, and a [float32] is kept
    as its bit pattern, as in [NodeInfo], zero being [0]. *)
Record FloatOps : Type := mkFloatOps {
  float64 : Type;
  f64_zero : float64;
  f64_add : float64 -> float64 -> float64;
  f64_mul : float64 -> float64 -> float64;
  f64_div : float64 -> float64 -> float64;
  f64_of_int : Z -> float64;
  math_Round : float64 -> float64;
  to_float32 : float64 -> Z;
  f32_gt : Z -> Z -> bool
}.

(** [host.TemperatureStat], by the two fields that are read. *)
Record TemperatureStat (F : FloatOps) : Type := mkTemperatureStat {
  SensorKey : string;
  Temperature : float64 F
}.
Arguments mkTemperatureStat {F} _ _.
Arguments SensorKey {F} _.
Arguments Temperature {F} _.

(** [fmt.Sprintf("coretemp_core%d_input", coreNum)]. *)
Definition sensorKey (coreNum : Z) : string :=
  "coretemp_core" +:+ pretty coreNum +:+ "_input".

(** [float32(math.Round(x*10) / 10)]. *)
Definition one_decimal (F : FloatOps) (x : float64 F) : Z :=
  to_float32 F
    (f64_div F (math_Round F (f64_mul F x (f64_of_int F 10))) (f64_of_int F 10)).

(** The [linux] case. The key is formatted once, with [coreNum] still
    zero: [continue] goes on with the inner loop, and the outer loop is left
    by [break] after its first turn. *)
Definition getCPUTemp_linux (F : FloatOps) (temps : list (TemperatureStat F)) : Z :=
  let key := sensorKey 0 in
  let '(coreTempsTotal, coreNum) :=
    foldl
      (fun '(total, coreNum) sensor =>
         if String.eqb (SensorKey sensor) key
         then (f64_add F total (Temperature sensor), (coreNum + 1)%Z)
         else (total, coreNum))
      (f64_zero F, 0%Z) temps in
  if Z.eqb coreNum 0 then 0%Z
  else one_decimal F (f64_div F coreTempsTotal (f64_of_int F coreNum)).

(** The [darwin] case. *)
Fixpoint getCPUTemp_darwin (F : FloatOps) (temps : list (TemperatureStat F)) : Z :=
  match temps with
  | [] => 0%Z
  | sensor :: rest =>
      if String.eqb (SensorKey sensor) "TC0P"
      then one_decimal F (Temperature sensor)
      else getCPUTemp_darwin F rest
  end.

(** The [default] case: [n] and [biggest] start at zero. *)
Definition getCPUTemp_default (F : FloatOps) (temps : list (TemperatureStat F)) : Z :=
  if Nat.ltb 0 (length temps) then
    snd (foldl
           (fun '(n, biggest) v =>
              let temp := to_float32 F (Temperature v) in
              if f32_gt F temp n then (temp, temp) else (n, biggest))
           (0%Z, 0%Z) temps)
  else 0%Z.

(** [func getCPUTemp() float32], given [runtime.GOOS] and what
    [host.SensorsTemperatures()] returned. *)
Definition getCPUTemp (F : FloatOps) (GOOS : string)
    (sensors : list (TemperatureStat F) * option error) : Z :=
  match snd sensors with
  | Some _ => 0%Z
  | None =>
      if String.eqb GOOS "linux" then getCPUTemp_linux F (fst sensors)
      else if String.eqb GOOS "darwin" then getCPUTemp_darwin F (fst sensors)
      else getCPUTemp_default F (fst sensors)
  end.

(** [func statusCallback(s *Server, conn *Conn, _ Message)], given what
    [cpu.Percent(time.Second, false)] and [host.SensorsTemperatures()]
    returned. [Message{NodeInfo: ni}] leaves [Operation] at the zero value of
    its type, which is declared outside the two files: [op0]. *)
Definition statusCallback (F : FloatOps) (GOOS : string) (op0 : Operation)
    (usage : list (float64 F) * option error)
    (sensors : list (TemperatureStat F) * option error)
    (conn : ConnPtr) : M unit :=
  let ni := NodeInfo_zero in
  let ni :=
    match snd usage, fst usage with
    | None, u :: _ => mkNodeInfo (OS ni) (to_float32 F u) (CPUTemp ni)
    | _, _ => ni
    end in
  let ni := mkNodeInfo (OS ni) (Usage ni) (getCPUTemp F GOOS sensors) in
  err ← sendWithConn conn (Message.mk op0 "" [] ni);
  match err with
  | Some e => logger Errorln ["Unable to respond to a status request:"; e]
  | None => ret tt
  end.

(** A stand-in for the floating-point operations: integers, tenths kept by
    [math_Round], and the order of the integers. *)
Definition FloatOps_Z : FloatOps :=
  mkFloatOps Z 0%Z Z.add Z.mul Z.div (fun z => z) (fun z => z) (fun z => z) Z.gtb.

(** ** More sample values *)

(** The registry of the scenario of the specification after its three
    upserts. *)
Definition registry2 : Nodes := [node_B; node_C].

(** The same two nodes, larger address first. *)
Definition registry2_rev : Nodes := [node_C; node_B].

(** Insertion sort alone, as package [sort] of Go 1.19 and later runs it on
    slices of at most twelve elements; used here on slices of any length. *)
Definition plainInsertionSort : sorter := fun A less l => insertionSort less l.

(** Sensors as a Windows machine might report them, in the stand-in
    arithmetic. *)
Definition sample_sensors : list (TemperatureStat FloatOps_Z) :=
  [@mkTemperatureStat FloatOps_Z "acpitz" 41%Z;
   @mkTemperatureStat FloatOps_Z "cpu" 57%Z;
   @mkTemperatureStat FloatOps_Z "gpu" 49%Z].
(** * Properties *)

(** ** [net.IP.Equal] is an equivalence *)

Lemma bytes_Equal_true a b : bytes_Equal a b = true <-> a = b.
Proof. unfold bytes_Equal. apply bool_decide_eq_true. Qed.

Lemma IP_Equal_spec ip x :
  IP_Equal ip x = true <->
  ip = x \/ (length ip = 4 /\ x = v4InV6Prefix ++ ip)
         \/ (length x = 4 /\ ip = v4InV6Prefix ++ x).
Proof.
  split.
  - unfold IP_Equal, IPv4len, IPv6len.
    destruct (Nat.eqb_spec (length ip) (length x)) as [Hl|Hl].
    { rewrite bytes_Equal_true. auto. }
    destruct (Nat.eqb_spec (length ip) 4) as [H4|H4];
      destruct (Nat.eqb_spec (length x) 16) as [H16|H16]; simpl.
    1: { rewrite andb_true_iff, !bytes_Equal_true. intros [Ht Hd].
         right; left. split; [done|].
         by rewrite <- (take_drop 12 x), Ht, Hd. }
    all: destruct (Nat.eqb_spec (length ip) 16) as [Hi|Hi];
      destruct (Nat.eqb_spec (length x) 4) as [Hx|Hx]; simpl; try done.
    all: rewrite andb_true_iff, !bytes_Equal_true; intros [Ht Hd];
      right; right; split; [done|];
      by rewrite <- (take_drop 12 ip), Ht, Hd.
  - intros [->|[[H4 ->]|[H4 ->]]]; unfold IP_Equal.
    + rewrite Nat.eqb_refl. by apply bytes_Equal_true.
    + rewrite length_app, H4. simpl. by apply bytes_Equal_true.
    + rewrite length_app, H4. simpl. by apply bytes_Equal_true.
Qed.

Lemma IP_Equal_refl ip : IP_Equal ip ip = true.
Proof. apply IP_Equal_spec. by left. Qed.

Lemma IP_Equal_sym ip x : IP_Equal ip x = IP_Equal x ip.
Proof.
  apply eq_true_iff_eq. rewrite !IP_Equal_spec.
  split; intros [?|[?|?]]; auto.
Qed.

Lemma IP_Equal_trans a b c :
  IP_Equal a b = true -> IP_Equal b c = true -> IP_Equal a c = true.
Proof.
  rewrite !IP_Equal_spec.
  intros [->|[[Ha ->]|[Hb ->]]] Hbc; [done| |].
  - destruct Hbc as [<-|[[Hb' _]|[Hc' Hc]]]; [by auto| |].
    + rewrite length_app in Hb'. simpl in Hb'. lia.
    + apply app_inv_head in Hc. auto.
  - destruct Hbc as [<-|[[_ ->]|[Hc' ->]]]; [by auto|by auto|].
    rewrite length_app in Hb. simpl in Hb. lia.
Qed.

Lemma IP_Equal_congr a b c :
  IP_Equal a b = true -> IP_Equal a c = IP_Equal b c.
Proof.
  intros Hab. apply eq_true_iff_eq. split; intros H.
  - apply IP_Equal_trans with a; [by rewrite IP_Equal_sym|done].
  - by apply IP_Equal_trans with b.
Qed.

(** ** The registry: [updateNode] and [find] *)

Lemma Equals_addr n w2 a a2 :
  Node.Addr n = Some a -> Node.Addr w2 = Some a2 ->
  Equals n w2 = Ok (IP_Equal (TCPAddr_IP a) (TCPAddr_IP a2)).
Proof. intros Ha Ha2. unfold Equals, Addr_IP. by rewrite Ha, Ha2. Qed.

Lemma updateNode_scan_S k nodes node2 :
  updateNode_scan (S k) nodes node2
  = match updateNode_scan k nodes node2 with
    | Ok r => Ok (S <$> r)
    | Panic => Panic
    end.
Proof.
  revert k. induction nodes as [|node rest IH]; intros k; simpl; [done|].
  destruct (Addr_IP node) as [ip|]; simpl; [|done].
  destruct (Addr_IP node2) as [ip2|]; simpl; [|done].
  destruct (IP_Equal ip ip2); simpl; [done|]. apply IH.
Qed.

(** One turn of the loop of [updateNode], on the first entry. *)
Lemma updateNode_cons node rest st node2 a a2 :
  Node.Addr node = Some a -> Node.Addr node2 = Some a2 ->
  updateNode (Server.mk (node :: rest) st) node2
  = if IP_Equal (TCPAddr_IP a) (TCPAddr_IP a2)
    then Ok (Server.mk (node2 :: rest) st)
    else match updateNode (Server.mk rest st) node2 with
         | Ok s' => Ok (Server.mk (node :: Server.nodes s') (Server.Status s'))
         | Panic => Panic
         end.
Proof.
  intros Ha Ha2. unfold updateNode. simpl.
  unfold Addr_IP at 1 2. rewrite Ha, Ha2. simpl.
  destruct (IP_Equal _ _); simpl; [done|].
  rewrite updateNode_scan_S.
  destruct (updateNode_scan 0 rest node2) as [[i|]|]; simpl; done.
Qed.

Lemma updateNode_Status s node2 s' :
  updateNode s node2 = Ok s' -> Server.Status s' = Server.Status s.
Proof.
  unfold updateNode.
  destruct (updateNode_scan 0 (Server.nodes s) node2) as [[i|]|]; simpl;
    intros [= <-]; done.
Qed.

(** What one [updateNode] call does to a registry of nodes with addresses:
    it replaces the first entry of equal IP where it stands, or appends. *)
Lemma updateNode_cases nodes st node2 :
  Forall has_addr nodes -> has_addr node2 ->
  exists nodes',
    updateNode (Server.mk nodes st) node2 = Ok (Server.mk nodes' st) /\
    Forall has_addr nodes' /\
    ((exists i old,
        nodes !! i = Some old /\ Equals old node2 = Ok true /\
        (forall j m, j < i -> nodes !! j = Some m -> Equals m node2 = Ok false) /\
        nodes' = <[i := node2]> nodes)
     \/ ((forall m, m ∈ nodes -> Equals m node2 = Ok false) /\
         nodes' = nodes ++ [node2])).
Proof.
  intros Hall [a2 Ha2]. induction Hall as [|node rest [a Ha] Hrest IH].
  - exists [node2]. split; [done|]. split.
    + apply Forall_singleton. by exists a2.
    + right. split; [|done]. intros m Hm. by apply elem_of_nil in Hm.
  - destruct IH as (rest' & Hupd & Hall' & Hcases).
    rewrite (updateNode_cons _ _ _ _ _ _ Ha Ha2).
    destruct (IP_Equal (TCPAddr_IP a) (TCPAddr_IP a2)) eqn:Heq.
    + exists (node2 :: rest). split; [done|]. split.
      * apply Forall_cons. split; [by exists a2|done].
      * left. exists 0, node. split; [done|]. split.
        { by rewrite (Equals_addr _ _ _ _ Ha Ha2), Heq. }
        split; [intros; lia|done].
    + exists (node :: rest'). rewrite Hupd. split; [done|]. split.
      * apply Forall_cons. split; [by exists a|done].
      * destruct Hcases as [(i & old & Hi & Hold & Hbefore & ->)|[Hnone ->]].
        { left. exists (S i), old. split; [done|]. split; [done|].
          split; [|done]. intros [|j] m Hj Hm; simpl in Hm.
          - injection Hm as <-.
            by rewrite (Equals_addr _ _ _ _ Ha Ha2), Heq.
          - apply (Hbefore j); [lia|done]. }
        { right. split; [|done]. intros m [->|Hm]%elem_of_cons.
          - by rewrite (Equals_addr _ _ _ _ Ha Ha2), Heq.
          - by apply Hnone. }
Qed.

Lemma Equals_true_sym a b : Equals a b = Ok true -> Equals b a = Ok true.
Proof.
  unfold Equals, Addr_IP.
  destruct (Node.Addr a), (Node.Addr b); simpl; try done.
  by rewrite IP_Equal_sym.
Qed.

Lemma Equals_true_trans a b c :
  Equals a b = Ok true -> Equals b c = Ok true -> Equals a c = Ok true.
Proof.
  unfold Equals, Addr_IP.
  destruct (Node.Addr a), (Node.Addr b), (Node.Addr c); simpl; try done.
  intros [= H1] [= H2]. by rewrite (IP_Equal_trans _ _ _ H1 H2).
Qed.

Lemma Equals_true_false a b : Equals a b = Ok true -> Equals a b = Ok false -> False.
Proof. by intros ->. Qed.

Lemma updateNode_distinct nodes st node2 nodes' :
  Forall has_addr nodes -> has_addr node2 -> distinct_IPs nodes ->
  updateNode (Server.mk nodes st) node2 = Ok (Server.mk nodes' st) ->
  distinct_IPs nodes'.
Proof.
  intros Hall Ha2 Hdist Hupd.
  destruct (updateNode_cases nodes st node2 Hall Ha2)
    as (nodes'' & Hupd' & _ & Hcases).
  rewrite Hupd in Hupd'. injection Hupd' as <-.
  destruct Hcases as [(i & old & Hi & Hold & _ & ->)|[Hnone ->]].
  - assert (Hlt : i < length nodes) by (eapply lookup_lt_Some; eauto).
    intros j k a b Hj Hk Hab.
    destruct (decide (j = i)) as [->|Hji], (decide (k = i)) as [->|Hki];
      [done| | |].
    + rewrite list_lookup_insert_eq in Hj by done. injection Hj as <-.
      rewrite list_lookup_insert_ne in Hk by done.
      apply (Hdist i k old b); [done..|].
      by apply Equals_true_trans with node2.
    + rewrite list_lookup_insert_eq in Hk by done. injection Hk as <-.
      rewrite list_lookup_insert_ne in Hj by done.
      apply (Hdist j i a old); [done..|].
      apply Equals_true_trans with node2; [done|].
      by apply Equals_true_sym.
    + rewrite list_lookup_insert_ne in Hj, Hk by done. by apply (Hdist j k a b).
  - intros j k a b Hj Hk Hab.
    destruct (decide (j < length nodes)) as [Hjl|Hjl],
             (decide (k < length nodes)) as [Hkl|Hkl].
    + rewrite lookup_app_l in Hj, Hk by done. by apply (Hdist j k a b).
    + rewrite lookup_app_l in Hj by done.
      rewrite lookup_app_r in Hk by lia.
      apply list_lookup_singleton_Some in Hk as [_ <-].
      exfalso. apply (Equals_true_false _ _ Hab), Hnone.
      by apply list_elem_of_lookup_2 in Hj.
    + rewrite lookup_app_l in Hk by done.
      rewrite lookup_app_r in Hj by lia.
      apply list_lookup_singleton_Some in Hj as [_ <-].
      exfalso. apply (Equals_true_false _ _ (Equals_true_sym _ _ Hab)), Hnone.
      by apply list_elem_of_lookup_2 in Hk.
    + rewrite lookup_app_r in Hj, Hk by lia.
      apply list_lookup_singleton_Some in Hj as [Hj _].
      apply list_lookup_singleton_Some in Hk as [Hk _]. lia.
Qed.

Lemma upserts_invariant ns : forall nodes st,
  Forall has_addr nodes -> distinct_IPs nodes -> Forall has_addr ns ->
  exists nodes',
    upserts (Server.mk nodes st) ns = Ok (Server.mk nodes' st) /\
    Forall has_addr nodes' /\ distinct_IPs nodes'.
Proof.
  induction ns as [|n ns IH]; intros nodes st Hall Hdist Hns.
  - exists nodes. by repeat split.
  - apply Forall_cons in Hns as [Hn Hns].
    destruct (updateNode_cases nodes st n Hall Hn) as (nodes1 & Hupd & Hall1 & _).
    assert (Hdist1 := updateNode_distinct _ _ _ _ Hall Hn Hdist Hupd).
    destruct (IH nodes1 st Hall1 Hdist1 Hns) as (nodes' & Hrun & Hall' & Hdist').
    exists nodes'. simpl. rewrite Hupd. simpl. by rewrite Hrun.
Qed.

Lemma distinct_IPs_nil : distinct_IPs [].
Proof. intros i j a b Hi. by rewrite lookup_nil in Hi. Qed.

(** C1. Starting from an empty registry, any sequence of [updateNode] calls
    (of nodes that carry an address) leaves at most one entry per IP; a
    further [updateNode] of a node whose IP equals that of the entry at
    position [i] puts the new node at position [i], keeps the length and
    every other position, and a node whose IP equals that of no entry is
    appended at the end. *)
Theorem updateNode_one_entry_per_IP (st : Status) (ns : list Node) :
  Forall has_addr ns ->
  exists s,
    upserts (Server_empty st) ns = Ok s /\
    distinct_IPs (Server.nodes s) /\
    forall node2, has_addr node2 ->
      exists s',
        updateNode s node2 = Ok s' /\
        distinct_IPs (Server.nodes s') /\
        (forall i old,
            Server.nodes s !! i = Some old -> Equals old node2 = Ok true ->
            Server.nodes s' = <[i := node2]> (Server.nodes s) /\
            Server.nodes s' !! i = Some node2 /\
            length (Server.nodes s') = length (Server.nodes s) /\
            forall j, j <> i -> Server.nodes s' !! j = Server.nodes s !! j) /\
        ((forall old, old ∈ Server.nodes s -> Equals old node2 = Ok false) ->
         Server.nodes s' = Server.nodes s ++ [node2]).
Proof.
  intros Hns.
  destruct (upserts_invariant ns [] st (List.Forall_nil _) distinct_IPs_nil Hns)
    as (nodes & Hrun & Hall & Hdist).
  exists (Server.mk nodes st). split; [done|]. split; [done|].
  intros node2 Hn2. simpl.
  destruct (updateNode_cases nodes st node2 Hall Hn2)
    as (nodes' & Hupd & Hall' & Hcases).
  exists (Server.mk nodes' st). split; [done|]. split.
  { by apply (updateNode_distinct nodes st node2). }
  simpl. split.
  - intros i old Hi Hold.
    destruct Hcases as [(i' & old' & Hi' & Hold' & _ & ->)|[Hnone _]].
    + assert (i' = i) as ->.
      { apply (Hdist i' i old' old); [done..|].
        apply Equals_true_trans with node2; [done|].
        by apply Equals_true_sym. }
      assert (Hlt : i < length nodes) by (eapply lookup_lt_Some; eauto).
      split; [done|]. split; [by apply list_lookup_insert_eq|].
      split; [by apply length_insert|].
      intros j Hj. by apply list_lookup_insert_ne.
    + exfalso. apply (Equals_true_false _ _ Hold), Hnone.
      by apply list_elem_of_lookup_2 in Hi.
  - intros Hfresh.
    destruct Hcases as [(i' & old' & Hi' & Hold' & _ & _)|[_ ->]]; [|done].
    exfalso. apply (Equals_true_false _ _ Hold'), Hfresh.
    by apply list_elem_of_lookup_2 in Hi'.
Qed.

(** What [find] sees after one [updateNode]. *)
Lemma find_updateNode nodes : forall st node2 a2 nodes' addr,
  Forall has_addr nodes -> Node.Addr node2 = Some a2 ->
  updateNode (Server.mk nodes st) node2 = Ok (Server.mk nodes' st) ->
  find nodes' addr
  = if IP_Equal (TCPAddr_IP a2) addr then Ok node2 else find nodes addr.
Proof.
  induction nodes as [|node rest IH]; intros st node2 a2 nodes' addr Hall Ha2.
  - intros [= <-]. simpl. unfold Addr_IP. by rewrite Ha2.
  - apply Forall_cons in Hall as [[a Ha] Hrest].
    rewrite (updateNode_cons _ _ _ _ _ _ Ha Ha2).
    destruct (IP_Equal (TCPAddr_IP a) (TCPAddr_IP a2)) eqn:Heq.
    + intros [= <-]. simpl. unfold Addr_IP. rewrite Ha, Ha2. simpl.
      rewrite (IP_Equal_congr _ _ addr Heq).
      by destruct (IP_Equal (TCPAddr_IP a2) addr).
    + destruct (updateNode (Server.mk rest st) node2) as [[rest' st']|] eqn:Hupd;
        [|done].
      assert (st' = st) as -> by apply (updateNode_Status _ _ _ Hupd).
      intros [= <-]. simpl. unfold Addr_IP. rewrite Ha. simpl.
      rewrite (IH st node2 a2 rest' addr Hrest Ha2 Hupd).
      destruct (IP_Equal (TCPAddr_IP a) addr) eqn:Ha_addr;
        destruct (IP_Equal (TCPAddr_IP a2) addr) eqn:Ha2_addr; try done.
      exfalso. rewrite (IP_Equal_sym (TCPAddr_IP a2)) in Ha2_addr.
      rewrite (IP_Equal_trans _ _ _ Ha_addr Ha2_addr) in Heq. done.
Qed.

Lemma find_upserts ns : forall nodes st,
  Forall has_addr nodes -> Forall has_addr ns ->
  exists nodes',
    upserts (Server.mk nodes st) ns = Ok (Server.mk nodes' st) /\
    forall addr,
      find nodes' addr
      = match last_upserted addr ns with
        | Some m => Ok m
        | None => find nodes addr
        end.
Proof.
  induction ns as [|n ns IH]; intros nodes st Hall Hns.
  - exists nodes. by split.
  - apply Forall_cons in Hns as [Hn Hns].
    destruct (updateNode_cases nodes st n Hall Hn) as (nodes1 & Hupd & Hall1 & _).
    destruct (IH nodes1 st Hall1 Hns) as (nodes' & Hrun & Hfind).
    exists nodes'. simpl. rewrite Hupd. simpl. split; [done|].
    intros addr. rewrite Hfind.
    destruct (last_upserted addr ns) as [m|]; [done|].
    destruct Hn as [a Ha]. rewrite Ha.
    rewrite (find_updateNode nodes st n a nodes1 addr Hall Ha Hupd).
    by destruct (IP_Equal (TCPAddr_IP a) addr).
Qed.

(** C2. On the registry reached from the empty one by a sequence of
    [updateNode] calls (of nodes that carry an address), [find] returns the
    zero-value [Node] for an address that no upserted node has, and the
    most recently upserted node of that address otherwise. *)
Theorem find_most_recent_upsert (st : Status) (ns : list Node) :
  Forall has_addr ns ->
  exists s,
    upserts (Server_empty st) ns = Ok s /\
    forall addr : IP,
      find (Server.nodes s) addr
      = Ok (default Node_zero (last_upserted addr ns)).
Proof.
  intros Hns.
  destruct (find_upserts ns [] st (List.Forall_nil _) Hns) as (nodes & Hrun & Hfind).
  exists (Server.mk nodes st). split; [done|].
  intros addr. simpl. rewrite Hfind.
  by destruct (last_upserted addr ns).
Qed.

(** ** The handlers *)

Ltac handler_unfold :=
  unfold events_of, run, jobTransferCallback, jobExecuteCallback,
    respondTransferError, createFolderIfNotExist, saveBinary, sendWithConn,
    decodeTask, runLocalJob, Result_encode, set_Status, logger, emit, ask, ret,
    mbind, mret, M_bind, M_ret;
  simpl.

(** Case analysis on the answer of the next outside call. *)
Ltac env_case :=
  match goal with
  | |- context [env_decodeTask ?e ?h ?d] =>
      let H := fresh "Hdecode" in
      destruct (env_decodeTask e h d) as [? [?|]] eqn:H
  | |- context [env_createFolderIfNotExist ?e ?h ?p] =>
      let H := fresh "Hfolder" in
      destruct (env_createFolderIfNotExist e h p) as [?|] eqn:H
  | |- context [env_saveBinary ?e ?h ?p ?d] =>
      let H := fresh "Hsave" in
      destruct (env_saveBinary e h p d) as [?|] eqn:H
  | |- context [env_runLocalJob ?e ?h ?t] =>
      let H := fresh "Hjob" in
      destruct (env_runLocalJob e h t) as [? [?|]] eqn:H
  | |- context [env_encode ?e ?h ?r] =>
      let H := fresh "Hencode" in
      destruct (env_encode e h r) as [? [?|]] eqn:H
  | |- context [env_sendWithConn ?e ?h ?c ?m] =>
      let H := fresh "Hsend" in
      destruct (env_sendWithConn e h c m) as [?|] eqn:H
  end; simpl.

Ltac trace_norm := rewrite <- ?app_assoc, drop_app_length; simpl.

(** Membership in an explicit list of events, by cases. *)
Ltac in_events H :=
  repeat (apply elem_of_cons in H as [H|H]; [try discriminate H|]);
  try (by apply elem_of_nil in H).

Ltac in_list :=
  repeat first [by apply list_elem_of_here | apply list_elem_of_further].

Ltac not_in_events :=
  let H := fresh in
  intros H; in_events H.

(** C3. Handed a message with an empty [Data], [jobTransferCallback] sends
    a [TransferFailed] message that carries an error text (the words "empty
    data field", or the text of the error of the folder creation when that
    fails first), sends nothing else, never calls [saveBinary], and leaves
    the server as it was; so the binary is saved only on a payload that is
    not empty. *)
Theorem jobTransferCallback_empty_payload
    (env : Env) (w : World) (conn : ConnPtr) (msg : Message) :
  Message.Data msg = [] ->
  (exists errMsg serr,
      EvSend conn
        (Message_of OperationTransferFailed (bytes_of_string errMsg)) serr
        ∈ events_of (jobTransferCallback conn msg) env w /\
      (errMsg = "empty data field" \/
       EvCreateFolder ".beekeeper" (Some errMsg)
         ∈ events_of (jobTransferCallback conn msg) env w)) /\
  (forall c m serr,
      EvSend c m serr ∈ events_of (jobTransferCallback conn msg) env w ->
      c = conn /\ Message.Operation m = OperationTransferFailed) /\
  (forall path data err,
      EvSaveBinary path data err ∉ events_of (jobTransferCallback conn msg) env w) /\
  server (run (jobTransferCallback conn msg) env w) = server w.
Proof.
  intros Hdata. handler_unfold. rewrite Hdata. simpl.
  env_case; env_case; trace_norm.
  all: split;
    [eexists _, _; split; [in_list | first [by left | right; in_list]]|].
  all: split;
    [intros c m serr H; in_events H; by injection H as -> -> ->|].
  all: split; [intros path data' err; not_in_events|done].
Qed.

Lemma append_nonempty (s1 s2 : string) : s1 <> "" -> s1 +:+ s2 <> "".
Proof. destruct s1; [done|]. intros _. simpl. discriminate. Qed.

(** C4. When the payload decodes into a task and [runLocalJob], called
    by the handler after the decoding, the log line and the write of
    [StatusWorking], returns an error for that task, [jobExecuteCallback]
    does call it, and the [Result] it builds (and hands to the encoder, and
    on to the connection when encoding succeeds) has the UUID of the task and
    a non-empty error field; [s.Status] is written exactly twice,
    [StatusWorking] before the call of [runLocalJob] and [StatusIDLE] after
    it, so that a server that was idle goes Idle, Working, Idle and ends
    idle. *)
Theorem jobExecuteCallback_failed_job
    (env : Env) (w : World) (conn : ConnPtr) (msg : Message)
    (task : Task) (r : Result) (e : error) :
  env_decodeTask env (trace w) (Message.Data msg) = (task, None) ->
  env_runLocalJob env
    (trace w
     ++ [EvDecodeTask (Message.Data msg) task None;
         EvLog Infoln
           ["Executing task"; Task.UUID task; "for node"; Message.Name msg];
         EvStatus StatusWorking])
    task
  = (r, Some e) ->
  exists res : Result,
    Result.UUID res = Task.UUID task /\
    Result.Error res = "Unable to run job: " +:+ e /\
    Result.Error res <> "" /\
    (exists b berr,
        EvEncode res b berr ∈ events_of (jobExecuteCallback conn msg) env w) /\
    (forall res' b berr,
        EvEncode res' b berr ∈ events_of (jobExecuteCallback conn msg) env w ->
        res' = res) /\
    (forall b,
        EvEncode res b None ∈ events_of (jobExecuteCallback conn msg) env w ->
        exists serr,
          EvSend conn (Message_of OperationJobResult b) serr
            ∈ events_of (jobExecuteCallback conn msg) env w) /\
    (exists pre mid post,
        events_of (jobExecuteCallback conn msg) env w
        = pre ++ EvStatus StatusWorking :: mid ++ EvStatus StatusIDLE :: post /\
        EvRunLocalJob task r (Some e) ∈ mid) /\
    status_writes (events_of (jobExecuteCallback conn msg) env w)
    = [StatusWorking; StatusIDLE] /\
    Server.Status (server (run (jobExecuteCallback conn msg) env w)) = StatusIDLE /\
    (Server.Status (server w) = StatusIDLE ->
     Server.Status (server w)
       :: status_writes (events_of (jobExecuteCallback conn msg) env w)
     = [StatusIDLE; StatusWorking; StatusIDLE]).
Proof.
  intros Hdecode Hjob.
  assert (Hh : forall (l : list event) a b c,
             l ++ [a; b; c] = ((l ++ [a]) ++ [b]) ++ [c])
    by (intros; by rewrite <- !app_assoc).
  rewrite Hh in Hjob. clear Hh.
  handler_unfold. rewrite Hdecode. simpl. rewrite Hjob. simpl.

  env_case; [|env_case]; trace_norm.
  all: eexists (Result.mk _ _); split; [reflexivity|]; split; [reflexivity|].
  all: split; [by apply append_nonempty|].
  all: split; [eexists _, _; in_list|].
  all: split; [intros res' b' berr H; in_events H; by injection H as -> _ _|].
  all: split;
    [intros b' H; in_events H; injection H as <-; try discriminate;
     eexists; in_list|].
  all: split;
    [eexists [_; _], [_; _; _], _; split; [reflexivity|in_list]|].
  all: split; [reflexivity|]; split; [reflexivity|].
  all: by intros ->.
Qed.

(** What a run of [jobExecuteCallback] consists of when the payload does
    not decode: the call of [decodeTask] and one log line. *)
Lemma undecodable_run_shape
    (env : Env) (w : World) (conn : ConnPtr) (msg : Message)
    (task : Task) (e : error) :
  EvDecodeTask (Message.Data msg) task (Some e)
    ∈ events_of (jobExecuteCallback conn msg) env w ->
  events_of (jobExecuteCallback conn msg) env w
  = [EvDecodeTask (Message.Data msg) task (Some e);
     EvLog Errorln ["Unable to read task data:"; e]] /\
  run (jobExecuteCallback conn msg) env w
  = mkWorld (server w)
      (trace w ++ [EvDecodeTask (Message.Data msg) task (Some e);
                   EvLog Errorln ["Unable to read task data:"; e]]).
Proof.
  handler_unfold.
  env_case.
  - trace_norm. intros H. in_events H. injection H as <- <-.
    by split.
  - env_case; (env_case; [|env_case]); trace_norm; intros H; in_events H.
Qed.

(** C5. When the payload of the message does not decode into a [Task],
    [jobExecuteCallback] sends nothing on any connection: the run is the
    failed decoding and one log line. *)
Theorem jobExecuteCallback_undecodable_no_reply
    (env : Env) (w : World) (conn : ConnPtr) (msg : Message)
    (task : Task) (e : error) :
  EvDecodeTask (Message.Data msg) task (Some e)
    ∈ events_of (jobExecuteCallback conn msg) env w ->
  (forall c m serr,
      EvSend c m serr ∉ events_of (jobExecuteCallback conn msg) env w) /\
  exists line,
    events_of (jobExecuteCallback conn msg) env w
    = [EvDecodeTask (Message.Data msg) task (Some e); EvLog Errorln line].
Proof.
  intros Hdec.
  destruct (undecodable_run_shape env w conn msg task e Hdec) as [-> _].
  split; [intros c m serr; not_in_events|by eexists].
Qed.

(** C10. When the payload of the message does not decode into a [Task],
    [jobExecuteCallback] leaves the server, and with it [s.Status], as it
    was, and performs no write to [s.Status] at all. *)
Theorem jobExecuteCallback_undecodable_status
    (env : Env) (w : World) (conn : ConnPtr) (msg : Message)
    (task : Task) (e : error) :
  EvDecodeTask (Message.Data msg) task (Some e)
    ∈ events_of (jobExecuteCallback conn msg) env w ->
  server (run (jobExecuteCallback conn msg) env w) = server w /\
  Server.Status (server (run (jobExecuteCallback conn msg) env w))
  = Server.Status (server w) /\
  status_writes (events_of (jobExecuteCallback conn msg) env w) = [] /\
  (forall st,
      EvStatus st ∉ events_of (jobExecuteCallback conn msg) env w).
Proof.
  intros Hdec.
  destruct (undecodable_run_shape env w conn msg task e Hdec)
    as [-> ->].
  repeat split. intros st. not_in_events.
Qed.

(** [StatusWorking] is written only after a successful decoding. *)
Lemma jobExecuteCallback_working_after_decode
    (env : Env) (w : World) (conn : ConnPtr) (msg : Message) :
  EvStatus StatusWorking ∈ events_of (jobExecuteCallback conn msg) env w ->
  exists task,
    EvDecodeTask (Message.Data msg) task None
      ∈ events_of (jobExecuteCallback conn msg) env w.
Proof.
  handler_unfold.
  env_case; [trace_norm; intros H; in_events H|].
  env_case; (env_case; [|env_case]); trace_norm; intros _; eexists; in_list.
Qed.

(** ** The dispatcher: [ExecuteMany] *)

Section ExecuteMany_facts.
Variables (env : Env) (n : Nodes) (t : Task) (timeout : list Z).

#[local] Abbreviation step := (ExecuteMany_step env n t timeout).
#[local] Abbreviation runs := (ExecuteMany_run env n t timeout).
#[local] Abbreviation Inv := (EM_inv env n t timeout).

Lemma sum_list_with_insert {A} (f : A -> nat) (l : list A) i x y :
  l !! i = Some x ->
  sum_list_with f (<[i := y]> l) + f x = sum_list_with f l + f y.
Proof.
  revert i. induction l as [|z l IH]; intros [|i] Hi; simpl in *;
    try done.
  - injection Hi as ->. lia.
  - specialize (IH i Hi). lia.
Qed.

Lemma sum_exited_le (gs : list goroutine) :
  sum_list_with exited gs <= length gs.
Proof. induction gs as [|[] gs IH]; simpl; lia. Qed.

Lemma sum_exited_lt (gs : list goroutine) i g :
  gs !! i = Some g -> exited g = 0 ->
  sum_list_with exited gs < length gs.
Proof.
  revert i. induction gs as [|g' gs IH]; intros [|i] Hi Hg; simpl in *;
    try done.
  - injection Hi as ->. rewrite Hg. pose proof (sum_exited_le gs). lia.
  - specialize (IH i Hi Hg). destruct g'; simpl; lia.
Qed.

Lemma some_not_exited (gs : list goroutine) :
  sum_list_with exited gs < length gs ->
  exists i g, gs !! i = Some g /\ exited g = 0.
Proof.
  induction gs as [|g gs IH]; simpl; [lia|]. intros Hlt.
  destruct (exited g) eqn:Hg.
  - by exists 0, g.
  - destruct IH as (i & g' & Hi & Hg'); [destruct g; simpl in *; lia|].
    by exists (S i), g'.
Qed.

Lemma sum_exited_spawned (l : Nodes) :
  sum_list_with exited (GSpawned <$> l) = 0.
Proof. induction l as [|? ? IH]; csimpl; done. Qed.

Lemma sum_fuel_spawned (l : Nodes) :
  sum_list_with goroutine_fuel (GSpawned <$> l) = 2 * length l.
Proof. induction l as [|? ? IH]; csimpl; [done|]. rewrite IH. lia. Qed.

Lemma EM_inv_start : Inv (ExecuteMany_start n).
Proof.
  unfold ExecuteMany_start. split; simpl.
  - by rewrite length_fmap.
  - intros i node Hi. rewrite list_lookup_fmap in Hi.
    destruct (n !! i); simpl in Hi; by simplify_eq.
  - intros i e Hi. rewrite list_lookup_fmap in Hi.
    destruct (n !! i); simpl in Hi; by simplify_eq.
  - intros i r Hi. rewrite list_lookup_fmap in Hi.
    destruct (n !! i); simpl in Hi; by simplify_eq.
  - intros _ i Hi. rewrite list_lookup_fmap in Hi.
    destruct (n !! i); simpl in Hi; by simplify_eq.
  - intros r Hr. by apply elem_of_nil in Hr.
  - intros _. by rewrite sum_exited_spawned.
  - done.
  - done.
  - intros ev Hev. by apply elem_of_nil in Hev.
Qed.

(** The events of the trace only grow. *)
Lemma step_trace a st st' :
  step a st = Some st' -> exists evs, em_trace st' = em_trace st ++ evs.
Proof.
  destruct a as [i|i|]; simpl.
  - destruct (em_goroutines st !! i) as [[node| | |]|]; try done.
    intros [= <-]. simpl. eauto.
  - destruct (em_returned st); [done|].
    destruct (Nat.eqb _ _); [done|].
    destruct (em_goroutines st !! i) as [[node|e|r|]|]; try done;
      intros [= <-]; simpl; exists []; by rewrite app_nil_r.
  - destruct (em_returned st); [done|].
    destruct (Nat.eqb _ _); [|done].
    intros [= <-]; simpl; exists []; by rewrite app_nil_r.
Qed.

Lemma EM_inv_step a st st' : Inv st -> step a st = Some st' -> Inv st'.
Proof.
  intros [Hlen Hsp Hse Hsr Hex Hres Hcnt Hok Herr Htr].
  destruct a as [i|i|]; simpl.
  - (* goroutine [i] completes its call of Execute *)
    destruct (em_goroutines st !! i) as [[node| | |]|] eqn:Hi; try done.
    intros [= <-].
    assert (Hlt : i < length (em_goroutines st))
      by (eapply lookup_lt_Some; eauto).
    assert (Hni : n !! i = Some node) by by apply Hsp.
    set (r := env_Execute env (em_trace st) node t timeout).
    split; simpl.
    + by rewrite length_insert.
    + intros j node' Hj. destruct (decide (j = i)) as [->|Hji].
      * rewrite list_lookup_insert_eq in Hj by done.
        destruct (snd r); by simplify_eq.
      * rewrite list_lookup_insert_ne in Hj by done. by apply Hsp.
    + intros j e Hj. destruct (decide (j = i)) as [->|Hji].
      * rewrite list_lookup_insert_eq in Hj by done.
        destruct (snd r) as [inner|] eqn:Hr; simplify_eq.
        exists node, (fst r), inner. split; [done|]. split; [done|].
        rewrite elem_of_app. right. by apply list_elem_of_here.
      * rewrite list_lookup_insert_ne in Hj by done.
        destruct (Hse j e Hj) as (node' & res & inner & ? & ? & ?).
        exists node', res, inner. split; [done|]. split; [done|].
        rewrite elem_of_app. by left.
    + intros j r' Hj. destruct (decide (j = i)) as [->|Hji].
      * rewrite list_lookup_insert_eq in Hj by done.
        destruct (snd r) as [inner|] eqn:Hr; simplify_eq.
        exists node. split; [done|].
        rewrite elem_of_app. right. by apply list_elem_of_here.
      * rewrite list_lookup_insert_ne in Hj by done.
        destruct (Hsr j r' Hj) as (node' & ? & ?).
        exists node'. split; [done|]. rewrite elem_of_app. by left.
    + intros Hret j Hj. destruct (decide (j = i)) as [->|Hji].
      * rewrite list_lookup_insert_eq in Hj by done.
        destruct (snd r); by simplify_eq.
      * rewrite list_lookup_insert_ne in Hj by done.
        destruct (Hex Hret j Hj) as (node' & r' & ? & ?).
        exists node', r'. split; [done|]. rewrite elem_of_app. by left.
    + intros r' Hr'. destruct (Hres r' Hr') as (node' & ? & ?).
      exists node'. split; [done|]. rewrite elem_of_app. by left.
    + intros Hret. rewrite (Hcnt Hret).
      pose proof (sum_list_with_insert exited (em_goroutines st) i
                    (GSpawned node)
                    (match snd r with
                     | Some e => GSendErr (node_error node e)
                     | None => GSendRes (fst r)
                     end) Hi) as Hsum.
      destruct (snd r); simpl in Hsum; lia.
    + done.
    + intros rs e Hret. destruct (Herr rs e Hret)
        as (-> & node' & res & inner & ? & ? & ?).
      split; [done|]. exists node', res, inner. split; [done|].
      split; [done|]. rewrite elem_of_app. by left.
    + intros ev [Hev|Hev]%elem_of_app; [by apply Htr|].
      apply list_elem_of_singleton in Hev as ->.
      exists (em_trace st), node. split; [|done].
      by apply list_elem_of_lookup_2 in Hni.
  - (* the main loop receives from goroutine [i] *)
    destruct (em_returned st) eqn:Hret; [done|].
    specialize (Hcnt eq_refl). specialize (Hex eq_refl).
    destruct (Nat.eqb_spec (length (em_results st)) (length n)) as [|Hne];
      [done|].
    destruct (em_goroutines st !! i) as [[node|e|r|]|] eqn:Hi; try done;
      intros [= <-];
      assert (Hlt : i < length (em_goroutines st))
        by (eapply lookup_lt_Some; eauto).
    + (* an error *)
      destruct (Hse i e Hi) as (node & res & inner & Hni & -> & Hev).
      split; simpl; try done.
      * by rewrite length_insert.
      * intros j node' Hj. destruct (decide (j = i)) as [->|Hji].
        { rewrite list_lookup_insert_eq in Hj by done. done. }
        { rewrite list_lookup_insert_ne in Hj by done. by apply Hsp. }
      * intros j e Hj. destruct (decide (j = i)) as [->|Hji].
        { rewrite list_lookup_insert_eq in Hj by done. done. }
        { rewrite list_lookup_insert_ne in Hj by done. by apply Hse. }
      * intros j r Hj. destruct (decide (j = i)) as [->|Hji].
        { rewrite list_lookup_insert_eq in Hj by done. done. }
        { rewrite list_lookup_insert_ne in Hj by done. by apply Hsr. }
      * intros rs e [= <- <-]. split; [done|].
        exists node, res, inner. split; [|done].
        by apply list_elem_of_lookup_2 in Hni.
    + (* a result *)
      destruct (Hsr i r Hi) as (node & Hni & Hev).
      split; simpl; try done.
      * by rewrite length_insert.
      * intros j node' Hj. destruct (decide (j = i)) as [->|Hji].
        { rewrite list_lookup_insert_eq in Hj by done. done. }
        { rewrite list_lookup_insert_ne in Hj by done. by apply Hsp. }
      * intros j e Hj. destruct (decide (j = i)) as [->|Hji].
        { rewrite list_lookup_insert_eq in Hj by done. done. }
        { rewrite list_lookup_insert_ne in Hj by done. by apply Hse. }
      * intros j r' Hj. destruct (decide (j = i)) as [->|Hji].
        { rewrite list_lookup_insert_eq in Hj by done. done. }
        { rewrite list_lookup_insert_ne in Hj by done. by apply Hsr. }
      * intros _ j Hj. destruct (decide (j = i)) as [->|Hji].
        { by exists node, r. }
        { rewrite list_lookup_insert_ne in Hj by done. by apply Hex. }
      * intros r' [Hr'|Hr']%elem_of_app; [by apply Hres|].
        apply list_elem_of_singleton in Hr' as ->.
        exists node. split; [|done]. by apply list_elem_of_lookup_2 in Hni.
      * intros _. rewrite length_app. simpl. rewrite Hcnt.
        pose proof (sum_list_with_insert exited (em_goroutines st) i
                      (GSendRes r) GExited Hi) as Hsum.
        simpl in Hsum. lia.
  - (* the main loop returns *)
    destruct (em_returned st) eqn:Hret; [done|].
    destruct (Nat.eqb_spec (length (em_results st)) (length n)) as [Heq|];
      [|done].
    intros [= <-]. split; simpl; try done.
    intros rs [= <-]. done.
Qed.

Lemma EM_inv_runs sched : forall st st',
  Inv st -> runs sched st = Some st' -> Inv st'.
Proof.
  induction sched as [|a sched IH]; intros st st' Hinv; simpl.
  - by intros [= <-].
  - destruct (step a st) as [st1|] eqn:Hstep; simpl; [|done].
    apply IH. by apply (EM_inv_step a st).
Qed.
End ExecuteMany_facts.

Section ExecuteMany_runs.
Variables (env : Env) (n : Nodes) (t : Task) (timeout : list Z).

#[local] Abbreviation step' := (ExecuteMany_step env n t timeout).
#[local] Abbreviation runs' := (ExecuteMany_run env n t timeout).
#[local] Abbreviation Inv' := (EM_inv env n t timeout).
#[local] Abbreviation final' := (EM_final env n t timeout).

(** Every move uses up fuel, so a call makes at most [2 * len(n) + 1]. *)
Lemma step_fuel a st st' : step' a st = Some st' -> EM_fuel st' < EM_fuel st.
Proof.
  unfold EM_fuel. destruct a as [i|i|]; simpl.
  - destruct (em_goroutines st !! i) as [[node| | |]|] eqn:Hi; try done.
    intros [= <-]. simpl.
    pose proof (sum_list_with_insert goroutine_fuel (em_goroutines st) i
                  (GSpawned node)
                  (match snd (env_Execute env (em_trace st) node t timeout) with
                   | Some e => GSendErr (node_error node e)
                   | None => GSendRes (fst (env_Execute env (em_trace st) node t timeout))
                   end) Hi) as Hsum.
    destruct (snd (env_Execute env (em_trace st) node t timeout));
      simpl in Hsum; lia.
  - destruct (em_returned st); [done|].
    destruct (Nat.eqb _ _); [done|].
    destruct (em_goroutines st !! i) as [[node|e|r|]|] eqn:Hi; try done;
      intros [= <-]; simpl.
    + pose proof (sum_list_with_insert goroutine_fuel (em_goroutines st) i
                    (GSendErr e) GExited Hi) as Hsum.
      simpl in Hsum. lia.
    + pose proof (sum_list_with_insert goroutine_fuel (em_goroutines st) i
                    (GSendRes r) GExited Hi) as Hsum.
      simpl in Hsum. lia.
  - destruct (em_returned st); [done|].
    destruct (Nat.eqb _ _); [|done].
    intros [= <-]; simpl. lia.
Qed.

Lemma runs_fuel sched : forall st st',
  runs' sched st = Some st' -> length sched + EM_fuel st' <= EM_fuel st.
Proof.
  induction sched as [|a sched IH]; intros st st'; simpl.
  - intros [= <-]. lia.
  - destruct (step' a st) as [st1|] eqn:Hstep; simpl; [|done].
    intros Hrun. apply IH in Hrun. apply step_fuel in Hstep. lia.
Qed.

Lemma EM_fuel_start : EM_fuel (ExecuteMany_start n) = 2 * length n + 1.
Proof. unfold EM_fuel. simpl. by rewrite sum_fuel_spawned. Qed.

(** Once the call has returned, what it returned stays. *)
Lemma step_returned a st st' ret :
  step' a st = Some st' -> em_returned st = Some ret ->
  em_returned st' = Some ret.
Proof.
  intros Hstep Hret. destruct a as [i|i|]; simpl in Hstep;
    rewrite ?Hret in Hstep; try done.
  destruct (em_goroutines st !! i) as [[node| | |]|]; try done.
  injection Hstep as <-. done.
Qed.

(** Until the call has returned, some move is possible. *)
Lemma step_progress st :
  Inv' st -> em_returned st = None -> exists a st', step' a st = Some st'.
Proof.
  intros Hinv Hret.
  destruct (Nat.eqb_spec (length (em_results st)) (length n)) as [Heq|Hne].
  - exists Leave. simpl. rewrite Hret.
    rewrite (proj2 (Nat.eqb_eq _ _) Heq). eauto.
  - assert (Hlt : sum_list_with exited (em_goroutines st)
                  < length (em_goroutines st)).
    { rewrite <- (inv_count _ _ _ _ _ Hinv Hret).
      rewrite (inv_len _ _ _ _ _ Hinv).
      pose proof (sum_exited_le (em_goroutines st)) as Hle.
      rewrite <- (inv_count _ _ _ _ _ Hinv Hret) in Hle.
      rewrite (inv_len _ _ _ _ _ Hinv) in Hle. lia. }
    destruct (some_not_exited _ Hlt) as (i & g & Hi & Hg).
    destruct g as [node|e|r|]; [| | |done].
    + exists (Run i). simpl. rewrite Hi. eauto.
    + exists (Recv i). simpl. rewrite Hret, Hi.
      rewrite (proj2 (Nat.eqb_neq _ _) Hne). eauto.
    + exists (Recv i). simpl. rewrite Hret, Hi.
      rewrite (proj2 (Nat.eqb_neq _ _) Hne). eauto.
Qed.

Lemma final_returned st :
  Inv' st -> final' st -> exists ret, em_returned st = Some ret.
Proof.
  intros Hinv Hfinal. destruct (em_returned st) as [ret|] eqn:Hret; [eauto|].
  destruct (step_progress st Hinv Hret) as (a & st' & Hstep).
  by rewrite Hfinal in Hstep.
Qed.

Lemma spawned_or_not (gs : list goroutine) :
  (exists i node, gs !! i = Some (GSpawned node)) \/
  (forall i node, gs !! i <> Some (GSpawned node)).
Proof.
  induction gs as [|g gs [(i & node & Hi)|Hnone]].
  - right. intros i node. by rewrite lookup_nil.
  - left. by exists (S i), node.
  - destruct g as [node| | |]; [left; by exists 0, node|..];
      right; intros [|i] node'; simpl; try done; apply Hnone.
Qed.

Lemma step_or_final st :
  Inv' st -> (exists a st', step' a st = Some st') \/ final' st.
Proof.
  intros Hinv. destruct (em_returned st) as [ret|] eqn:Hret.
  - destruct (spawned_or_not (em_goroutines st)) as [(i & node & Hi)|Hnone].
    + left. exists (Run i). simpl. rewrite Hi. eauto.
    + right. intros [i|i|]; simpl; rewrite ?Hret; try done.
      destruct (em_goroutines st !! i) as [[node| | |]|] eqn:Hi; try done.
      by apply Hnone in Hi.
  - left. by apply step_progress.
Qed.

(** Every state of a call can be run to the end. *)
Lemma runs_complete m : forall st,
  EM_fuel st <= m -> Inv' st ->
  exists sched st', runs' sched st = Some st' /\ final' st'.
Proof.
  induction m as [|m IH]; intros st Hm Hinv.
  - destruct (step_or_final st Hinv) as [(a & st' & Hstep)|Hfinal].
    + apply step_fuel in Hstep. lia.
    + by exists [], st.
  - destruct (step_or_final st Hinv) as [(a & st1 & Hstep)|Hfinal].
    + destruct (IH st1) as (sched & st' & Hrun & Hfinal).
      * apply step_fuel in Hstep. lia.
      * by apply (EM_inv_step env n t timeout a st).
      * exists (a :: sched), st'. simpl. rewrite Hstep. simpl. done.
    + by exists [], st.
Qed.

Lemma ExecuteMany_inv sched st :
  ExecuteMany env n t timeout sched = Some st -> Inv' st.
Proof. apply EM_inv_runs, EM_inv_start. Qed.

Lemma ExecuteMany_bounded sched st :
  ExecuteMany env n t timeout sched = Some st ->
  length sched <= 2 * length n + 1.
Proof.
  intros Hrun. apply runs_fuel in Hrun. rewrite EM_fuel_start in Hrun. lia.
Qed.

Lemma ExecuteMany_completes :
  exists sched st, ExecuteMany env n t timeout sched = Some st /\ final' st.
Proof.
  apply (runs_complete (EM_fuel (ExecuteMany_start n))); [done|].
  apply EM_inv_start.
Qed.

(** An event of the trace is an answer of [Execute]. *)
Lemma trace_answer st node res err :
  Inv' st -> EvExecute node t timeout res err ∈ em_trace st ->
  exists h, node ∈ n /\ env_Execute env h node t timeout = (res, err).
Proof.
  intros Hinv Hev.
  destruct (inv_trace _ _ _ _ _ Hinv _ Hev) as (h & node' & Hn & Heq).
  injection Heq as <- -> ->. exists h. split; [done|].
  by destruct (env_Execute env h node t timeout).
Qed.
End ExecuteMany_runs.

Lemma contains_node_name (node : Node) (inner : error) :
  contains (Node.Name node) (node_error node inner).
Proof. by exists "node ", (" error: " +:+ inner). Qed.

(** C6. When every call of [Execute] on a node of the list succeeds,
    [ExecuteMany] returns: every schedule of its goroutines makes at most
    [2 * N + 1] moves, can only stop once the call has returned, and what is
    returned is a nil error with a list of exactly [N] results, each one
    returned by [Execute] for a node of the list and so, [Execute] keeping
    the UUID of its task, with the UUID of the submitted task. *)
Theorem ExecuteMany_all_succeed
    (env : Env) (n : Nodes) (t : Task) (timeout : list Z) :
  Execute_keeps_UUID env ->
  (forall h node, node ∈ n -> snd (env_Execute env h node t timeout) = None) ->
  (forall sched st,
      ExecuteMany env n t timeout sched = Some st ->
      length sched <= 2 * length n + 1 /\
      (EM_final env n t timeout st ->
       exists rs, em_returned st = Some (rs, None)) /\
      (forall rs e,
          em_returned st = Some (rs, e) ->
          e = None /\ length rs = length n /\
          forall r, r ∈ rs ->
            Result.UUID r = Task.UUID t /\
            exists node,
              node ∈ n /\ EvExecute node t timeout r None ∈ em_trace st)) /\
  (exists sched st,
      ExecuteMany env n t timeout sched = Some st /\
      EM_final env n t timeout st).
Proof.
  intros Huuid Hok. split; [|apply ExecuteMany_completes].
  intros sched st Hrun.
  assert (Hinv := ExecuteMany_inv env n t timeout sched st Hrun).
  assert (Hret : forall rs e, em_returned st = Some (rs, e) ->
            e = None /\ length rs = length n /\
            forall r, r ∈ rs ->
              Result.UUID r = Task.UUID t /\
              exists node,
                node ∈ n /\ EvExecute node t timeout r None ∈ em_trace st).
  { intros rs [e|] Hret.
    - destruct (inv_ret_err _ _ _ _ _ Hinv rs e Hret)
        as (_ & node & res & inner & Hn & _ & Hev).
      destruct (trace_answer env n t timeout st _ _ _ Hinv Hev) as (h & _ & Hans).
      specialize (Hok h node Hn). by rewrite Hans in Hok.
    - destruct (inv_ret_ok _ _ _ _ _ Hinv rs Hret) as [-> Hlen].
      split; [done|]. split; [done|]. intros r Hr.
      destruct (inv_results _ _ _ _ _ Hinv r Hr) as (node & Hn & Hev).
      split; [|by exists node].
      destruct (trace_answer env n t timeout st _ _ _ Hinv Hev) as (h & _ & Hans).
      specialize (Huuid h node t timeout). rewrite Hans in Huuid.
      by apply Huuid. }
  split; [by apply (ExecuteMany_bounded env n t timeout sched st)|].
  split; [|done].
  intros Hfinal.
  destruct (final_returned env n t timeout st Hinv Hfinal) as [[rs e] Hr].
  destruct (Hret rs e Hr) as [-> _]. by exists rs.
Qed.

Lemma EM_failing_inv_step env n t timeout k bad a st st' :
  n !! k = Some bad ->
  (em_goroutines st !! k = Some (GSpawned bad) ->
   snd (env_Execute env (em_trace st) bad t timeout) <> None) ->
  EM_inv env n t timeout st -> EM_failing_inv n k st ->
  ExecuteMany_step env n t timeout a st = Some st' ->
  EM_failing_inv n k st'.
Proof.
  intros Hk Hbad Hinv [Hlt Hg] Hstep.
  assert (Hinv' := EM_inv_step env n t timeout a st st' Hinv Hstep).
  destruct a as [i|i|]; simpl in Hstep.
  - destruct (em_goroutines st !! i) as [[node| | |]|] eqn:Hi; try done.
    injection Hstep as <-. split; [done|]. simpl. intros Hret.
    destruct (Hg Hret) as (g & Hgk & Hex & Hnr).
    assert (Hil : i < length (em_goroutines st))
      by (eapply lookup_lt_Some; eauto).
    destruct (decide (k = i)) as [->|Hki].
    + rewrite list_lookup_insert_eq by done.
      assert (node = bad) as ->.
      { apply (inv_spawned _ _ _ _ _ Hinv) in Hi. congruence. }
      destruct (snd (env_Execute env (em_trace st) bad t timeout)) as [e|] eqn:He.
      * eexists. split; [done|]. split; [done|]. done.
      * by destruct (Hbad Hi).
    + rewrite list_lookup_insert_ne by done. by exists g.
  - destruct (em_returned st) eqn:Hret; [done|].
    destruct (Nat.eqb _ _); [done|].
    destruct (Hg eq_refl) as (g & Hgk & Hex & Hnr).
    destruct (em_goroutines st !! i) as [[node|e|r|]|] eqn:Hi; try done;
      injection Hstep as <-.
    + split; [done|]. done.
    + assert (Hki : k <> i) by (intros ->; rewrite Hi in Hgk;
                                 injection Hgk as <-; by apply (Hnr r)).
      assert (Hgk' : <[i := GExited]> (em_goroutines st) !! k = Some g)
        by by rewrite list_lookup_insert_ne.
      split; simpl; [|intros _; by exists g].
      pose proof (inv_count _ _ _ _ _ Hinv' eq_refl) as Hcnt. simpl in Hcnt.
      rewrite Hcnt, <- (inv_len _ _ _ _ _ Hinv'). simpl.
      by apply (sum_exited_lt _ k g).
  - destruct (em_returned st) eqn:Hret; [done|].
    destruct (Nat.eqb_spec (length (em_results st)) (length n)); [lia|done].
Qed.

(** It is enough that [Execute] fails on the node where a run can come to
    call it. *)
Lemma EM_failing_inv_runs env n t timeout k bad sched : forall st st',
  n !! k = Some bad ->
  (forall sched1 st1,
      ExecuteMany_run env n t timeout sched1 st = Some st1 ->
      em_goroutines st1 !! k = Some (GSpawned bad) ->
      snd (env_Execute env (em_trace st1) bad t timeout) <> None) ->
  EM_inv env n t timeout st -> EM_failing_inv n k st ->
  ExecuteMany_run env n t timeout sched st = Some st' ->
  EM_failing_inv n k st'.
Proof.
  induction sched as [|a sched IH]; intros st st' Hk Hbad Hinv Hfail; simpl.
  - by intros [= <-].
  - destruct (ExecuteMany_step env n t timeout a st) as [st1|] eqn:Hstep;
      simpl; [|done].
    apply IH; [done| | |].
    + intros sched1 st2 Hrun1. apply (Hbad (a :: sched1)).
      simpl. by rewrite Hstep.
    + by apply (EM_inv_step env n t timeout a st).
    + apply (EM_failing_inv_step env n t timeout k bad a st); [done| |done..].
      apply (Hbad []). done.
Qed.

Lemma EM_failing_inv_start n k bad :
  n !! k = Some bad -> EM_failing_inv n k (ExecuteMany_start n).
Proof.
  intros Hk. split; simpl.
  - apply lookup_lt_Some in Hk. lia.
  - intros _. exists (GSpawned bad). rewrite list_lookup_fmap, Hk. done.
Qed.

(** The trace records each call of [Execute] with the answer given after
    what came before it. *)
Lemma EM_trace_inv_step env n t timeout a st st' :
  EM_inv env n t timeout st -> EM_trace_inv env n t timeout st ->
  ExecuteMany_step env n t timeout a st = Some st' ->
  EM_trace_inv env n t timeout st'.
Proof.
  intros Hinv Htr Hstep.
  destruct a as [i|i|]; simpl in Hstep.
  - destruct (em_goroutines st !! i) as [[node| | |]|] eqn:Hi; try done.
    injection Hstep as <-. intros j ev. simpl. intros Hj.
    apply lookup_app_Some in Hj as [Hj|[Hlen Hj]].
    + rewrite take_app_le by (apply lookup_lt_Some in Hj; lia).
      by apply Htr.
    + apply list_lookup_singleton_Some in Hj as [Hj <-].
      assert (j = length (em_trace st)) as -> by lia.
      rewrite take_app_length. exists node. split; [|done].
      apply (inv_spawned _ _ _ _ _ Hinv) in Hi.
      by apply list_elem_of_lookup_2 in Hi.
  - destruct (em_returned st); [done|].
    destruct (Nat.eqb _ _); [done|].
    destruct (em_goroutines st !! i) as [[node|e|r|]|]; try done;
      injection Hstep as <-; exact Htr.
  - destruct (em_returned st); [done|].
    destruct (Nat.eqb _ _); [|done].
    injection Hstep as <-. exact Htr.
Qed.

Lemma ExecuteMany_trace_inv env n t timeout sched st :
  ExecuteMany env n t timeout sched = Some st ->
  EM_trace_inv env n t timeout st.
Proof.
  unfold ExecuteMany.
  assert (H0 : EM_trace_inv env n t timeout (ExecuteMany_start n))
    by (intros i ev Hi; done).
  assert (Hinv0 := EM_inv_start env n t timeout).
  revert H0 Hinv0. generalize (ExecuteMany_start n).
  induction sched as [|a sched IH]; intros st0 H0 Hinv0; simpl.
  - by intros [= <-].
  - destruct (ExecuteMany_step env n t timeout a st0) as [st1|] eqn:Hstep;
      simpl; [|done].
    apply IH.
    + by apply (EM_trace_inv_step env n t timeout a st0).
    + by apply (EM_inv_step env n t timeout a st0).
Qed.

(** An event of the trace is a call that was made, after the events
    before it, with the answer of [Execute] there. *)
Lemma trace_called env n t timeout st node res err :
  EM_trace_inv env n t timeout st ->
  EvExecute node t timeout res err ∈ em_trace st ->
  exists h,
    env_Execute env h node t timeout = (res, err) /\
    (h ++ [EvExecute node t timeout res err]) `prefix_of` em_trace st.
Proof.
  intros Htr Hev.
  apply list_elem_of_lookup_1 in Hev as [i Hi].
  destruct (Htr i _ Hi) as (node' & _ & Heq).
  injection Heq as <- -> ->.
  exists (take i (em_trace st)). split.
  - by destruct (env_Execute env (take i (em_trace st)) node t timeout).
  - exists (drop (S i) (em_trace st)).
    rewrite <- app_assoc. simpl. symmetry.
    by apply take_drop_middle.
Qed.

(** C7. When [Execute] fails on some node of the list, that is, returns an
    error wherever a run of the call can come to invoke it on that node,
    [ExecuteMany] returns: every schedule of its goroutines makes at most
    [2 * N + 1] moves, can only stop once the call has returned, and what is
    returned, however many results had been collected by then, is nil results
    with an error that is the error [Execute] gave, in this run, on a node of
    the list, wrapped in "node <name> error: ", which contains the name of
    that node. *)
Theorem ExecuteMany_first_error
    (env : Env) (n : Nodes) (t : Task) (timeout : list Z)
    (k : nat) (bad : Node) :
  n !! k = Some bad ->
  (forall sched st,
      ExecuteMany env n t timeout sched = Some st ->
      em_goroutines st !! k = Some (GSpawned bad) ->
      snd (env_Execute env (em_trace st) bad t timeout) <> None) ->
  (forall sched st,
      ExecuteMany env n t timeout sched = Some st ->
      length sched <= 2 * length n + 1 /\
      (EM_final env n t timeout st ->
       exists e, em_returned st = Some ([], Some e)) /\
      (forall rs e,
          em_returned st = Some (rs, e) ->
          rs = [] /\
          exists node res inner h,
            node ∈ n /\
            env_Execute env h node t timeout = (res, Some inner) /\
            (h ++ [EvExecute node t timeout res (Some inner)])
              `prefix_of` em_trace st /\
            e = Some (node_error node inner) /\
            contains (Node.Name node) (node_error node inner))) /\
  (exists sched st,
      ExecuteMany env n t timeout sched = Some st /\
      EM_final env n t timeout st).
Proof.
  intros Hk Hbad. split; [|apply ExecuteMany_completes].
  intros sched st Hrun.
  assert (Hinv := ExecuteMany_inv env n t timeout sched st Hrun).
  assert (Htr := ExecuteMany_trace_inv env n t timeout sched st Hrun).
  assert (Hret : forall rs e, em_returned st = Some (rs, e) ->
            rs = [] /\
            exists node res inner h,
              node ∈ n /\
              env_Execute env h node t timeout = (res, Some inner) /\
              (h ++ [EvExecute node t timeout res (Some inner)])
                `prefix_of` em_trace st /\
              e = Some (node_error node inner) /\
              contains (Node.Name node) (node_error node inner)).
  { intros rs [e|] Hret.
    - destruct (inv_ret_err _ _ _ _ _ Hinv rs e Hret)
        as (-> & node & res & inner & Hn & -> & Hev).
      destruct (trace_called env n t timeout st _ _ _ Htr Hev)
        as (h & Hans & Hpre).
      split; [done|]. exists node, res, inner, h.
      repeat split; try done. apply contains_node_name.
    - exfalso.
      destruct (inv_ret_ok _ _ _ _ _ Hinv rs Hret) as [-> Hlen].
      destruct (EM_failing_inv_runs env n t timeout k bad sched _ st Hk Hbad
                  (EM_inv_start env n t timeout)
                  (EM_failing_inv_start n k bad Hk) Hrun) as [Hlt _].
      lia. }
  split; [by apply (ExecuteMany_bounded env n t timeout sched st)|].
  split; [|done].
  intros Hfinal.
  destruct (final_returned env n t timeout st Hinv Hfinal) as [[rs e] Hr].
  destruct (Hret rs e Hr) as (-> & node & res & inner & h & _ & _ & _ & -> & _).
  by eexists.
Qed.

(** C9. With an empty list of nodes [ExecuteMany] starts no goroutine; the
    one move open to it is the return of the main loop, which gives nil
    results and a nil error; no call of [Execute] is ever made. *)
Theorem ExecuteMany_no_nodes (env : Env) (t : Task) (timeout : list Z) :
  em_goroutines (ExecuteMany_start []) = [] /\
  ExecuteMany env [] t timeout [Leave] = Some (mkEM [] [] (Some ([], None)) []) /\
  EM_final env [] t timeout (mkEM [] [] (Some ([], None)) []) /\
  forall sched st,
    ExecuteMany env [] t timeout sched = Some st ->
    em_trace st = [] /\
    (sched = [] \/ sched = [Leave]) /\
    (forall ret, em_returned st = Some ret -> ret = ([], None)).
Proof.
  split; [done|]. split; [done|]. split.
  { intros [i|i|]; done. }
  intros [|a sched] st; unfold ExecuteMany; simpl.
  - intros [= <-]. split; [done|]. split; [by left|]. done.
  - destruct a as [i|i|]; simpl; try done.
    destruct sched as [|a sched]; simpl.
    + intros [= <-]. split; [done|]. split; [by right|].
      by intros ret [= <-].
    + destruct a as [i|i|]; simpl; done.
Qed.

(** ** Sorting *)

(** *** [bytes.Compare] is a total order on byte slices *)

Lemma byte_to_N_inj (x y : byte) : Byte.to_N x = Byte.to_N y -> x = y.
Proof.
  intros H. assert (Some x = Some y) as [= ->]; [|done].
  by rewrite <- (Byte.of_to_N x), <- (Byte.of_to_N y), H.
Qed.

Lemma bytes_Compare_range a b :
  (bytes_Compare a b = -1 \/ bytes_Compare a b = 0 \/ bytes_Compare a b = 1)%Z.
Proof.
  revert b. induction a as [|x a IH]; intros [|y b]; simpl; auto.
  destruct (N.compare _ _); auto.
Qed.

Lemma bytes_Compare_flip a b : (bytes_Compare b a = - bytes_Compare a b)%Z.
Proof.
  revert b. induction a as [|x a IH]; intros [|y b]; simpl; try done.
  rewrite (N.compare_antisym (Byte.to_N x) (Byte.to_N y)).
  destruct (N.compare (Byte.to_N x) (Byte.to_N y)); simpl; auto.
Qed.

Lemma bytes_Compare_eq a b : bytes_Compare a b = 0%Z <-> a = b.
Proof.
  revert b. induction a as [|x a IH]; intros [|y b]; simpl; try done.
  destruct (N.compare_spec (Byte.to_N x) (Byte.to_N y)) as [Heq|Hlt|Hgt].
  - apply byte_to_N_inj in Heq as ->. rewrite IH. split; congruence.
  - split; [done|]. intros [= -> _]. lia.
  - split; [done|]. intros [= -> _]. lia.
Qed.

Lemma bytes_Compare_le_trans a b c :
  (bytes_Compare a b <= 0 -> bytes_Compare b c <= 0 -> bytes_Compare a c <= 0)%Z.
Proof.
  revert b c. induction a as [|x a IH]; intros [|y b] [|z c]; simpl;
    try lia.
  destruct (N.compare_spec (Byte.to_N x) (Byte.to_N y)) as [Hxy|Hxy|Hxy];
    destruct (N.compare_spec (Byte.to_N y) (Byte.to_N z)) as [Hyz|Hyz|Hyz];
    destruct (N.compare_spec (Byte.to_N x) (Byte.to_N z)) as [Hxz|Hxz|Hxz];
    try lia.
  apply IH.
Qed.

Lemma bytes_Compare_lt_trans a b c :
  (bytes_Compare a b < 0 -> bytes_Compare b c < 0 -> bytes_Compare a c < 0)%Z.
Proof.
  revert b c. induction a as [|x a IH]; intros [|y b] [|z c]; simpl;
    try lia.
  destruct (N.compare_spec (Byte.to_N x) (Byte.to_N y)) as [Hxy|Hxy|Hxy];
    destruct (N.compare_spec (Byte.to_N y) (Byte.to_N z)) as [Hyz|Hyz|Hyz];
    destruct (N.compare_spec (Byte.to_N x) (Byte.to_N z)) as [Hxz|Hxz|Hxz];
    try lia.
  apply IH.
Qed.

Lemma less_IP_false a b : less_IP a b = false <-> (bytes_Compare b a <= 0)%Z.
Proof.
  unfold less_IP. rewrite Z.ltb_ge, (bytes_Compare_flip a b). lia.
Qed.

Lemma less_IP_true a b : less_IP a b = true <-> (bytes_Compare a b < 0)%Z.
Proof. unfold less_IP. apply Z.ltb_lt. Qed.

Lemma less_IP_ok : less_ok less_IP.
Proof.
  split.
  - intros a. apply less_IP_false.
    by rewrite (proj2 (bytes_Compare_eq a a) eq_refl).
  - intros a b c. rewrite !less_IP_true. apply bytes_Compare_lt_trans.
  - intros a b c. rewrite !less_IP_false. intros Hba Hcb.
    by apply bytes_Compare_le_trans with b.
Qed.

Lemma less_ok_on {A B} (f : A -> B) (less : B -> B -> bool) :
  less_ok less -> less_ok (fun a b => less (f a) (f b)).
Proof.
  intros [Hi Ht Hn]. split.
  - intros a. apply Hi.
  - intros a b c. apply Ht.
  - intros a b c. apply Hn.
Qed.

Lemma less_asym {A} (less : A -> A -> bool) a b :
  less_ok less -> less a b = true -> less b a = false.
Proof.
  intros [Hi Ht _] Hab. destruct (less b a) eqn:Hba; [|done].
  by rewrite <- (Hi a), (Ht a b a Hab Hba).
Qed.

(** *** Sortedness, adjacent and pairwise *)

Lemma SliceIsSorted_cons {A} (less : A -> A -> bool) x l :
  SliceIsSorted less (x :: l) ->
  SliceIsSorted less l /\ (forall y, head l = Some y -> less y x = false).
Proof.
  intros H. split.
  - intros i a b Hi Hj. by apply (H (S i) a b).
  - intros y Hy. destruct l as [|y' l]; [done|]. injection Hy as ->.
    by apply (H 0 x y).
Qed.

Lemma SliceIsSorted_pairwise {A} (less : A -> A -> bool) (l : list A) :
  less_ok less -> SliceIsSorted less l ->
  forall i j a b, i <= j -> l !! i = Some a -> l !! j = Some b ->
                  less b a = false.
Proof.
  intros Hok. induction l as [|x l IH]; intros Hs i j a b Hij Hi Hj.
  - by rewrite lookup_nil in Hi.
  - apply SliceIsSorted_cons in Hs as [Hs Hhd].
    destruct i as [|i]; destruct j as [|j]; simpl in *; try lia.
    + injection Hi as <-. injection Hj as <-. apply (less_irrefl _ Hok).
    + injection Hi as <-.
      destruct l as [|y l]; [by rewrite lookup_nil in Hj|].
      apply (less_incomp _ Hok b y x).
      * apply (IH Hs 0 j y b); [lia|done|done].
      * by apply Hhd.
    + apply (IH Hs i j a b); [lia|done|done].
Qed.

(** *** [sort] under the contract of [sort.Slice] *)

Lemma keyed_ok (n : Nodes) :
  Forall has_addr n ->
  exists ks,
    keyed n = Ok ks /\ snd <$> ks = n /\
    Forall (fun p => Addr_IP (snd p) = Ok (fst p)) ks.
Proof.
  induction 1 as [|node rest [a Ha] _ (ks & Hks & Hsnd & Hall)].
  - by exists [].
  - exists ((TCPAddr_IP a, node) :: ks). split; [|split].
    + simpl. unfold Addr_IP at 1. rewrite Ha. simpl. by rewrite Hks.
    + by rewrite fmap_cons, Hsnd.
    + apply Forall_cons. split; [|done]. simpl. unfold Addr_IP. by rewrite Ha.
Qed.

(** C8, as the code has it. Whatever implementation of [sort.Slice] is
    linked in, as long as it does what package [sort] documents, [sort]
    returns the nodes it was given (each with an address), rearranged so
    that addresses never decrease under [bytes.Compare] from a position to a
    later one. Nothing fixes the order of nodes of equal address. *)
Theorem sort_nondecreasing (slice : sorter) (n : Nodes) :
  sort_Slice_contract slice ->
  Forall has_addr n ->
  exists out,
    sort slice n = Ok out /\
    Permutation n out /\
    forall i j a b ipa ipb,
      i <= j -> out !! i = Some a -> out !! j = Some b ->
      Addr_IP a = Ok ipa -> Addr_IP b = Ok ipb ->
      (bytes_Compare ipa ipb <= 0)%Z.
Proof.
  intros Hslice Hall. unfold sort.
  destruct (Nat.leb_spec (length n) 1) as [Hlen|Hlen].
  - exists n. split; [done|]. split; [done|].
    intros i j a b ipa ipb Hij Hi Hj Ha Hb.
    assert (j < length n) by (eapply lookup_lt_Some; eauto).
    assert (i = j) as -> by lia.
    rewrite Hi in Hj. injection Hj as <-. rewrite Ha in Hb. injection Hb as <-.
    by rewrite (proj2 (bytes_Compare_eq ipa ipa) eq_refl).
  - destruct (keyed_ok n Hall) as (ks & -> & Hsnd & Hkeys). simpl.
    set (less := fun a b : IP * Node => less_IP (fst a) (fst b)).
    destruct (Hslice (IP * Node)%type less ks) as [Hperm Hsorted].
    { apply (less_ok_on fst less_IP), less_IP_ok. }
    eexists. split; [done|]. split.
    { rewrite <- Hsnd at 1. by apply fmap_Permutation. }
    intros i j a b ipa ipb Hij Hi Hj Ha Hb.
    rewrite list_lookup_fmap in Hi, Hj.
    destruct (slice _ less ks !! i) as [[ka a']|] eqn:Hi'; [|done].
    destruct (slice _ less ks !! j) as [[kb b']|] eqn:Hj'; [|done].
    simpl in Hi, Hj. injection Hi as ->. injection Hj as ->.
    assert (Hin : forall p, p ∈ slice _ less ks -> Addr_IP (snd p) = Ok (fst p)).
    { intros p Hp. rewrite <- Hperm in Hp.
      by apply (proj1 (Forall_forall _ _) Hkeys). }
    pose proof (Hin _ (list_elem_of_lookup_2 _ _ _ Hi')) as Hka.
    pose proof (Hin _ (list_elem_of_lookup_2 _ _ _ Hj')) as Hkb.
    simpl in Hka, Hkb. rewrite Ha in Hka. rewrite Hb in Hkb.
    injection Hka as ->. injection Hkb as ->.
    apply less_IP_false.
    apply (SliceIsSorted_pairwise less (slice _ less ks)
             (less_ok_on fst less_IP less_IP_ok) Hsorted i j
             (ka, a) (kb, b) Hij Hi' Hj').
Qed.

(** *** [shellInsertionSort] does what [sort.Slice] documents *)

Section shell_insertion.
Context {A : Type} (less : A -> A -> bool).

Lemma swap_Permutation (l : list A) i j : swap l i j ≡ₚ l.
Proof.
  unfold swap.
  destruct (l !! i) as [a|] eqn:Hi; [|done].
  destruct (l !! j) as [b|] eqn:Hj; [|done].
  by apply Permutation_insert_swap.
Qed.

Lemma sift_Permutation j : forall l : list A, sift less l j ≡ₚ l.
Proof.
  induction j as [|j IH]; intros l; simpl; [done|].
  destruct (l !! S j) as [x|]; [|done].
  destruct (l !! j) as [y|]; [|done].
  destruct (less x y); [|done].
  by rewrite IH, swap_Permutation.
Qed.

Lemma foldl_Permutation (f : list A -> nat -> list A) (idx : list nat) :
  (forall l i, f l i ≡ₚ l) -> forall l, foldl f l idx ≡ₚ l.
Proof.
  intros Hf. induction idx as [|i idx IH]; intros l; simpl; [done|].
  by rewrite IH, Hf.
Qed.

Lemma gap_step_Permutation (l : list A) i : gap_step less l i ≡ₚ l.
Proof.
  unfold gap_step.
  destruct (l !! i) as [x|]; [|done].
  destruct (l !! (i - 6)) as [y|]; [|done].
  destruct (less x y); [|done].
  apply swap_Permutation.
Qed.

Lemma shellInsertionSort_Permutation (l : list A) :
  l ≡ₚ shellInsertionSort A less l.
Proof.
  unfold shellInsertionSort, insertionSort, shellPass.
  destruct (Nat.leb _ _); [done|].
  rewrite (foldl_Permutation (sift less)) by (intros; apply sift_Permutation).
  by rewrite (foldl_Permutation (gap_step less))
    by (intros; apply gap_step_Permutation).
Qed.

(** One turn of the inner loop of the insertion sort. *)
Lemma sift_step (p : list A) y x post :
  sift less (p ++ y :: x :: post) (S (length p))
  = if less x y then sift less (p ++ x :: y :: post) (length p)
    else p ++ y :: x :: post.
Proof.
  simpl.
  assert (Hx : (p ++ y :: x :: post) !! S (length p) = Some x).
  { rewrite lookup_app_r by lia.
    by replace (S (length p) - length p) with 1 by lia. }
  assert (Hy : (p ++ y :: x :: post) !! length p = Some y)
    by by apply list_lookup_middle.
  rewrite Hx, Hy. destruct (less x y); [|done].
  f_equal. unfold swap. rewrite Hx, Hy.
  rewrite (insert_app_r_alt p _ (length p)) by lia.
  rewrite Nat.sub_diag. simpl.
  rewrite (insert_app_r_alt p _ (S (length p))) by lia.
  by replace (S (length p) - length p) with 1 by lia.
Qed.

(** The inner loop inserts the element that follows a prefix into it. *)
Lemma sift_ins_rev x (rpre : list A) : forall post,
  sift less (reverse rpre ++ x :: post) (length rpre)
  = reverse (ins_rev less x rpre) ++ post.
Proof.
  induction rpre as [|y r IH]; intros post; [done|].
  cbn [length ins_rev]. rewrite reverse_cons, <- app_assoc.
  change ([y] ++ x :: post) with (y :: x :: post).
  rewrite <- (length_reverse r), sift_step, (length_reverse r), IH.
  destruct (less x y).
  - by rewrite reverse_cons, <- app_assoc.
  - by rewrite !reverse_cons, <- !app_assoc.
Qed.

Lemma length_ins_rev x (r : list A) : length (ins_rev less x r) = S (length r).
Proof.
  induction r as [|y r IH]; simpl; [done|].
  destruct (less x y); simpl; by rewrite ?IH.
Qed.

Lemma length_foldl_ins (l : list A) : forall acc,
  length (foldl (fun r x => ins_rev less x r) acc l) = length acc + length l.
Proof.
  induction l as [|x l IH]; intros acc; simpl; [lia|].
  rewrite IH, length_ins_rev. lia.
Qed.

(** The outer loop, after [k] turns. *)
Lemma foldl_sift (l : list A) k :
  S k <= length l ->
  foldl (sift less) l (seq 1 k)
  = reverse (foldl (fun r x => ins_rev less x r) [] (take (S k) l))
    ++ drop (S k) l.
Proof.
  induction k as [|k IH]; intros Hk.
  - destruct l as [|x l]; simpl in *; [lia|]. by rewrite drop_0.
  - rewrite seq_S, foldl_app, IH by lia. cbn [foldl].
    change (1 + k) with (S k).
    destruct (lookup_lt_is_Some_2 l (S k)) as [x Hx]; [lia|].
    rewrite (drop_S l x (S k) Hx), (take_S_r l (S k) x Hx), foldl_app.
    cbn [foldl].
    set (R := foldl (fun r x => ins_rev less x r) [] (take (S k) l)).
    assert (HR : length R = S k).
    { unfold R. rewrite length_foldl_ins, length_take.
      cbn [length]. lia. }
    rewrite <- HR. apply sift_ins_rev.
Qed.

Lemma insertionSort_ins_rev (l : list A) :
  insertionSort less l = reverse (foldl (fun r x => ins_rev less x r) [] l).
Proof.
  unfold insertionSort. destruct l as [|x l]; [done|].
  rewrite foldl_sift by (simpl; lia).
  replace (S (length (x :: l) - 1)) with (length (x :: l)) by (simpl; lia).
  by rewrite firstn_all, drop_all, app_nil_r.
Qed.

Hypothesis Hless : less_ok less.

Lemma ins_rev_elem x (r : list A) e :
  e ∈ ins_rev less x r -> e = x \/ e ∈ r.
Proof.
  induction r as [|y r IH]; simpl.
  - intros ->%list_elem_of_singleton. by left.
  - destruct (less x y).
    + intros [->|He]%elem_of_cons; [right; by left|].
      destruct (IH He) as [->|Hr]; [by left|right; by right].
    + intros [->|He]%elem_of_cons; [by left|by right].
Qed.

Lemma ins_rev_sorted x (r : list A) :
  StronglySorted (flip (not_less less)) r ->
  StronglySorted (flip (not_less less)) (ins_rev less x r).
Proof.
  induction r as [|y r IH]; simpl; intros Hr.
  - repeat constructor.
  - apply StronglySorted_cons in Hr as [Hy Hr].
    destruct (less x y) eqn:Hxy.
    + apply StronglySorted_cons. split; [|by apply IH].
      apply Forall_forall. intros e [->|He]%ins_rev_elem.
      * unfold flip, not_less. by apply less_asym.
      * by apply (proj1 (Forall_forall _ _) Hy).
    + apply StronglySorted_cons. split.
      * apply Forall_cons. split; [done|].
        apply Forall_forall. intros e He. unfold flip, not_less.
        apply (less_incomp _ Hless x y e); [done|].
        by apply (proj1 (Forall_forall _ _) Hy).
      * by apply StronglySorted_cons.
Qed.

Lemma foldl_ins_sorted (l : list A) : forall acc,
  StronglySorted (flip (not_less less)) acc ->
  StronglySorted (flip (not_less less))
    (foldl (fun r x => ins_rev less x r) acc l).
Proof.
  induction l as [|x l IH]; intros acc Hacc; simpl; [done|].
  by apply IH, ins_rev_sorted.
Qed.

Lemma reverse_sorted (r : list A) :
  StronglySorted (flip (not_less less)) r ->
  StronglySorted (not_less less) (reverse r).
Proof.
  induction r as [|y r IH]; intros Hr; [constructor|].
  apply StronglySorted_cons in Hr as [Hy Hr].
  rewrite reverse_cons. apply StronglySorted_app.
  split; [|split; [by apply IH|repeat constructor]].
  intros x1 x2 Hx1 ->%list_elem_of_singleton.
  apply (proj1 (elem_of_reverse _ _)) in Hx1.
  by apply (proj1 (Forall_forall _ _) Hy).
Qed.

Lemma StronglySorted_SliceIsSorted (l : list A) :
  StronglySorted (not_less less) l -> SliceIsSorted less l.
Proof.
  induction l as [|x l IH]; intros Hl i a b Hi Hj.
  - by rewrite lookup_nil in Hi.
  - apply StronglySorted_cons in Hl as [Hx Hl].
    destruct i as [|i]; simpl in *.
    + injection Hi as <-.
      apply list_elem_of_lookup_2 in Hj.
      by apply (proj1 (Forall_forall _ _) Hx).
    + by apply (IH Hl i).
Qed.

Lemma shellInsertionSort_sorted (l : list A) :
  SliceIsSorted less (shellInsertionSort A less l).
Proof.
  unfold shellInsertionSort.
  destruct (Nat.leb_spec (length l) 1) as [Hlen|Hlen].
  - intros i a b Hi Hj. apply lookup_lt_Some in Hj. lia.
  - rewrite insertionSort_ins_rev.
    apply StronglySorted_SliceIsSorted, reverse_sorted, foldl_ins_sorted.
    constructor.
Qed.
End shell_insertion.

Lemma shellInsertionSort_contract : sort_Slice_contract shellInsertionSort.
Proof.
  intros A less l Hless. split.
  - apply shellInsertionSort_Permutation.
  - by apply shellInsertionSort_sorted.
Qed.

(** The routine of Go 1.18 on [seven_nodes]: the pass at distance six
    swaps "g" with "first", which the insertion sort then leaves behind
    "second". *)
Lemma sort_not_stable :
  sort_Slice_contract shellInsertionSort /\
  Forall has_addr seven_nodes /\
  sort shellInsertionSort seven_nodes = Ok seven_nodes_sorted /\
  ~ stable_by_IP seven_nodes seven_nodes_sorted.
Proof.
  split; [apply shellInsertionSort_contract|].
  split; [repeat constructor; by eexists|].
  split; [by vm_compute|].
  intros H. specialize (H (ip4 x0a x00 x00 x02)). vm_compute in H.
  discriminate H.
Qed.

(** ** The properties at sample values *)

Lemma scenario_has_addr : Forall has_addr scenario.
Proof. repeat constructor; by eexists. Defined.

Example scenario_registry :
  upserts (Server_empty StatusIDLE) scenario
  = Ok (Server.mk [node_B; node_C] StatusIDLE).
Proof. reflexivity. Qed.

(** A node without an address can be appended to an empty registry, and
    makes the scan of the next call panic. *)
Example upserts_nil_Addr :
  upserts (Server_empty StatusIDLE) [Node_zero]
  = Ok (Server.mk [Node_zero] StatusIDLE) /\
  upserts (Server_empty StatusIDLE) [Node_zero; node_A] = Panic.
Proof. split; reflexivity. Qed.

Lemma updateNode_one_entry_per_IP_witness :
  Forall has_addr scenario /\
  exists s,
    upserts (Server_empty StatusIDLE) scenario = Ok s /\
    distinct_IPs (Server.nodes s) /\
    forall node2, has_addr node2 ->
      exists s',
        updateNode s node2 = Ok s' /\
        distinct_IPs (Server.nodes s') /\
        (forall i old,
            Server.nodes s !! i = Some old -> Equals old node2 = Ok true ->
            Server.nodes s' = <[i := node2]> (Server.nodes s) /\
            Server.nodes s' !! i = Some node2 /\
            length (Server.nodes s') = length (Server.nodes s) /\
            forall j, j <> i -> Server.nodes s' !! j = Server.nodes s !! j) /\
        ((forall old, old ∈ Server.nodes s -> Equals old node2 = Ok false) ->
         Server.nodes s' = Server.nodes s ++ [node2]).
Proof.
  split; [exact scenario_has_addr|].
  apply (updateNode_one_entry_per_IP StatusIDLE scenario).
  exact scenario_has_addr.
Defined.

Lemma find_most_recent_upsert_witness :
  Forall has_addr scenario /\
  exists s,
    upserts (Server_empty StatusIDLE) scenario = Ok s /\
    forall addr : IP,
      find (Server.nodes s) addr
      = Ok (default Node_zero (last_upserted addr scenario)).
Proof.
  split; [exact scenario_has_addr|].
  apply (find_most_recent_upsert StatusIDLE scenario).
  exact scenario_has_addr.
Defined.

Example scenario_find :
  find [node_B; node_C] (ip4 x0a x00 x00 x01) = Ok node_B /\
  find [node_B; node_C] (v4InV6Prefix ++ ip4 x0a x00 x00 x02) = Ok node_C /\
  find [node_B; node_C] (ip4 x0a x00 x00 x03) = Ok Node_zero.
Proof. repeat split. Qed.

Lemma jobTransferCallback_empty_payload_witness :
  Message.Data msg_empty = [] /\
  (exists errMsg serr,
      EvSend (Some 1)
        (Message_of OperationTransferFailed (bytes_of_string errMsg)) serr
        ∈ events_of (jobTransferCallback (Some 1) msg_empty)
            (env_with None None None) world0 /\
      (errMsg = "empty data field" \/
       EvCreateFolder ".beekeeper" (Some errMsg)
         ∈ events_of (jobTransferCallback (Some 1) msg_empty)
             (env_with None None None) world0)) /\
  (forall c m serr,
      EvSend c m serr
        ∈ events_of (jobTransferCallback (Some 1) msg_empty)
            (env_with None None None) world0 ->
      c = Some 1 /\ Message.Operation m = OperationTransferFailed) /\
  (forall path data err,
      EvSaveBinary path data err
        ∉ events_of (jobTransferCallback (Some 1) msg_empty)
            (env_with None None None) world0) /\
  server (run (jobTransferCallback (Some 1) msg_empty)
            (env_with None None None) world0)
  = server world0.
Proof.
  split; [reflexivity|].
  apply (jobTransferCallback_empty_payload
           (env_with None None None) world0 (Some 1) msg_empty).
  reflexivity.
Defined.

Example run_empty_payload :
  events_of (jobTransferCallback (Some 1) msg_empty)
    (env_with None None None) world0
  = [EvLog Infoln ["Starting job transfer from node"; "A"];
     EvCreateFolder ".beekeeper" None;
     EvLog Errorln ["Unable to save job data: empty data field"];
     EvSend (Some 1)
       (Message_of OperationTransferFailed (bytes_of_string "empty data field"))
       None].
Proof. reflexivity. Qed.

Example run_failed_job :
  events_of (jobExecuteCallback (Some 1) msg_execute)
    (env_with None (Some "exit status 1") None) world0
  = [EvDecodeTask [x01; x02] (Task.mk "task-1" [x01; x02]) None;
     EvLog Infoln ["Executing task"; "task-1"; "for node"; "A"];
     EvStatus StatusWorking;
     EvRunLocalJob (Task.mk "task-1" [x01; x02]) (Result.mk "" "")
       (Some "exit status 1");
     EvLog Errorln ["Unable to run job: exit status 1"];
     EvLog Infoln ["Ran task"; "task-1"; "successfully"];
     EvStatus StatusIDLE;
     EvEncode (Result.mk "task-1" "Unable to run job: exit status 1")
       (bytes_of_string "task-1") None;
     EvSend (Some 1)
       (Message_of OperationJobResult (bytes_of_string "task-1")) None].
Proof. reflexivity. Qed.

Lemma jobExecuteCallback_failed_job_witness :
  env_decodeTask (env_with None (Some "exit status 1") None) (trace world0)
    (Message.Data msg_execute)
  = (sample_task, None) /\
  env_runLocalJob (env_with None (Some "exit status 1") None)
    (trace world0
     ++ [EvDecodeTask (Message.Data msg_execute) sample_task None;
         EvLog Infoln
           ["Executing task"; Task.UUID sample_task; "for node";
            Message.Name msg_execute];
         EvStatus StatusWorking])
    sample_task
  = (Result.mk "" "", Some "exit status 1") /\
  exists res : Result,
    Result.UUID res = "task-1" /\
    Result.Error res = "Unable to run job: exit status 1" /\
    (exists b berr,
        EvEncode res b berr
          ∈ events_of (jobExecuteCallback (Some 1) msg_execute)
              (env_with None (Some "exit status 1") None) world0) /\
    status_writes
      (events_of (jobExecuteCallback (Some 1) msg_execute)
         (env_with None (Some "exit status 1") None) world0)
    = [StatusWorking; StatusIDLE] /\
    Server.Status
      (server (run (jobExecuteCallback (Some 1) msg_execute)
                 (env_with None (Some "exit status 1") None) world0))
    = StatusIDLE.
Proof.
  split; [reflexivity|]. split; [reflexivity|].
  destruct (jobExecuteCallback_failed_job
              (env_with None (Some "exit status 1") None) world0 (Some 1)
              msg_execute sample_task (Result.mk "" "") "exit status 1"
              eq_refl eq_refl)
    as (res & Huuid & Herr & _ & Henc & _ & _ & _ & Hwrites & Hidle & _).
  exists res. split; [exact Huuid|]. split; [exact Herr|].
  split; [exact Henc|]. split; [exact Hwrites|exact Hidle].
Defined.

Example run_undecodable :
  events_of (jobExecuteCallback (Some 1) msg_execute)
    (env_with (Some "unexpected EOF") None None) world0
  = [EvDecodeTask [x01; x02] (Task.mk "" []) (Some "unexpected EOF");
     EvLog Errorln ["Unable to read task data:"; "unexpected EOF"]].
Proof. reflexivity. Qed.

Lemma jobExecuteCallback_undecodable_no_reply_witness :
  EvDecodeTask (Message.Data msg_execute) (Task.mk "" [])
    (Some "unexpected EOF")
    ∈ events_of (jobExecuteCallback (Some 1) msg_execute)
        (env_with (Some "unexpected EOF") None None) world0 /\
  (forall c m serr,
      EvSend c m serr
        ∉ events_of (jobExecuteCallback (Some 1) msg_execute)
            (env_with (Some "unexpected EOF") None None) world0) /\
  exists line,
    events_of (jobExecuteCallback (Some 1) msg_execute)
      (env_with (Some "unexpected EOF") None None) world0
    = [EvDecodeTask (Message.Data msg_execute) (Task.mk "" [])
         (Some "unexpected EOF");
       EvLog Errorln line].
Proof.
  assert (Hdec :
    EvDecodeTask (Message.Data msg_execute) (Task.mk "" [])
      (Some "unexpected EOF")
      ∈ events_of (jobExecuteCallback (Some 1) msg_execute)
          (env_with (Some "unexpected EOF") None None) world0).
  { rewrite run_undecodable. in_list. }
  split; [exact Hdec|].
  exact (jobExecuteCallback_undecodable_no_reply
           (env_with (Some "unexpected EOF") None None) world0 (Some 1)
           msg_execute _ _ Hdec).
Defined.

Lemma jobExecuteCallback_undecodable_status_witness :
  EvDecodeTask (Message.Data msg_execute) (Task.mk "" [])
    (Some "unexpected EOF")
    ∈ events_of (jobExecuteCallback (Some 1) msg_execute)
        (env_with (Some "unexpected EOF") None None)
        (mkWorld (Server.mk [node_A] StatusIDLE) []) /\
  server (run (jobExecuteCallback (Some 1) msg_execute)
            (env_with (Some "unexpected EOF") None None)
            (mkWorld (Server.mk [node_A] StatusIDLE) []))
  = Server.mk [node_A] StatusIDLE /\
  status_writes
    (events_of (jobExecuteCallback (Some 1) msg_execute)
       (env_with (Some "unexpected EOF") None None)
       (mkWorld (Server.mk [node_A] StatusIDLE) [])) = [].
Proof.
  assert (Hdec :
    EvDecodeTask (Message.Data msg_execute) (Task.mk "" [])
      (Some "unexpected EOF")
      ∈ events_of (jobExecuteCallback (Some 1) msg_execute)
          (env_with (Some "unexpected EOF") None None)
          (mkWorld (Server.mk [node_A] StatusIDLE) [])).
  { apply list_elem_of_here. }
  split; [exact Hdec|].
  destruct (jobExecuteCallback_undecodable_status
              (env_with (Some "unexpected EOF") None None)
              (mkWorld (Server.mk [node_A] StatusIDLE) []) (Some 1)
              msg_execute _ _ Hdec)
    as (Hserver & _ & Hwrites & _).
  split; [exact Hserver|exact Hwrites].
Defined.

(** Two nodes, both succeeding; the results arrive in the order C, A. *)
Example schedule_all_succeed :
  em_returned <$>
    ExecuteMany (env_with None None None) [node_A; node_C] sample_task []
      [Run 0; Run 1; Recv 1; Recv 0; Leave]
  = Some (Some ([Result.mk "task-1" ""; Result.mk "task-1" ""], None)).
Proof. reflexivity. Qed.

Lemma env_with_keeps_UUID decode_err job_err fail_node :
  Execute_keeps_UUID (env_with decode_err job_err fail_node).
Proof.
  intros h node t timeout. simpl.
  destruct (bool_decide _); simpl; [discriminate|reflexivity].
Defined.

Lemma ExecuteMany_all_succeed_witness :
  Execute_keeps_UUID (env_with None None None) /\
  (forall h node, node ∈ [node_A; node_C] ->
     snd (env_Execute (env_with None None None) h node sample_task []) = None) /\
  forall sched st,
    ExecuteMany (env_with None None None) [node_A; node_C] sample_task [] sched
    = Some st ->
    forall rs e,
      em_returned st = Some (rs, e) ->
      e = None /\ length rs = 2 /\
      forall r, r ∈ rs -> Result.UUID r = "task-1".
Proof.
  assert (Hok : forall h node, node ∈ [node_A; node_C] ->
     snd (env_Execute (env_with None None None) h node sample_task []) = None).
  { intros h node _. reflexivity. }
  split; [apply env_with_keeps_UUID|]. split; [exact Hok|].
  intros sched st Hrun rs e Hret.
  destruct (ExecuteMany_all_succeed (env_with None None None)
              [node_A; node_C] sample_task []
              (env_with_keeps_UUID None None None) Hok) as [Hall _].
  destruct (Hall sched st Hrun) as (_ & _ & Hres).
  destruct (Hres rs e Hret) as (He & Hlen & Hr).
  split; [exact He|]. split; [exact Hlen|].
  intros r Hin. exact (proj1 (Hr r Hin)).
Defined.

(** Three nodes, C failing after A has already delivered its result. *)
Example schedule_first_error :
  em_returned <$>
    ExecuteMany (env_with None None (Some "C")) [node_A; node_C; node_B]
      sample_task [] [Run 0; Recv 0; Run 1; Run 2; Recv 1]
  = Some (Some ([], Some "node C error: connection refused")).
Proof. reflexivity. Qed.

Lemma ExecuteMany_first_error_witness :
  [node_A; node_C; node_B] !! 1 = Some node_C /\
  (forall sched st,
     ExecuteMany (env_with None None (Some "C")) [node_A; node_C; node_B]
       sample_task [] sched = Some st ->
     em_goroutines st !! 1 = Some (GSpawned node_C) ->
     snd (env_Execute (env_with None None (Some "C")) (em_trace st) node_C
            sample_task [])
     <> None) /\
  forall sched st,
    ExecuteMany (env_with None None (Some "C")) [node_A; node_C; node_B]
      sample_task [] sched = Some st ->
    forall rs e,
      em_returned st = Some (rs, e) ->
      rs = [] /\
      exists node res inner h,
        node ∈ [node_A; node_C; node_B] /\
        env_Execute (env_with None None (Some "C")) h node sample_task []
        = (res, Some inner) /\
        (h ++ [EvExecute node sample_task [] res (Some inner)])
          `prefix_of` em_trace st /\
        e = Some (node_error node inner) /\
        contains (Node.Name node) (node_error node inner).
Proof.
  assert (Hbad : forall sched st,
     ExecuteMany (env_with None None (Some "C")) [node_A; node_C; node_B]
       sample_task [] sched = Some st ->
     em_goroutines st !! 1 = Some (GSpawned node_C) ->
     snd (env_Execute (env_with None None (Some "C")) (em_trace st) node_C
            sample_task [])
     <> None).
  { intros sched st _ _. simpl. discriminate. }
  split; [reflexivity|]. split; [exact Hbad|].
  intros sched st Hrun.
  destruct (ExecuteMany_first_error (env_with None None (Some "C"))
              [node_A; node_C; node_B] sample_task [] 1 node_C
              eq_refl Hbad) as [Hall _].
  exact (proj2 (proj2 (Hall sched st Hrun))).
Defined.

Lemma sort_nondecreasing_witness :
  sort_Slice_contract shellInsertionSort /\
  Forall has_addr seven_nodes /\
  exists out,
    sort shellInsertionSort seven_nodes = Ok out /\
    Permutation seven_nodes out /\
    forall i j a b ipa ipb,
      i <= j -> out !! i = Some a -> out !! j = Some b ->
      Addr_IP a = Ok ipa -> Addr_IP b = Ok ipb ->
      (bytes_Compare ipa ipb <= 0)%Z.
Proof.
  assert (Hall : Forall has_addr seven_nodes)
    by (repeat constructor; by eexists).
  split; [exact shellInsertionSort_contract|]. split; [exact Hall|].
  exact (sort_nondecreasing shellInsertionSort seven_nodes
           shellInsertionSort_contract Hall).
Defined.

(** * Further properties of the code *)

(** ** [Equals], [find] and [updateNode] *)

(** X1. [Equals] looks at nothing but the IP bytes of the two addresses
    (port, zone, name, status, connection do not matter), gives the same
    answer in both directions, and on nodes that carry an address it is
    reflexive and transitive. *)
Theorem Equals_equivalence :
  (forall n w n' w',
      node_IP n = node_IP n' -> node_IP w = node_IP w' ->
      Equals n w = Equals n' w') /\
  (forall n w, Equals n w = Equals w n) /\
  (forall n, has_addr n -> Equals n n = Ok true) /\
  (forall a b c,
      Equals a b = Ok true -> Equals b c = Ok true -> Equals a c = Ok true).
Proof.
  split; [|split; [|split]].
  - intros n w n' w'. unfold node_IP, Equals, Addr_IP.
    destruct (Node.Addr n), (Node.Addr n'), (Node.Addr w), (Node.Addr w');
      simpl; intros H1 H2; simplify_eq/=; congruence.
  - intros n w. unfold Equals, Addr_IP.
    destruct (Node.Addr n), (Node.Addr w); simpl; try done.
    by rewrite IP_Equal_sym.
  - intros n [a Ha]. by rewrite (Equals_addr n n a a Ha Ha), IP_Equal_refl.
  - apply Equals_true_trans.
Qed.

Lemma has_IP_dec addr node : has_addr node -> has_IP addr node \/ ~ has_IP addr node.
Proof.
  intros [a Ha]. destruct (IP_Equal (TCPAddr_IP a) addr) eqn:Heq.
  - left. by exists a.
  - right. intros (a' & Ha' & Heq'). congruence.
Qed.

Lemma find_cons node rest addr a :
  Node.Addr node = Some a ->
  find (node :: rest) addr
  = if IP_Equal (TCPAddr_IP a) addr then Ok node else find rest addr.
Proof. intros Ha. simpl. unfold Addr_IP. by rewrite Ha. Qed.

Lemma find_cases (n : Nodes) (addr : IP) :
  Forall has_addr n ->
  (exists i node,
      find n addr = Ok node /\ n !! i = Some node /\ has_IP addr node /\
      forall j m, j < i -> n !! j = Some m -> ~ has_IP addr m)
  \/ (find n addr = Ok Node_zero /\ forall m, m ∈ n -> ~ has_IP addr m).
Proof.
  induction 1 as [|node rest [a Ha] _ IH].
  - right. split; [done|]. intros m Hm. by apply elem_of_nil in Hm.
  - rewrite (find_cons node rest addr a Ha).
    destruct (IP_Equal (TCPAddr_IP a) addr) eqn:Heq.
    + left. exists 0, node. split; [done|]. split; [done|].
      split; [by exists a|]. intros j m Hj. lia.
    + assert (Hnot : ~ has_IP addr node).
      { intros (a' & Ha' & Heq'). congruence. }
      destruct IH as [(i & m & Hfind & Hi & Hm & Hbefore)|[Hfind Hnone]].
      * left. exists (S i), m. split; [done|]. split; [done|].
        split; [done|]. intros [|j] m' Hj Hm'; simpl in Hm'.
        { by injection Hm' as <-. }
        { apply (Hbefore j); [lia|done]. }
      * right. split; [done|]. intros m [->|Hm]%elem_of_cons; [done|].
        by apply Hnone.
Qed.

(** X2. On a list of nodes that carry an address, [find] returns the first
    node (lowest index) whose IP equals the argument, and the zero-value
    [Node] when there is none. *)
Theorem find_first_match (n : Nodes) (addr : IP) :
  Forall has_addr n ->
  (exists i node,
      find n addr = Ok node /\ n !! i = Some node /\ has_IP addr node /\
      forall j m, j < i -> n !! j = Some m -> ~ has_IP addr m)
  \/ (find n addr = Ok Node_zero /\ forall m, m ∈ n -> ~ has_IP addr m).
Proof. apply find_cases. Qed.

Lemma find_total (n : Nodes) (addr : IP) :
  Forall has_addr n -> exists x, find n addr = Ok x.
Proof.
  intros Hall.
  destruct (find_cases n addr Hall) as [(i & node & Hfind & _)|[Hfind _]];
    eauto.
Qed.

Lemma Node_zero_no_addr : ~ has_addr Node_zero.
Proof. intros [a Ha]. discriminate Ha. Qed.

(** X3. On a list of nodes that carry an address the sentinel is not
    ambiguous: [find] returns the zero-value [Node] exactly when no node of
    the list has the IP, and what it returns otherwise is a node of the list
    with that IP. *)
Theorem find_sentinel (n : Nodes) (addr : IP) :
  Forall has_addr n ->
  exists node,
    find n addr = Ok node /\
    (node = Node_zero <-> forall m, m ∈ n -> ~ has_IP addr m) /\
    (node <> Node_zero -> node ∈ n /\ has_IP addr node).
Proof.
  intros Hall.
  destruct (find_cases n addr Hall)
    as [(i & node & Hfind & Hi & Hnode & _)|[Hfind Hnone]].
  - exists node. split; [done|].
    assert (Hin : node ∈ n) by by apply list_elem_of_lookup_2 in Hi.
    split; [split|done].
    + intros ->. destruct Hnode as (a & Ha & _). discriminate Ha.
    + intros Hnone. by apply Hnone in Hnode.
  - exists Node_zero. split; [done|]. split; [done|]. done.
Qed.

(** X4. Insert then look up: after [updateNode] of a node with an address
    into a registry of nodes with addresses, [find] of that node's IP returns
    the node, and [find] of any address that is not equal to it returns what
    it returned before. *)
Theorem find_after_updateNode (s : Server) (node2 : Node) (a2 : TCPAddr) :
  Forall has_addr (Server.nodes s) ->
  Node.Addr node2 = Some a2 ->
  exists s',
    updateNode s node2 = Ok s' /\
    Server.Status s' = Server.Status s /\
    find (Server.nodes s') (TCPAddr_IP a2) = Ok node2 /\
    forall addr,
      IP_Equal (TCPAddr_IP a2) addr = false ->
      find (Server.nodes s') addr = find (Server.nodes s) addr.
Proof.
  destruct s as [nodes st]. simpl. intros Hall Ha2.
  destruct (updateNode_cases nodes st node2 Hall (ex_intro _ a2 Ha2))
    as (nodes' & Hupd & _ & _).
  exists (Server.mk nodes' st). split; [done|]. split; [done|]. simpl.
  split.
  - rewrite (find_updateNode nodes st node2 a2 nodes' _ Hall Ha2 Hupd).
    by rewrite IP_Equal_refl.
  - intros addr Hne.
    rewrite (find_updateNode nodes st node2 a2 nodes' _ Hall Ha2 Hupd).
    by rewrite Hne.
Qed.

Lemma updateNode_twice nodes : forall st a b aa ab,
  Forall has_addr nodes ->
  Node.Addr a = Some aa -> Node.Addr b = Some ab ->
  IP_Equal (TCPAddr_IP aa) (TCPAddr_IP ab) = true ->
  (s1 ← updateNode (Server.mk nodes st) a; updateNode s1 b)
  = updateNode (Server.mk nodes st) b.
Proof.
  induction nodes as [|node rest IH]; intros st a b aa ab Hall Ha Hb Hab.
  - change (updateNode (Server.mk [] st) a) with (Ok (Server.mk [a] st)).
    change (updateNode (Server.mk [a] st) b = updateNode (Server.mk [] st) b).
    rewrite (updateNode_cons a [] st b aa ab Ha Hb), Hab. done.
  - apply Forall_cons in Hall as [[an Hn] Hrest].
    rewrite (updateNode_cons node rest st a an aa Hn Ha).
    rewrite (updateNode_cons node rest st b an ab Hn Hb).
    destruct (IP_Equal (TCPAddr_IP an) (TCPAddr_IP aa)) eqn:Hna.
    + rewrite (IP_Equal_trans _ _ _ Hna Hab).
      change (updateNode (Server.mk (a :: rest) st) b
              = Ok (Server.mk (b :: rest) st)).
      by rewrite (updateNode_cons a rest st b aa ab Ha Hb), Hab.
    + assert (Hnb : IP_Equal (TCPAddr_IP an) (TCPAddr_IP ab) = false).
      { destruct (IP_Equal (TCPAddr_IP an) (TCPAddr_IP ab)) eqn:Hnb; [|done].
        rewrite (IP_Equal_sym (TCPAddr_IP aa)) in Hab.
        by rewrite (IP_Equal_trans _ _ _ Hnb Hab) in Hna. }
      rewrite Hnb. rewrite <- (IH st a b aa ab Hrest Ha Hb Hab).
      destruct (updateNode (Server.mk rest st) a) as [[rest1 st1]|] eqn:Hupd;
        [|done].
      assert (st1 = st) as -> by apply (updateNode_Status _ _ _ Hupd).
      change (updateNode (Server.mk (node :: rest1) st) b
              = match updateNode (Server.mk rest1 st) b with
                | Ok s' => Ok (Server.mk (node :: Server.nodes s') (Server.Status s'))
                | Panic => Panic
                end).
      by rewrite (updateNode_cons node rest1 st b an ab Hn Hb), Hnb.
Qed.

(** X5. The last writer wins: two [updateNode] calls in a row with nodes of
    equal IP leave the registry exactly as the second call alone would; in
    particular upserting the same node twice is the same as once. *)
Theorem updateNode_last_wins (s : Server) (a b : Node) :
  Forall has_addr (Server.nodes s) ->
  Equals a b = Ok true ->
  (s1 ← updateNode s a; updateNode s1 b) = updateNode s b.
Proof.
  destruct s as [nodes st]. simpl. intros Hall Hab.
  unfold Equals, Addr_IP in Hab.
  destruct (Node.Addr a) as [aa|] eqn:Ha; [|done].
  destruct (Node.Addr b) as [ab|] eqn:Hb; [|done].
  simpl in Hab. injection Hab as Hab.
  by apply (updateNode_twice nodes st a b aa ab).
Qed.

(** X6. A node without an address (such as the zero value that [find]
    returns for "not found") is accepted by an empty registry, where nothing
    is compared, and makes [updateNode] panic on any non-empty registry; once
    it sits in the registry, every later [updateNode] and every [find]
    panics. *)
Theorem updateNode_nil_Addr (st : Status) (node2 : Node) :
  Node.Addr node2 = None ->
  updateNode (Server.mk [] st) node2 = Ok (Server.mk [node2] st) /\
  (forall nodes, nodes <> [] -> updateNode (Server.mk nodes st) node2 = Panic) /\
  (forall n rest, updateNode (Server.mk (node2 :: rest) st) n = Panic) /\
  (forall rest addr, find (node2 :: rest) addr = Panic).
Proof.
  intros Hnil. split; [done|]. split; [|split].
  - intros [|node rest] Hne; [done|]. unfold updateNode. simpl.
    unfold Addr_IP. rewrite Hnil. by destruct (Node.Addr node).
  - intros n rest. unfold updateNode. simpl. unfold Addr_IP. by rewrite Hnil.
  - intros rest addr. simpl. unfold Addr_IP. by rewrite Hnil.
Qed.

(** ** [sort] on a registry *)

Lemma distinct_IPs_Permutation (l k : Nodes) :
  l ≡ₚ k -> distinct_IPs l -> distinct_IPs k.
Proof.
  intros Hperm Hdist. symmetry in Hperm.
  apply Permutation_inj in Hperm as (_ & f & Hinj & Hf).
  intros i j a b Hi Hj Hab. rewrite Hf in Hi, Hj.
  apply Hinj. by apply (Hdist (f i) (f j) a b).
Qed.

Lemma distinct_IPs_elem (l : Nodes) (a b : Node) :
  distinct_IPs l -> a ∈ l -> b ∈ l -> Equals a b = Ok true -> a = b.
Proof.
  intros Hdist [i Hi]%list_elem_of_lookup_1 [j Hj]%list_elem_of_lookup_1 Hab.
  assert (i = j) as -> by by apply (Hdist i j a b).
  congruence.
Qed.

Lemma has_IP_Equals addr a b :
  has_IP addr a -> has_IP addr b -> Equals a b = Ok true.
Proof.
  intros (aa & Ha & Haa) (ab & Hb & Hab).
  rewrite (Equals_addr a b aa ab Ha Hb). f_equal.
  apply IP_Equal_trans with addr; [done|]. by rewrite IP_Equal_sym.
Qed.

(** What [find] returns on a registry without equal IPs, whatever the
    order of its entries. *)
Lemma find_spec (l : Nodes) (addr : IP) (x : Node) :
  Forall has_addr l -> distinct_IPs l ->
  find l addr = Ok x <->
  (x ∈ l /\ has_IP addr x) \/
  (x = Node_zero /\ forall m, m ∈ l -> ~ has_IP addr m).
Proof.
  intros Hall Hdist.
  destruct (find_cases l addr Hall)
    as [(i & node & Hfind & Hi & Hnode & _)|[Hfind Hnone]];
    rewrite Hfind.
  - apply list_elem_of_lookup_2 in Hi. split.
    + intros [= <-]. by left.
    + intros [[Hx Hxip]|[_ Hnone]].
      * f_equal. apply (distinct_IPs_elem l node x Hdist Hi Hx).
        by apply (has_IP_Equals addr).
      * by apply Hnone in Hnode.
  - split.
    + intros [= <-]. by right.
    + intros [[Hx Hxip]|[-> _]]; [|done]. by apply Hnone in Hxip.
Qed.

Lemma find_Permutation (l k : Nodes) (addr : IP) :
  Forall has_addr l -> distinct_IPs l -> l ≡ₚ k ->
  find k addr = find l addr.
Proof.
  intros Hall Hdist Hperm.
  assert (Hallk : Forall has_addr k) by by rewrite <- Hperm.
  assert (Hdistk := distinct_IPs_Permutation l k Hperm Hdist).
  destruct (find_total l addr Hall) as (x & Hx).
  rewrite Hx. apply (find_spec k addr x Hallk Hdistk).
  apply (find_spec l addr x Hall Hdist) in Hx.
  destruct Hx as [[Hx Hxip]|[-> Hnone]].
  - left. by rewrite <- Hperm.
  - right. split; [done|]. intros m Hm. apply Hnone. by rewrite Hperm.
Qed.

Lemma SliceIsSorted_StronglySorted {A} (less : A -> A -> bool) (l : list A) :
  less_ok less -> SliceIsSorted less l -> StronglySorted (not_less less) l.
Proof.
  intros Hok. induction l as [|x l IH]; intros Hs; [constructor|].
  apply StronglySorted_cons. split.
  - apply Forall_forall. intros y [j Hj]%list_elem_of_lookup_1.
    apply (SliceIsSorted_pairwise less (x :: l) Hok Hs 0 (S j) x y);
      [lia|done|done].
  - apply IH. by apply SliceIsSorted_cons in Hs as [Hs _].
Qed.

Lemma List_filter_Permutation {A} (f : A -> bool) (l k : list A) :
  l ≡ₚ k -> List.filter f l ≡ₚ List.filter f k.
Proof.
  induction 1 as [|x l k _ IH|x y l|l k m _ IH1 _ IH2]; simpl.
  - done.
  - destruct (f x); [by constructor|done].
  - destruct (f x), (f y); try done. apply Permutation_swap.
  - by rewrite IH1.
Qed.

Lemma distinct_IPs_tail (x : Node) (l : Nodes) :
  distinct_IPs (x :: l) -> distinct_IPs l.
Proof.
  intros Hdist i j a b Hi Hj Hab.
  assert (S i = S j) by by apply (Hdist (S i) (S j) a b). lia.
Qed.

Lemma same_key_Equals ip a b :
  same_key ip a = true -> same_key ip b = true -> Equals a b = Ok true.
Proof.
  unfold same_key.
  destruct (Node.Addr a) as [aa|] eqn:Ha; [|done].
  destruct (Node.Addr b) as [ab|] eqn:Hb; [|done].
  intros Ha'%Z.eqb_eq%bytes_Compare_eq Hb'%Z.eqb_eq%bytes_Compare_eq.
  rewrite (Equals_addr a b aa ab Ha Hb), Ha', Hb'. by rewrite IP_Equal_refl.
Qed.

Lemma filter_same_key_short ip (l : Nodes) :
  distinct_IPs l -> length (List.filter (same_key ip) l) <= 1.
Proof.
  induction l as [|x l IH]; intros Hdist; simpl; [lia|].
  specialize (IH (distinct_IPs_tail x l Hdist)).
  destruct (same_key ip x) eqn:Hx; [|done].
  assert (Hnone : List.filter (same_key ip) l = []).
  { destruct (List.filter (same_key ip) l) as [|y k] eqn:Hf; [done|].
    assert (Hy : In y (List.filter (same_key ip) l))
      by (rewrite Hf; by left).
    apply filter_In in Hy as [Hy Hky].
    apply list_elem_of_In, list_elem_of_lookup_1 in Hy as [j Hj].
    assert (0 = S j); [|lia].
    apply (Hdist 0 (S j) x y); [done|done|].
    by apply (same_key_Equals ip). }
  rewrite Hnone. simpl. lia.
Qed.

Lemma Permutation_short {A} (l k : list A) :
  l ≡ₚ k -> length l <= 1 -> l = k.
Proof.
  intros Hperm Hlen.
  destruct l as [|x [|y l]]; simpl in Hlen; [| |lia].
  - by apply Permutation_nil_l in Hperm.
  - by apply Permutation_singleton_l in Hperm.
Qed.

Lemma stable_by_IP_distinct (n out : Nodes) :
  distinct_IPs n -> n ≡ₚ out -> stable_by_IP n out.
Proof.
  intros Hdist Hperm ip. symmetry. apply Permutation_short.
  - by apply List_filter_Permutation.
  - by apply filter_same_key_short.
Qed.

(** What [sort] computes on two or more nodes with addresses. *)
Lemma sort_unfold (slice : sorter) (n : Nodes) :
  Forall has_addr n -> 1 < length n ->
  exists ks,
    snd <$> ks = n /\
    Forall (fun p => Addr_IP (snd p) = Ok (fst p)) ks /\
    sort slice n
    = Ok (snd <$> slice (IP * Node)%type
                    (fun a b => less_IP (fst a) (fst b)) ks).
Proof.
  intros Hall Hlen. destruct (keyed_ok n Hall) as (ks & Hks & Hsnd & Hkeys).
  exists ks. split; [done|]. split; [done|]. unfold sort.
  destruct (Nat.leb_spec (length n) 1); [lia|]. by rewrite Hks.
Qed.

Lemma sort_unique (slice1 slice2 : sorter) (n : Nodes) :
  sort_Slice_contract slice1 -> sort_Slice_contract slice2 ->
  Forall has_addr n -> distinct_IPs n ->
  exists out,
    sort slice1 n = Ok out /\ sort slice2 n = Ok out /\
    n ≡ₚ out /\
    forall i j a b ipa ipb,
      i < j -> out !! i = Some a -> out !! j = Some b ->
      Addr_IP a = Ok ipa -> Addr_IP b = Ok ipb ->
      (bytes_Compare ipa ipb < 0)%Z.
Proof.
  intros H1 H2 Hall Hdist.
  destruct (Nat.leb_spec (length n) 1) as [Hlen|Hlen].
  - exists n. unfold sort.
    rewrite (proj2 (Nat.leb_le _ _) Hlen). split; [done|]. split; [done|].
    split; [done|]. intros i j a b ipa ipb Hij Hi Hj.
    apply lookup_lt_Some in Hj. lia.
  - destruct (sort_unfold slice1 n Hall Hlen) as (ks & Hsnd & Hkeys & ->).
    destruct (sort_unfold slice2 n Hall Hlen) as (ks' & Hsnd' & Hkeys' & ->).
    assert (ks' = ks) as ->.
    { clear -Hsnd Hsnd' Hkeys Hkeys'. subst n. revert ks' Hsnd' Hkeys'.
      induction Hkeys as [|[ip x] ks Hx _ IH]; intros [|[ip' x'] ks'];
        try done.
      intros [= -> Heq] [Hx' Hks]%Forall_cons. simpl in *.
      rewrite Hx in Hx'. injection Hx' as ->. f_equal. by apply IH. }
    set (less := fun a b : IP * Node => less_IP (fst a) (fst b)).
    assert (Hless : less_ok less) by apply (less_ok_on fst less_IP), less_IP_ok.
    destruct (H1 _ less ks Hless) as [Hp1 Hs1].
    destruct (H2 _ less ks Hless) as [Hp2 Hs2].
    assert (Helem : forall p q, p ∈ ks -> q ∈ ks -> fst p = fst q -> p = q).
    { intros [ip x] [ip' y] Hp Hq Heq. simpl in Heq. subst ip'.
      f_equal.
      apply (distinct_IPs_elem n x y Hdist).
      - rewrite <- Hsnd. apply list_elem_of_fmap. by exists (ip, x).
      - rewrite <- Hsnd. apply list_elem_of_fmap. by exists (ip, y).
      - pose proof (proj1 (Forall_forall _ _) Hkeys _ Hp) as Hx.
        pose proof (proj1 (Forall_forall _ _) Hkeys _ Hq) as Hy.
        simpl in Hx, Hy. unfold Equals. rewrite Hx, Hy. simpl.
        by rewrite IP_Equal_refl. }
    assert (Heq : slice1 _ less ks = slice2 _ less ks).
    { apply (StronglySorted_unique_strong (not_less less)).
      - intros p q Hp Hq Hpq Hqp. apply Helem.
        + by rewrite Hp1.
        + by rewrite Hp2.
        + unfold not_less, less in Hpq, Hqp.
          apply less_IP_false in Hpq, Hqp.
          apply bytes_Compare_eq.
          pose proof (bytes_Compare_flip (fst p) (fst q)). lia.
      - by apply SliceIsSorted_StronglySorted.
      - by apply SliceIsSorted_StronglySorted.
      - by rewrite <- Hp1, <- Hp2. }
    eexists. split; [done|]. split; [by rewrite Heq|]. split.
    { rewrite <- Hsnd at 1. by apply fmap_Permutation. }
    intros i j a b ipa ipb Hij Hi Hj Ha Hb.
    rewrite list_lookup_fmap in Hi, Hj.
    destruct (slice1 _ less ks !! i) as [[ka a']|] eqn:Hi'; [|done].
    destruct (slice1 _ less ks !! j) as [[kb b']|] eqn:Hj'; [|done].
    simpl in Hi, Hj. injection Hi as ->. injection Hj as ->.
    assert (Hina : (ka, a) ∈ ks)
      by (rewrite Hp1; by apply list_elem_of_lookup_2 in Hi').
    assert (Hinb : (kb, b) ∈ ks)
      by (rewrite Hp1; by apply list_elem_of_lookup_2 in Hj').
    pose proof (proj1 (Forall_forall _ _) Hkeys _ Hina) as Hka.
    pose proof (proj1 (Forall_forall _ _) Hkeys _ Hinb) as Hkb.
    simpl in Hka, Hkb. rewrite Ha in Hka. rewrite Hb in Hkb.
    injection Hka as ->. injection Hkb as ->.
    assert (Hle : (bytes_Compare ka kb <= 0)%Z).
    { apply less_IP_false.
      apply (SliceIsSorted_pairwise less (slice1 _ less ks) Hless Hs1 i j
               (ka, a) (kb, b)); [lia|done|done]. }
    assert (Hne : bytes_Compare ka kb <> 0%Z).
    { intros Hz%bytes_Compare_eq. subst kb.
      assert (Hab : (ka, a) = (ka, b)) by by apply Helem.
      injection Hab as ->.
      assert (Hnd : NoDup (slice1 _ less ks)).
      { rewrite <- Hp1. apply NoDup_alt. intros i1 i2 p Hp Hq.
        destruct p as [kp xp].
        assert (Hn1 : n !! i1 = Some xp)
          by (rewrite <- Hsnd, list_lookup_fmap, Hp; done).
        assert (Hn2 : n !! i2 = Some xp)
          by (rewrite <- Hsnd, list_lookup_fmap, Hq; done).
        apply (Hdist i1 i2 xp xp Hn1 Hn2).
        pose proof (proj1 (Forall_forall _ _) Hkeys _
                      (list_elem_of_lookup_2 _ _ _ Hp)) as Hx.
        simpl in Hx. unfold Equals. rewrite Hx. simpl.
        by rewrite IP_Equal_refl. }
      assert (i = j); [|lia].
      by apply (proj1 (NoDup_alt _) Hnd i j (ka, b)). }
    lia.
Qed.

(** X7. On a list of nodes with addresses no two of which have equal IPs,
    as [updateNode] keeps the registry, the result of [sort] does not depend
    on the implementation of [sort.Slice]: any two that do what package
    [sort] documents give the same list, a rearrangement of the input in which
    addresses strictly increase under [bytes.Compare]. *)
Theorem sort_distinct_IPs (slice1 slice2 : sorter) (n : Nodes) :
  sort_Slice_contract slice1 -> sort_Slice_contract slice2 ->
  Forall has_addr n -> distinct_IPs n ->
  exists out,
    sort slice1 n = Ok out /\ sort slice2 n = Ok out /\
    n ≡ₚ out /\
    forall i j a b ipa ipb,
      i < j -> out !! i = Some a -> out !! j = Some b ->
      Addr_IP a = Ok ipa -> Addr_IP b = Ok ipb ->
      (bytes_Compare ipa ipb < 0)%Z.
Proof. apply sort_unique. Qed.

(** X8. Sorting such a registry changes neither what it holds nor what
    [find] answers: the sorted list still has no two entries of equal IP,
    every node keeps its place relative to nodes of the same IP, and [find]
    returns for every address what it returned before. *)
Theorem find_after_sort (slice : sorter) (n : Nodes) :
  sort_Slice_contract slice ->
  Forall has_addr n -> distinct_IPs n ->
  exists out,
    sort slice n = Ok out /\
    distinct_IPs out /\
    stable_by_IP n out /\
    forall addr, find out addr = find n addr.
Proof.
  intros Hslice Hall Hdist.
  destruct (sort_unique slice slice n Hslice Hslice Hall Hdist)
    as (out & Hsort & _ & Hperm & _).
  exists out. split; [done|]. split; [|split].
  - by apply (distinct_IPs_Permutation n).
  - by apply stable_by_IP_distinct.
  - intros addr. by apply find_Permutation.
Qed.

(** ** [getOperatingSystems] *)

Lemma filter_all {A} (P : A -> Prop) `{!forall x, Decision (P x)} (l : list A) :
  (forall x, P x) -> filter P l = l.
Proof.
  intros HP. induction l as [|x l IH]; [done|].
  by rewrite filter_cons_True, IH.
Qed.

Lemma duplicate_loop (os : string) (opSys : list string) (dup : bool) :
  foldl (fun dup ops => if String.eqb ops os then true else dup) dup opSys
  = dup || bool_decide (os ∈ opSys).
Proof.
  revert dup. induction opSys as [|ops opSys IH]; intros dup.
  - simpl. by rewrite orb_false_r.
  - cbn [foldl]. rewrite IH. destruct (String.eqb_spec ops os) as [->|Hne].
    + rewrite (bool_decide_eq_true_2 (os ∈ os :: opSys)) by apply list_elem_of_here.
      by rewrite orb_true_r.
    + destruct dup; simpl; [done|].
      apply bool_decide_ext. rewrite elem_of_cons. naive_solver.
Qed.

Lemma distinct_first_elem (l : list string) (x : string) :
  x ∈ distinct_first l <-> x ∈ l.
Proof.
  induction l as [|y l IH]; simpl; [done|].
  rewrite !elem_of_cons, list_elem_of_filter, IH.
  destruct (decide (x = y)); naive_solver.
Qed.

Lemma distinct_first_NoDup (l : list string) : NoDup (distinct_first l).
Proof.
  induction l as [|y l IH]; simpl; [constructor|].
  apply NoDup_cons. split.
  - rewrite list_elem_of_filter. naive_solver.
  - by apply NoDup_filter.
Qed.

(** The outer loop, started with [opSys = acc]. *)
Lemma getOperatingSystems_from (n : Nodes) : forall acc : list string,
  foldl
    (fun opSys node =>
       let duplicate :=
         foldl (fun dup ops => if String.eqb ops (OS (Node.Info node)) then true else dup)
           false opSys in
       if duplicate then opSys else opSys ++ [OS (Node.Info node)])
    acc n
  = acc ++ filter (fun os => os ∉ acc)
             (distinct_first ((fun node => OS (Node.Info node)) <$> n)).
Proof.
  induction n as [|node n IH]; intros acc; simpl.
  - by rewrite app_nil_r.
  - rewrite duplicate_loop. simpl.
    set (x := OS (Node.Info node)).
    set (df := distinct_first ((fun node => OS (Node.Info node)) <$> n)).
    destruct (decide (x ∈ acc)) as [Hin|Hnotin].
    + rewrite bool_decide_eq_true_2 by done. rewrite IH. fold df. f_equal.
      rewrite filter_cons_False by naive_solver.
      rewrite list_filter_filter. apply list_filter_iff.
      intros y. split; [|naive_solver]. intros Hy. split; [done|].
      intros ->. done.
    + rewrite bool_decide_eq_false_2 by done. rewrite IH. fold df.
      rewrite <- app_assoc. f_equal. simpl.
      rewrite filter_cons_True by done. f_equal.
      rewrite list_filter_filter. apply list_filter_iff.
      intros y. rewrite elem_of_app, list_elem_of_singleton. naive_solver.
Qed.

(** X9. [getOperatingSystems] returns the OS identifiers of the nodes
    without repetition and in the order in which they first occur: every OS
    of a node is in the result, nothing else is, and none twice. *)
Theorem getOperatingSystems_distinct (n : Nodes) :
  getOperatingSystems n
  = distinct_first ((fun node => OS (Node.Info node)) <$> n) /\
  NoDup (getOperatingSystems n) /\
  (forall os,
      os ∈ getOperatingSystems n <->
      exists node, node ∈ n /\ OS (Node.Info node) = os).
Proof.
  assert (Heq : getOperatingSystems n
                = distinct_first ((fun node => OS (Node.Info node)) <$> n)).
  { unfold getOperatingSystems. rewrite getOperatingSystems_from. simpl.
    apply filter_all. intros x. apply not_elem_of_nil. }
  split; [done|]. rewrite Heq. split; [apply distinct_first_NoDup|].
  intros os. rewrite distinct_first_elem, list_elem_of_fmap. naive_solver.
Qed.

(** X10. Appending nodes only appends to the result: the operating
    systems of [n ++ m] are those of [n], followed by those of [m] that [n]
    does not have, in their order. *)
Theorem getOperatingSystems_app (n m : Nodes) :
  getOperatingSystems (n ++ m)
  = getOperatingSystems n
    ++ filter (fun os => os ∉ getOperatingSystems n) (getOperatingSystems m).
Proof.
  unfold getOperatingSystems at 1. rewrite foldl_app.
  fold (getOperatingSystems n). rewrite getOperatingSystems_from. f_equal.
  f_equal. unfold getOperatingSystems. rewrite getOperatingSystems_from. simpl.
  symmetry. apply filter_all. intros x. apply not_elem_of_nil.
Qed.

(** ** The handlers on all their paths *)

Ltac transfer_paths msg :=
  handler_unfold;
  destruct (Message.Data msg) eqn:?; simpl;
  repeat env_case; trace_norm.

(** X11. Every run of [jobTransferCallback] hands exactly one message to
    the connection it was given, a [TransferAcknowledge] or a
    [TransferFailed], and writes nothing to the server. *)
Theorem jobTransferCallback_one_reply
    (env : Env) (w : World) (conn : ConnPtr) (msg : Message) :
  exists m,
    sent (events_of (jobTransferCallback conn msg) env w) = [(conn, m)] /\
    (Message.Operation m = OperationTransferAcknowledge \/
     Message.Operation m = OperationTransferFailed) /\
    status_writes (events_of (jobTransferCallback conn msg) env w) = [] /\
    server (run (jobTransferCallback conn msg) env w) = server w.
Proof.
  transfer_paths msg.
  all: eexists; split; [reflexivity|]; split; [|by split].
  all: first [by left | by right].
Qed.

(** X12. [jobTransferCallback] acknowledges only what it has stored: a
    [TransferAcknowledge] is sent only in a run where the payload is not
    empty, the folder was created and [saveBinary] wrote the payload of the
    message to [.beekeeper/job.bin] without error; and whenever [saveBinary]
    returns without error the acknowledgement is sent. *)
Theorem jobTransferCallback_ack_iff_saved
    (env : Env) (w : World) (conn : ConnPtr) (msg : Message) :
  (forall c m serr,
      EvSend c m serr ∈ events_of (jobTransferCallback conn msg) env w ->
      Message.Operation m = OperationTransferAcknowledge ->
      Message.Data msg <> [] /\
      EvCreateFolder ".beekeeper" None
        ∈ events_of (jobTransferCallback conn msg) env w /\
      EvSaveBinary ".beekeeper/job.bin" (Message.Data msg) None
        ∈ events_of (jobTransferCallback conn msg) env w) /\
  (forall p d,
      EvSaveBinary p d None ∈ events_of (jobTransferCallback conn msg) env w ->
      exists serr,
        EvSend conn (Message_of OperationTransferAcknowledge []) serr
          ∈ events_of (jobTransferCallback conn msg) env w).
Proof.
  transfer_paths msg.
  all: split;
    [intros c m serr H Hop; in_events H; injection H as -> -> ->;
     try discriminate Hop; (split; [done|split; in_list])
    |intros p d H; in_events H; eexists; in_list].
Qed.

(** X13. [jobTransferCallback] calls [saveBinary] at most once, and then
    on [.beekeeper/job.bin] with exactly the payload of the message; it
    calls it precisely when the folder was created and the payload is not
    empty. *)
Theorem jobTransferCallback_saves
    (env : Env) (w : World) (conn : ConnPtr) (msg : Message) :
  (saves (events_of (jobTransferCallback conn msg) env w) = [] /\
   (Message.Data msg = [] \/
    exists e, EvCreateFolder ".beekeeper" (Some e)
                ∈ events_of (jobTransferCallback conn msg) env w))
  \/ (exists err,
        saves (events_of (jobTransferCallback conn msg) env w)
        = [(".beekeeper/job.bin", Message.Data msg, err)] /\
        Message.Data msg <> [] /\
        EvCreateFolder ".beekeeper" None
          ∈ events_of (jobTransferCallback conn msg) env w).
Proof.
  transfer_paths msg.
  all: first
    [left; split; [reflexivity|first [by left|right; eexists; solve [in_list]]]
    |right; eexists; split; [reflexivity|split; [done|solve [in_list]]]].
Qed.

Lemma string_of_bytes_of_string (s : string) :
  string_of_bytes (bytes_of_string s) = s.
Proof. apply String.string_of_list_byte_of_string. Qed.

(** X14. The text of a [TransferFailed] reply can be read back from its
    payload, and it is the reason of the failure: the words "empty data
    field" when the payload was empty (and the folder could be created), or
    else the text of the error that [createFolderIfNotExist] or [saveBinary]
    returned in that run. *)
Theorem jobTransferCallback_failure_text
    (env : Env) (w : World) (conn : ConnPtr) (msg : Message)
    (c : ConnPtr) (m : Message) (serr : option error) :
  EvSend c m serr ∈ events_of (jobTransferCallback conn msg) env w ->
  Message.Operation m = OperationTransferFailed ->
  (string_of_bytes (Message.Data m) = "empty data field" /\
   Message.Data msg = [] /\
   EvCreateFolder ".beekeeper" None
     ∈ events_of (jobTransferCallback conn msg) env w)
  \/ EvCreateFolder ".beekeeper" (Some (string_of_bytes (Message.Data m)))
       ∈ events_of (jobTransferCallback conn msg) env w
  \/ EvSaveBinary ".beekeeper/job.bin" (Message.Data msg)
       (Some (string_of_bytes (Message.Data m)))
       ∈ events_of (jobTransferCallback conn msg) env w.
Proof.
  transfer_paths msg.
  all: intros H Hop; in_events H; injection H as -> -> ->;
    try discriminate Hop; simpl; rewrite ?string_of_bytes_of_string.
  all: first
    [left; split; [reflexivity|split; [done|solve [in_list]]]
    |right; left; solve [in_list]
    |right; right; solve [in_list]].
Qed.

Ltac execute_paths := handler_unfold; repeat env_case; trace_norm.

(** X15. Whatever happens after a successful decoding (the job fails, the
    result does not encode, the reply cannot be sent), a run of
    [jobExecuteCallback] writes [s.Status] exactly twice, [StatusWorking] and
    then [StatusIDLE], and ends with [StatusIDLE]; when decoding fails it
    writes nothing. The registry is never touched. *)
Theorem jobExecuteCallback_status_balanced
    (env : Env) (w : World) (conn : ConnPtr) (msg : Message) :
  Server.nodes (server (run (jobExecuteCallback conn msg) env w))
  = Server.nodes (server w) /\
  ((exists task e,
       EvDecodeTask (Message.Data msg) task (Some e)
         ∈ events_of (jobExecuteCallback conn msg) env w /\
       status_writes (events_of (jobExecuteCallback conn msg) env w) = [] /\
       server (run (jobExecuteCallback conn msg) env w) = server w)
   \/ (exists task,
         EvDecodeTask (Message.Data msg) task None
           ∈ events_of (jobExecuteCallback conn msg) env w /\
         status_writes (events_of (jobExecuteCallback conn msg) env w)
         = [StatusWorking; StatusIDLE] /\
         Server.Status (server (run (jobExecuteCallback conn msg) env w))
         = StatusIDLE)).
Proof.
  execute_paths.
  all: split; [reflexivity|].
  all: first
    [left; eexists _, _; split; [solve [in_list]|by split]
    |right; eexists; split; [solve [in_list]|by split]].
Qed.

(** X16. [jobExecuteCallback] replies at most once, and exactly when the
    [Result] was encoded without error: the reply goes to the connection it
    was given and is a [JobResult] whose payload is what the encoder
    returned. *)
Theorem jobExecuteCallback_reply
    (env : Env) (w : World) (conn : ConnPtr) (msg : Message) :
  (sent (events_of (jobExecuteCallback conn msg) env w) = [] /\
   forall res b,
     EvEncode res b None ∉ events_of (jobExecuteCallback conn msg) env w)
  \/ (exists res b,
        EvEncode res b None ∈ events_of (jobExecuteCallback conn msg) env w /\
        sent (events_of (jobExecuteCallback conn msg) env w)
        = [(conn, Message_of OperationJobResult b)]).
Proof.
  execute_paths.
  all: first
    [left; split; [reflexivity|intros res b' H; in_events H; congruence]
    |right; eexists _, _; split; [solve [in_list]|reflexivity]].
Qed.

(** X17. When [runLocalJob] returns without error, [jobExecuteCallback]
    hands its [Result] to the encoder as it is: the UUID and the error field
    of the reply are whatever the job returned for the task that was decoded
    from the message. *)
Theorem jobExecuteCallback_result_passed_on
    (env : Env) (w : World) (conn : ConnPtr) (msg : Message)
    (task : Task) (r : Result) :
  EvRunLocalJob task r None ∈ events_of (jobExecuteCallback conn msg) env w ->
  EvDecodeTask (Message.Data msg) task None
    ∈ events_of (jobExecuteCallback conn msg) env w /\
  (exists b berr,
      EvEncode r b berr ∈ events_of (jobExecuteCallback conn msg) env w) /\
  (forall res b berr,
      EvEncode res b berr ∈ events_of (jobExecuteCallback conn msg) env w ->
      res = r).
Proof.
  execute_paths.
  all: intros H; in_events H; injection H as <- <-.
  all: split; [in_list|split; [eexists _, _; in_list|]].
  all: intros res b' berr H; in_events H; by injection H as <- _ _.
Qed.

(** X18. The line "Ran task <UUID> successfully" is logged in every run in
    which the task was decoded, also when [runLocalJob] returned an error
    (it then follows the line "Unable to run job: ..."). *)
Theorem jobExecuteCallback_logs_success
    (env : Env) (w : World) (conn : ConnPtr) (msg : Message) (task : Task) :
  EvDecodeTask (Message.Data msg) task None
    ∈ events_of (jobExecuteCallback conn msg) env w ->
  EvLog Infoln ["Ran task"; Task.UUID task; "successfully"]
    ∈ events_of (jobExecuteCallback conn msg) env w /\
  forall r e,
    EvRunLocalJob task r (Some e)
      ∈ events_of (jobExecuteCallback conn msg) env w ->
    exists pre post,
      events_of (jobExecuteCallback conn msg) env w
      = pre ++ [EvLog Errorln ["Unable to run job: " +:+ e];
                EvLog Infoln ["Ran task"; Task.UUID task; "successfully"]]
            ++ post.
Proof.
  execute_paths.
  all: intros H; in_events H; injection H as <-.
  all: split; [in_list|].
  all: intros r' e' H; in_events H; injection H as <- <-.
  all: by eexists [_; _; _; _], _.
Qed.

(** ** [ExecuteMany]: what becomes of the goroutines and of the results *)

Lemma omap_insert_Permutation {A B} (f : A -> option B) (l : list A) i x y :
  l !! i = Some x ->
  option_list (f y) ++ omap f l ≡ₚ option_list (f x) ++ omap f (<[i := y]> l).
Proof.
  revert i. induction l as [|z l IH]; intros [|i] Hi; simpl in *; try done.
  - injection Hi as ->. destruct (f x), (f y); simpl; try done.
    apply Permutation_swap.
  - specialize (IH i Hi). destruct (f z) as [b|]; simpl; [|done].
    rewrite <- !Permutation_middle. by constructor.
Qed.

Lemma goroutine_census (gs : list goroutine) :
  sum_list_with exited gs + sum_list_with blocked gs
  + length (spawned_nodes gs) = length gs.
Proof.
  induction gs as [|g gs IH]; [done|].
  destruct g; simpl in *; lia.
Qed.

Lemma final_no_spawned env n t timeout st :
  EM_final env n t timeout st -> spawned_nodes (em_goroutines st) = [].
Proof.
  intros Hfinal. unfold spawned_nodes.
  assert (Hno : forall i node, em_goroutines st !! i <> Some (GSpawned node)).
  { intros i node Hi. specialize (Hfinal (Run i)). simpl in Hfinal.
    by rewrite Hi in Hfinal. }
  revert Hno. generalize (em_goroutines st). clear.
  induction l as [|g gs IH]; intros Hno; [done|].
  simpl. destruct g as [node| | |].
  - by specialize (Hno 0 node).
  - apply IH. intros i node. apply (Hno (S i)).
  - apply IH. intros i node. apply (Hno (S i)).
  - apply IH. intros i node. apply (Hno (S i)).
Qed.


Lemma EM_exit_inv_step env n t timeout a st st' :
  EM_inv env n t timeout st -> EM_exit_inv st ->
  ExecuteMany_step env n t timeout a st = Some st' ->
  EM_exit_inv st'.
Proof.
  intros Hinv Hexit Hstep. unfold EM_exit_inv in *.
  destruct a as [i|i|]; simpl in Hstep.
  - destruct (em_goroutines st !! i) as [[node| | |]|] eqn:Hi; try done.
    injection Hstep as <-. simpl.
    pose proof (sum_list_with_insert exited (em_goroutines st) i
                  (GSpawned node)
                  (match snd (env_Execute env (em_trace st) node t timeout) with
                   | Some e => GSendErr (node_error node e)
                   | None => GSendRes (fst (env_Execute env (em_trace st) node t timeout))
                   end) Hi) as Hsum.
    assert (Hex : exited
              (match snd (env_Execute env (em_trace st) node t timeout) with
               | Some e => GSendErr (node_error node e)
               | None => GSendRes (fst (env_Execute env (em_trace st) node t timeout))
               end) = 0)
      by by destruct (snd (env_Execute env (em_trace st) node t timeout)).
    rewrite Hex in Hsum. simpl in Hsum. rewrite length_insert.
    destruct (em_returned st) as [[rs [e|]]|]; [lia|lia|done].
  - destruct (em_returned st) eqn:Hret; [done|].
    destruct (Nat.eqb _ _); [done|].
    destruct (em_goroutines st !! i) as [[node|e|r|]|] eqn:Hi; try done;
      injection Hstep as <-; simpl; [|done].
    pose proof (sum_list_with_insert exited (em_goroutines st) i
                  (GSendErr e) GExited Hi) as Hsum.
    simpl in Hsum. rewrite (inv_count _ _ _ _ _ Hinv Hret). lia.
  - destruct (em_returned st) eqn:Hret; [done|].
    destruct (Nat.eqb_spec (length (em_results st)) (length n)) as [Heq|];
      [|done].
    injection Hstep as <-. simpl.
    by rewrite <- (inv_count _ _ _ _ _ Hinv Hret), (inv_len _ _ _ _ _ Hinv).
Qed.

Lemma successes_app tr ev :
  successes (tr ++ [ev]) = successes tr ++ successes [ev].
Proof. unfold successes. by rewrite omap_app. Qed.

Lemma executed_nodes_app tr ev :
  executed_nodes (tr ++ [ev]) = executed_nodes tr ++ executed_nodes [ev].
Proof. unfold executed_nodes. by rewrite omap_app. Qed.

Lemma EM_flow_inv_step env n t timeout a st st' :
  EM_flow_inv n st ->
  ExecuteMany_step env n t timeout a st = Some st' ->
  EM_flow_inv n st'.
Proof.
  intros (Hres & Hnodes & Hlen) Hstep. unfold EM_flow_inv.
  destruct a as [i|i|]; simpl in Hstep.
  - destruct (em_goroutines st !! i) as [[node| | |]|] eqn:Hi; try done.
    injection Hstep as <-. simpl.
    set (r := env_Execute env (em_trace st) node t timeout).
    set (g := match snd r with
              | Some e => GSendErr (node_error node e)
              | None => GSendRes (fst r)
              end).
    pose proof (omap_insert_Permutation
                  (fun g => match g with GSendRes r => Some r | _ => None end)
                  (em_goroutines st) i (GSpawned node) g Hi) as Hp.
    pose proof (omap_insert_Permutation
                  (fun g => match g with GSpawned node => Some node | _ => None end)
                  (em_goroutines st) i (GSpawned node) g Hi) as Hs.
    fold (pending_results (em_goroutines st)) in Hp.
    fold (pending_results (<[i := g]> (em_goroutines st))) in Hp.
    fold (spawned_nodes (em_goroutines st)) in Hs.
    fold (spawned_nodes (<[i := g]> (em_goroutines st))) in Hs.
    cbv beta in Hp, Hs.
    rewrite successes_app, executed_nodes_app, length_app. simpl.
    split; [|split]. 3: { rewrite length_app. simpl. lia. }
    + unfold g in *. destruct (snd r); simpl in *.
      * rewrite app_nil_r. by rewrite <- Hp.
      * rewrite <- Hp, <- Hres.
        by rewrite <- Permutation_middle, (comm (++) _ [fst r]).
    + assert (Hg : match g with GSpawned node => Some node | _ => None end
                   = None) by (unfold g; by destruct (snd r)).
      rewrite Hg in Hs. simpl in Hs.
      rewrite <- Hnodes, Hs, <- app_assoc. done.
  - destruct (em_returned st) eqn:Hret; [done|].
    destruct (Nat.eqb _ _); [done|].
    destruct (em_goroutines st !! i) as [[node|e|r|]|] eqn:Hi; try done;
      injection Hstep as <-; simpl.
    + pose proof (omap_insert_Permutation
                    (fun g => match g with GSendRes r => Some r | _ => None end)
                    (em_goroutines st) i (GSendErr e) GExited Hi) as Hp.
      pose proof (omap_insert_Permutation
                    (fun g => match g with GSpawned node => Some node | _ => None end)
                    (em_goroutines st) i (GSendErr e) GExited Hi) as Hs.
      simpl in Hp, Hs. unfold pending_results, spawned_nodes.
      by rewrite <- Hp, <- Hs.
    + pose proof (omap_insert_Permutation
                    (fun g => match g with GSendRes r => Some r | _ => None end)
                    (em_goroutines st) i (GSendRes r) GExited Hi) as Hp.
      pose proof (omap_insert_Permutation
                    (fun g => match g with GSpawned node => Some node | _ => None end)
                    (em_goroutines st) i (GSendRes r) GExited Hi) as Hs.
      simpl in Hp, Hs. unfold pending_results, spawned_nodes in *.
      rewrite <- Hs. split; [|done].
      rewrite <- Hres, Hp, <- app_assoc. done.
  - destruct (em_returned st); [done|].
    destruct (Nat.eqb _ _); [|done].
    by injection Hstep as <-.
Qed.

Lemma EM_more_inv_runs env n t timeout sched : forall st st',
  EM_inv env n t timeout st -> EM_exit_inv st -> EM_flow_inv n st ->
  ExecuteMany_run env n t timeout sched st = Some st' ->
  EM_exit_inv st' /\ EM_flow_inv n st'.
Proof.
  induction sched as [|a sched IH]; intros st st' Hinv Hexit Hflow; simpl.
  - by intros [= <-].
  - destruct (ExecuteMany_step env n t timeout a st) as [st1|] eqn:Hstep;
      simpl; [|done].
    apply IH.
    + by apply (EM_inv_step env n t timeout a st).
    + by apply (EM_exit_inv_step env n t timeout a st).
    + by apply (EM_flow_inv_step env n t timeout a st).
Qed.

Lemma spawned_nodes_start (n : Nodes) : spawned_nodes (GSpawned <$> n) = n.
Proof. induction n as [|x n IH]; csimpl; [done|]. by rewrite IH. Qed.

Lemma pending_results_start (n : Nodes) : pending_results (GSpawned <$> n) = [].
Proof. induction n as [|x n IH]; csimpl; done. Qed.

Lemma ExecuteMany_more_inv env n t timeout sched st :
  ExecuteMany env n t timeout sched = Some st ->
  EM_exit_inv st /\ EM_flow_inv n st.
Proof.
  apply EM_more_inv_runs.
  - apply EM_inv_start.
  - done.
  - unfold EM_flow_inv, ExecuteMany_start. simpl.
    by rewrite spawned_nodes_start, pending_results_start.
Qed.

(** After the return only goroutines still in [s.Execute] move, and they
    end blocked: what was returned, the results and the number of goroutines
    gone stay as they are. *)
Lemma runs_after_return env n t timeout sched : forall st st' ret,
  em_returned st = Some ret ->
  ExecuteMany_run env n t timeout sched st = Some st' ->
  em_returned st' = Some ret /\
  em_results st' = em_results st /\
  sum_list_with exited (em_goroutines st')
  = sum_list_with exited (em_goroutines st).
Proof.
  induction sched as [|a sched IH]; intros st st' ret Hret; simpl.
  - by intros [= <-].
  - destruct (ExecuteMany_step env n t timeout a st) as [st1|] eqn:Hstep;
      simpl; [|done].
    intros Hrun.
    assert (Hst1 : em_returned st1 = Some ret /\
                   em_results st1 = em_results st /\
                   sum_list_with exited (em_goroutines st1)
                   = sum_list_with exited (em_goroutines st)).
    { destruct a as [i|i|]; simpl in Hstep; rewrite ?Hret in Hstep; try done.
      destruct (em_goroutines st !! i) as [[node| | |]|] eqn:Hi; try done.
      injection Hstep as <-. simpl. split; [done|]. split; [done|].
      pose proof (sum_list_with_insert exited (em_goroutines st) i
                    (GSpawned node)
                    (match snd (env_Execute env (em_trace st) node t timeout) with
                     | Some e => GSendErr (node_error node e)
                     | None => GSendRes (fst (env_Execute env (em_trace st) node t timeout))
                     end) Hi) as Hsum.
      destruct (snd (env_Execute env (em_trace st) node t timeout));
        simpl in Hsum; lia. }
    destruct Hst1 as (Hret1 & Hres1 & Hex1).
    destruct (IH st1 st' ret Hret1 Hrun) as (? & ? & ?).
    split; [done|]. split; congruence.
Qed.

(** X19. In every run of [ExecuteMany], [Execute] is called at most once
    for each entry of the list: the nodes it has been called on, together
    with the nodes whose goroutine has not come back yet, are the list up to
    order. When nothing can move any more it has been called exactly once on
    each. *)
Theorem ExecuteMany_each_node_once
    (env : Env) (n : Nodes) (t : Task) (timeout : list Z)
    (sched : list action) (st : EM) :
  ExecuteMany env n t timeout sched = Some st ->
  executed_nodes (em_trace st) ++ spawned_nodes (em_goroutines st) ≡ₚ n /\
  length (em_trace st) <= length n /\
  (EM_final env n t timeout st ->
   executed_nodes (em_trace st) ≡ₚ n /\ length (em_trace st) = length n).
Proof.
  intros Hrun.
  destruct (ExecuteMany_more_inv env n t timeout sched st Hrun)
    as [_ (_ & Hnodes & Hlen)].
  split; [done|]. split.
  - rewrite <- Hlen, <- Hnodes, length_app. lia.
  - intros Hfinal.
    rewrite (final_no_spawned env n t timeout st Hfinal), app_nil_r in Hnodes.
    split; [done|]. by rewrite <- Hlen, Hnodes.
Qed.

(** X20. [ExecuteMany] does not wait for the other goroutines when it
    returns an error, and nothing receives from them afterwards: with [r]
    results collected before the error, [r + 1] goroutines are gone and the
    other [N - r - 1] never go away; whatever is run after the return, each
    of them finishes its [Execute] and stays blocked on its send. *)
Theorem ExecuteMany_error_leaks_goroutines
    (env : Env) (n : Nodes) (t : Task) (timeout : list Z)
    (sched : list action) (st : EM) (rs : list Result) (e : error) :
  ExecuteMany env n t timeout sched = Some st ->
  em_returned st = Some (rs, Some e) ->
  sum_list_with exited (em_goroutines st) = length (em_results st) + 1 /\
  (forall sched' st',
      ExecuteMany_run env n t timeout sched' st = Some st' ->
      em_returned st' = Some (rs, Some e) /\
      sum_list_with exited (em_goroutines st') = length (em_results st) + 1 /\
      sum_list_with blocked (em_goroutines st')
      + length (spawned_nodes (em_goroutines st'))
      = length n - length (em_results st) - 1 /\
      (EM_final env n t timeout st' ->
       sum_list_with blocked (em_goroutines st')
       = length n - length (em_results st) - 1)).
Proof.
  intros Hrun Hret.
  destruct (ExecuteMany_more_inv env n t timeout sched st Hrun) as [Hexit _].
  unfold EM_exit_inv in Hexit. rewrite Hret in Hexit.
  split; [done|]. intros sched' st' Hrun'.
  destruct (runs_after_return env n t timeout sched' st st' _ Hret Hrun')
    as (Hret' & _ & Hex').
  assert (Hinv' : EM_inv env n t timeout st').
  { apply (EM_inv_runs env n t timeout sched' st); [|done].
    by apply (ExecuteMany_inv env n t timeout sched). }
  pose proof (goroutine_census (em_goroutines st')) as Hcensus.
  rewrite (inv_len _ _ _ _ _ Hinv') in Hcensus.
  split; [done|]. split; [lia|]. split; [lia|].
  intros Hfinal.
  rewrite (final_no_spawned env n t timeout st' Hfinal) in Hcensus.
  simpl in Hcensus. lia.
Qed.


(** ** Status reports *)

Example sensorKey_0 : sensorKey 0 = "coretemp_core0_input".
Proof. reflexivity. Qed.

Lemma linux_loop_filter (F : FloatOps) (temps : list (TemperatureStat F)) :
  forall acc : float64 F * Z,
    foldl
      (fun '(total, coreNum) sensor =>
         if String.eqb (SensorKey sensor) (sensorKey 0)
         then (f64_add F total (Temperature sensor), (coreNum + 1)%Z)
         else (total, coreNum))
      acc
      (filter (fun s => SensorKey s = "coretemp_core0_input") temps)
    = foldl
        (fun '(total, coreNum) sensor =>
           if String.eqb (SensorKey sensor) (sensorKey 0)
           then (f64_add F total (Temperature sensor), (coreNum + 1)%Z)
           else (total, coreNum))
        acc temps.
Proof.
  induction temps as [|s temps IH]; intros [total coreNum]; [done|].
  destruct (decide (SensorKey s = "coretemp_core0_input")) as [Hs|Hs].
  - rewrite filter_cons_True by done. cbn [foldl]. apply IH.
  - rewrite filter_cons_False by done. cbn [foldl].
    rewrite IH. f_equal.
    destruct (String.eqb_spec (SensorKey s) (sensorKey 0)) as [Heq|_]; [|done].
    by rewrite sensorKey_0 in Heq.
Qed.

Lemma linux_loop_none (F : FloatOps) (temps : list (TemperatureStat F)) :
  (forall s, s ∈ temps -> SensorKey s <> "coretemp_core0_input") ->
  forall acc : float64 F * Z,
    foldl
      (fun '(total, coreNum) sensor =>
         if String.eqb (SensorKey sensor) (sensorKey 0)
         then (f64_add F total (Temperature sensor), (coreNum + 1)%Z)
         else (total, coreNum))
      acc temps
    = acc.
Proof.
  intros Hnone acc. rewrite <- linux_loop_filter.
  replace (filter (fun s => SensorKey s = "coretemp_core0_input") temps)
    with (@nil (TemperatureStat F)); [done|].
  symmetry. induction temps as [|s temps IH]; [done|].
  rewrite filter_cons_False by (apply Hnone; by left).
  apply IH. intros s' Hs'. apply Hnone. by right.
Qed.

(** X22. On linux [getCPUTemp] looks at the sensors of core 0 only: the key
    is formatted once, before the loop, so sensors with any other key
    (those of the other cores among them) change nothing, and without a
    sensor keyed [coretemp_core0_input] the result is zero. *)
Theorem getCPUTemp_linux_core0_only
    (F : FloatOps) (temps : list (TemperatureStat F)) :
  getCPUTemp F "linux" (temps, None)
  = getCPUTemp F "linux"
      (filter (fun s => SensorKey s = "coretemp_core0_input") temps, None) /\
  ((forall s, s ∈ temps -> SensorKey s <> "coretemp_core0_input") ->
   getCPUTemp F "linux" (temps, None) = 0%Z).
Proof.
  unfold getCPUTemp. simpl. unfold getCPUTemp_linux. split.
  - by rewrite linux_loop_filter.
  - intros Hnone. by rewrite (linux_loop_none F temps Hnone).
Qed.

Lemma default_loop (F : FloatOps) (temps : list (TemperatureStat F)) :
  (forall a, f32_gt F a a = false) ->
  (forall a b c, f32_gt F a b = true -> f32_gt F b c = true ->
                 f32_gt F a c = true) ->
  forall (seen : list (TemperatureStat F)) (n : Z),
    (n = 0%Z \/ exists v, v ∈ seen /\ n = to_float32 F (Temperature v)) ->
    f32_gt F 0%Z n = false ->
    (forall v, v ∈ seen -> f32_gt F (to_float32 F (Temperature v)) n = false) ->
    let r := snd (foldl
                    (fun '(n, biggest) v =>
                       let temp := to_float32 F (Temperature v) in
                       if f32_gt F temp n then (temp, temp) else (n, biggest))
                    (n, n) temps) in
    (r = 0%Z \/ exists v, v ∈ seen ++ temps /\ r = to_float32 F (Temperature v)) /\
    f32_gt F 0%Z r = false /\
    (forall v, v ∈ seen ++ temps ->
               f32_gt F (to_float32 F (Temperature v)) r = false).
Proof.
  intros Hirr Htrans.
  induction temps as [|x temps IH]; intros seen n Hn H0 Hseen; simpl.
  - rewrite app_nil_r. done.
  - assert (Happ : seen ++ x :: temps = (seen ++ [x]) ++ temps)
      by by rewrite <- app_assoc.
    rewrite Happ.
    destruct (f32_gt F (to_float32 F (Temperature x)) n) eqn:Hgt.
    + apply IH.
      * right. exists x. split; [|done]. rewrite elem_of_app. right. by left.
      * destruct (f32_gt F 0%Z (to_float32 F (Temperature x))) eqn:H0x; [|done].
        by rewrite (Htrans _ _ _ H0x Hgt) in H0.
      * intros v [Hv|Hv]%elem_of_app.
        { destruct (f32_gt F (to_float32 F (Temperature v))
                      (to_float32 F (Temperature x))) eqn:Hvx; [|done].
          pose proof (Hseen v Hv) as Hvn.
          by rewrite (Htrans _ _ _ Hvx Hgt) in Hvn. }
        { apply list_elem_of_singleton in Hv as ->. apply Hirr. }
    + apply IH.
      * destruct Hn as [->|(v & Hv & ->)]; [by left|].
        right. exists v. split; [|done]. rewrite elem_of_app. by left.
      * done.
      * intros v [Hv|Hv]%elem_of_app; [by apply Hseen|].
        by apply list_elem_of_singleton in Hv as ->.
Qed.

(** X23. On an operating system other than linux and darwin, and with a
    comparison of [float32] that is irreflexive and transitive, [getCPUTemp]
    returns a reading that no sensor exceeds: it is zero or the value of one
    of the sensors, and it is never below zero, since the search starts from
    zero (readings below zero are never reported). *)
Theorem getCPUTemp_default_highest
    (F : FloatOps) (GOOS : string) (temps : list (TemperatureStat F)) :
  GOOS <> "linux" -> GOOS <> "darwin" ->
  (forall a, f32_gt F a a = false) ->
  (forall a b c, f32_gt F a b = true -> f32_gt F b c = true ->
                 f32_gt F a c = true) ->
  (getCPUTemp F GOOS (temps, None) = 0%Z \/
   exists v, v ∈ temps /\
             getCPUTemp F GOOS (temps, None) = to_float32 F (Temperature v)) /\
  f32_gt F 0%Z (getCPUTemp F GOOS (temps, None)) = false /\
  (forall v, v ∈ temps ->
     f32_gt F (to_float32 F (Temperature v)) (getCPUTemp F GOOS (temps, None))
     = false).
Proof.
  intros Hlinux Hdarwin Hirr Htrans. unfold getCPUTemp. simpl.
  destruct (String.eqb_spec GOOS "linux") as [|_]; [done|].
  destruct (String.eqb_spec GOOS "darwin") as [|_]; [done|].
  unfold getCPUTemp_default.
  destruct temps as [|x temps].
  - simpl. split; [by left|]. split; [apply Hirr|].
    intros v Hv. by apply elem_of_nil in Hv.
  - change (Nat.ltb 0 (length (x :: temps))) with true. cbv iota.
    apply (default_loop F (x :: temps) Hirr Htrans [] 0%Z).
    + by left.
    + apply Hirr.
    + intros v Hv. by apply elem_of_nil in Hv.
Qed.

(** X24. [statusCallback] hands exactly one message to [sendWithConn], for
    the connection it was given, and writes nothing to the server. The
    [NodeInfo] of that message has the temperature of [getCPUTemp], the first
    value of [cpu.Percent] as usage, or zero when [cpu.Percent] failed or
    returned nothing, and an OS field that the handler leaves empty. *)
Theorem statusCallback_reply
    (F : FloatOps) (GOOS : string) (op0 : Operation)
    (usage : list (float64 F) * option error)
    (sensors : list (TemperatureStat F) * option error)
    (conn : ConnPtr) (env : Env) (w : World) :
  exists ni,
    sent (events_of (statusCallback F GOOS op0 usage sensors conn) env w)
    = [(conn, Message.mk op0 "" [] ni)] /\
    OS ni = "" /\
    CPUTemp ni = getCPUTemp F GOOS sensors /\
    Usage ni = match snd usage, fst usage with
               | None, u :: _ => to_float32 F u
               | _, _ => 0%Z
               end /\
    status_writes (events_of (statusCallback F GOOS op0 usage sensors conn) env w)
    = [] /\
    server (run (statusCallback F GOOS op0 usage sensors conn) env w) = server w.
Proof.
  unfold statusCallback. handler_unfold.
  destruct usage as [[|u us] [e|]]; simpl; env_case; trace_norm;
    eexists; (split; [reflexivity|]); by repeat split.
Qed.

(** ** The further properties at sample values *)

Lemma registry2_has_addr : Forall has_addr registry2.
Proof. repeat constructor; by eexists. Defined.

Lemma registry2_rev_has_addr : Forall has_addr registry2_rev.
Proof. repeat constructor; by eexists. Defined.

Lemma registry2_rev_distinct : distinct_IPs registry2_rev.
Proof.
  intros [|[|i]] [|[|j]] a b Hi Hj Hab; simpl in *; try done;
    simplify_eq; vm_compute in Hab; discriminate Hab.
Defined.

Lemma plainInsertionSort_contract : sort_Slice_contract plainInsertionSort.
Proof.
  intros A less l Hless. unfold plainInsertionSort. split.
  - unfold insertionSort. symmetry.
    apply (foldl_Permutation (sift less)). intros. apply sift_Permutation.
  - rewrite insertionSort_ins_rev.
    apply StronglySorted_SliceIsSorted. apply reverse_sorted.
    apply foldl_ins_sorted; [exact Hless|constructor].
Qed.

Lemma find_first_match_witness :
  Forall has_addr registry2 /\
  ((exists i node,
       find registry2 (ip4 x0a x00 x00 x02) = Ok node /\
       registry2 !! i = Some node /\ has_IP (ip4 x0a x00 x00 x02) node /\
       forall j m, j < i -> registry2 !! j = Some m ->
                   ~ has_IP (ip4 x0a x00 x00 x02) m)
   \/ (find registry2 (ip4 x0a x00 x00 x02) = Ok Node_zero /\
       forall m, m ∈ registry2 -> ~ has_IP (ip4 x0a x00 x00 x02) m)).
Proof.
  split; [exact registry2_has_addr|].
  exact (find_first_match registry2 (ip4 x0a x00 x00 x02) registry2_has_addr).
Defined.

Lemma find_sentinel_witness :
  Forall has_addr registry2 /\
  exists node,
    find registry2 (ip4 x0a x00 x00 x09) = Ok node /\
    (node = Node_zero <->
     forall m, m ∈ registry2 -> ~ has_IP (ip4 x0a x00 x00 x09) m) /\
    (node <> Node_zero ->
     node ∈ registry2 /\ has_IP (ip4 x0a x00 x00 x09) node).
Proof.
  split; [exact registry2_has_addr|].
  exact (find_sentinel registry2 (ip4 x0a x00 x00 x09) registry2_has_addr).
Defined.

Lemma find_after_updateNode_witness :
  Forall has_addr (Server.nodes (Server.mk registry2 StatusIDLE)) /\
  Node.Addr node_A = Some (mkTCPAddr (ip4 x0a x00 x00 x01) 2020 "") /\
  exists s',
    updateNode (Server.mk registry2 StatusIDLE) node_A = Ok s' /\
    Server.Status s' = StatusIDLE /\
    find (Server.nodes s') (ip4 x0a x00 x00 x01) = Ok node_A /\
    forall addr,
      IP_Equal (ip4 x0a x00 x00 x01) addr = false ->
      find (Server.nodes s') addr = find registry2 addr.
Proof.
  split; [exact registry2_has_addr|]. split; [reflexivity|].
  exact (find_after_updateNode (Server.mk registry2 StatusIDLE) node_A
           (mkTCPAddr (ip4 x0a x00 x00 x01) 2020 "")
           registry2_has_addr eq_refl).
Defined.

Lemma updateNode_last_wins_witness :
  Forall has_addr (Server.nodes (Server.mk registry2 StatusIDLE)) /\
  Equals node_A node_B = Ok true /\
  (s1 ← updateNode (Server.mk registry2 StatusIDLE) node_A; updateNode s1 node_B)
  = updateNode (Server.mk registry2 StatusIDLE) node_B.
Proof.
  split; [exact registry2_has_addr|]. split; [reflexivity|].
  exact (updateNode_last_wins (Server.mk registry2 StatusIDLE) node_A node_B
           registry2_has_addr eq_refl).
Defined.

Lemma updateNode_nil_Addr_witness :
  Node.Addr Node_zero = None /\
  updateNode (Server.mk [] StatusIDLE) Node_zero
  = Ok (Server.mk [Node_zero] StatusIDLE) /\
  (forall nodes, nodes <> [] ->
                 updateNode (Server.mk nodes StatusIDLE) Node_zero = Panic) /\
  (forall n rest,
      updateNode (Server.mk (Node_zero :: rest) StatusIDLE) n = Panic) /\
  (forall rest addr, find (Node_zero :: rest) addr = Panic).
Proof.
  split; [reflexivity|].
  exact (updateNode_nil_Addr StatusIDLE Node_zero eq_refl).
Defined.

Example sort_registry2_rev :
  sort shellInsertionSort registry2_rev = Ok registry2 /\
  sort plainInsertionSort registry2_rev = Ok registry2.
Proof. split; reflexivity. Qed.

Lemma sort_distinct_IPs_witness :
  sort_Slice_contract shellInsertionSort /\
  sort_Slice_contract plainInsertionSort /\
  Forall has_addr registry2_rev /\ distinct_IPs registry2_rev /\
  exists out,
    sort shellInsertionSort registry2_rev = Ok out /\
    sort plainInsertionSort registry2_rev = Ok out /\
    registry2_rev ≡ₚ out /\
    forall i j a b ipa ipb,
      i < j -> out !! i = Some a -> out !! j = Some b ->
      Addr_IP a = Ok ipa -> Addr_IP b = Ok ipb ->
      (bytes_Compare ipa ipb < 0)%Z.
Proof.
  split; [exact shellInsertionSort_contract|].
  split; [exact plainInsertionSort_contract|].
  split; [exact registry2_rev_has_addr|].
  split; [exact registry2_rev_distinct|].
  exact (sort_distinct_IPs shellInsertionSort plainInsertionSort registry2_rev
           shellInsertionSort_contract plainInsertionSort_contract
           registry2_rev_has_addr registry2_rev_distinct).
Defined.

Lemma find_after_sort_witness :
  sort_Slice_contract shellInsertionSort /\
  Forall has_addr registry2_rev /\ distinct_IPs registry2_rev /\
  exists out,
    sort shellInsertionSort registry2_rev = Ok out /\
    distinct_IPs out /\
    stable_by_IP registry2_rev out /\
    forall addr, find out addr = find registry2_rev addr.
Proof.
  split; [exact shellInsertionSort_contract|].
  split; [exact registry2_rev_has_addr|].
  split; [exact registry2_rev_distinct|].
  exact (find_after_sort shellInsertionSort registry2_rev
           shellInsertionSort_contract registry2_rev_has_addr
           registry2_rev_distinct).
Defined.

Example getOperatingSystems_sample :
  getOperatingSystems
    [Node.mk None None "a" StatusIDLE (mkNodeInfo "linux" 0 0);
     Node.mk None None "b" StatusIDLE (mkNodeInfo "darwin" 0 0);
     Node.mk None None "c" StatusIDLE (mkNodeInfo "linux" 0 0);
     Node.mk None None "d" StatusIDLE (mkNodeInfo "windows" 0 0);
     Node.mk None None "e" StatusIDLE (mkNodeInfo "darwin" 0 0)]
  = ["linux"; "darwin"; "windows"] /\
  getOperatingSystems [] = [].
Proof. split; reflexivity. Qed.

Example run_save_fails :
  events_of (jobTransferCallback (Some 1) msg_transfer) env_save_fails world0
  = [EvLog Infoln ["Starting job transfer from node"; "A"];
     EvCreateFolder ".beekeeper" None;
     EvSaveBinary ".beekeeper/job.bin" [x7f; x45; x4c; x46] (Some "disk full");
     EvLog Errorln ["Unable to save job data:"; "disk full"];
     EvSend (Some 1)
       (Message_of OperationTransferFailed (bytes_of_string "disk full")) None].
Proof. reflexivity. Qed.

Example run_transfer_ok :
  events_of (jobTransferCallback (Some 1) msg_transfer)
    (env_with None None None) world0
  = [EvLog Infoln ["Starting job transfer from node"; "A"];
     EvCreateFolder ".beekeeper" None;
     EvSaveBinary ".beekeeper/job.bin" [x7f; x45; x4c; x46] None;
     EvSend (Some 1) (Message_of OperationTransferAcknowledge []) None;
     EvLog Println ["Job transferred successfully from node"; "A"]].
Proof. reflexivity. Qed.

Lemma jobTransferCallback_failure_text_witness :
  EvSend (Some 1)
    (Message_of OperationTransferFailed (bytes_of_string "disk full")) None
    ∈ events_of (jobTransferCallback (Some 1) msg_transfer) env_save_fails world0 /\
  Message.Operation
    (Message_of OperationTransferFailed (bytes_of_string "disk full"))
  = OperationTransferFailed /\
  EvSaveBinary ".beekeeper/job.bin" (Message.Data msg_transfer)
    (Some "disk full")
    ∈ events_of (jobTransferCallback (Some 1) msg_transfer) env_save_fails world0.
Proof.
  assert (Hsend :
    EvSend (Some 1)
      (Message_of OperationTransferFailed (bytes_of_string "disk full")) None
      ∈ events_of (jobTransferCallback (Some 1) msg_transfer)
          env_save_fails world0).
  { rewrite run_save_fails. in_list. }
  split; [exact Hsend|]. split; [reflexivity|].
  destruct (jobTransferCallback_failure_text env_save_fails world0 (Some 1)
              msg_transfer _ _ _ Hsend eq_refl)
    as [(Htext & _)|[Hfolder|Hsave]].
  - discriminate Htext.
  - rewrite run_save_fails in Hfolder. in_events Hfolder.
  - exact Hsave.
Defined.

Example run_job_ok :
  events_of (jobExecuteCallback (Some 1) msg_execute)
    (env_with None None None) world0
  = [EvDecodeTask [x01; x02] (Task.mk "task-1" [x01; x02]) None;
     EvLog Infoln ["Executing task"; "task-1"; "for node"; "A"];
     EvStatus StatusWorking;
     EvRunLocalJob (Task.mk "task-1" [x01; x02]) (Result.mk "task-1" "") None;
     EvLog Infoln ["Ran task"; "task-1"; "successfully"];
     EvStatus StatusIDLE;
     EvEncode (Result.mk "task-1" "") (bytes_of_string "task-1") None;
     EvSend (Some 1)
       (Message_of OperationJobResult (bytes_of_string "task-1")) None].
Proof. reflexivity. Qed.

Lemma jobExecuteCallback_result_passed_on_witness :
  EvRunLocalJob (Task.mk "task-1" [x01; x02]) (Result.mk "task-1" "") None
    ∈ events_of (jobExecuteCallback (Some 1) msg_execute)
        (env_with None None None) world0 /\
  EvDecodeTask (Message.Data msg_execute) (Task.mk "task-1" [x01; x02]) None
    ∈ events_of (jobExecuteCallback (Some 1) msg_execute)
        (env_with None None None) world0 /\
  (exists b berr,
      EvEncode (Result.mk "task-1" "") b berr
        ∈ events_of (jobExecuteCallback (Some 1) msg_execute)
            (env_with None None None) world0) /\
  (forall res b berr,
      EvEncode res b berr
        ∈ events_of (jobExecuteCallback (Some 1) msg_execute)
            (env_with None None None) world0 ->
      res = Result.mk "task-1" "").
Proof.
  assert (Hjob :
    EvRunLocalJob (Task.mk "task-1" [x01; x02]) (Result.mk "task-1" "") None
      ∈ events_of (jobExecuteCallback (Some 1) msg_execute)
          (env_with None None None) world0).
  { rewrite run_job_ok. in_list. }
  split; [exact Hjob|].
  exact (jobExecuteCallback_result_passed_on (env_with None None None) world0
           (Some 1) msg_execute _ _ Hjob).
Defined.

Lemma jobExecuteCallback_logs_success_witness :
  EvDecodeTask (Message.Data msg_execute) (Task.mk "task-1" [x01; x02]) None
    ∈ events_of (jobExecuteCallback (Some 1) msg_execute)
        (env_with None (Some "exit status 1") None) world0 /\
  EvLog Infoln ["Ran task"; "task-1"; "successfully"]
    ∈ events_of (jobExecuteCallback (Some 1) msg_execute)
        (env_with None (Some "exit status 1") None) world0.
Proof.
  assert (Hdec :
    EvDecodeTask (Message.Data msg_execute) (Task.mk "task-1" [x01; x02]) None
      ∈ events_of (jobExecuteCallback (Some 1) msg_execute)
          (env_with None (Some "exit status 1") None) world0).
  { apply list_elem_of_here. }
  split; [exact Hdec|].
  exact (proj1 (jobExecuteCallback_logs_success
                  (env_with None (Some "exit status 1") None) world0 (Some 1)
                  msg_execute _ Hdec)).
Defined.

Lemma ExecuteMany_each_node_once_witness :
  exists st,
    ExecuteMany (env_with None None (Some "C")) [node_A; node_C; node_B]
      sample_task [] [Run 0; Recv 0; Run 1; Run 2; Recv 1] = Some st /\
    executed_nodes (em_trace st) ++ spawned_nodes (em_goroutines st)
      ≡ₚ [node_A; node_C; node_B] /\
    length (em_trace st) <= 3.
Proof.
  eexists. split; [reflexivity|].
  destruct (ExecuteMany_each_node_once (env_with None None (Some "C"))
              [node_A; node_C; node_B] sample_task []
              [Run 0; Recv 0; Run 1; Run 2; Recv 1] _ eq_refl)
    as (Hnodes & Hlen & _).
  split; [exact Hnodes|exact Hlen].
Defined.

(** C fails after A has delivered; B finishes and stays blocked. *)
Example schedule_leak :
  (fun st => (em_goroutines st, em_results st, em_returned st)) <$>
    ExecuteMany (env_with None None (Some "C")) [node_A; node_C; node_B]
      sample_task [] [Run 0; Recv 0; Run 1; Recv 1; Run 2]
  = Some ([GExited; GExited; GSendRes (Result.mk "task-1" "")],
          [Result.mk "task-1" ""],
          Some ([], Some "node C error: connection refused")).
Proof. reflexivity. Qed.

Lemma ExecuteMany_error_leaks_goroutines_witness :
  exists st,
    ExecuteMany (env_with None None (Some "C")) [node_A; node_C; node_B]
      sample_task [] [Run 0; Recv 0; Run 1; Recv 1] = Some st /\
    em_returned st = Some ([], Some "node C error: connection refused") /\
    sum_list_with exited (em_goroutines st) = length (em_results st) + 1 /\
    forall sched' st',
      ExecuteMany_run (env_with None None (Some "C")) [node_A; node_C; node_B]
        sample_task [] sched' st = Some st' ->
      em_returned st' = Some ([], Some "node C error: connection refused") /\
      sum_list_with exited (em_goroutines st') = length (em_results st) + 1.
Proof.
  eexists. split; [reflexivity|]. split; [reflexivity|].
  destruct (ExecuteMany_error_leaks_goroutines
              (env_with None None (Some "C")) [node_A; node_C; node_B]
              sample_task [] [Run 0; Recv 0; Run 1; Recv 1] _ _ _
              eq_refl eq_refl) as [Hex Hafter].
  split; [exact Hex|].
  intros sched' st' Hrun. destruct (Hafter sched' st' Hrun) as (Hret & Hex' & _).
  split; [exact Hret|exact Hex'].
Defined.


Example getCPUTemp_samples :
  getCPUTemp FloatOps_Z "windows" (sample_sensors, None) = 57%Z /\
  getCPUTemp FloatOps_Z "windows" (sample_sensors, Some "no sensors") = 0%Z /\
  getCPUTemp FloatOps_Z "windows"
    ([@mkTemperatureStat FloatOps_Z "outside" (-12)%Z], None) = 0%Z /\
  getCPUTemp FloatOps_Z "linux"
    ([@mkTemperatureStat FloatOps_Z "coretemp_core0_input" 40%Z;
      @mkTemperatureStat FloatOps_Z "coretemp_core1_input" 90%Z], None)
  = 40%Z.
Proof. repeat split. Qed.

Lemma getCPUTemp_default_highest_witness :
  "windows" <> "linux" /\ "windows" <> "darwin" /\
  (forall a, f32_gt FloatOps_Z a a = false) /\
  (forall a b c, f32_gt FloatOps_Z a b = true -> f32_gt FloatOps_Z b c = true ->
                 f32_gt FloatOps_Z a c = true) /\
  f32_gt FloatOps_Z 0%Z (getCPUTemp FloatOps_Z "windows" (sample_sensors, None))
  = false /\
  (forall v, v ∈ sample_sensors ->
     f32_gt FloatOps_Z (to_float32 FloatOps_Z (Temperature v))
       (getCPUTemp FloatOps_Z "windows" (sample_sensors, None))
     = false).
Proof.
  assert (Hirr : forall a, f32_gt FloatOps_Z a a = false)
    by (intros a; simpl; lia).
  assert (Htrans : forall a b c,
             f32_gt FloatOps_Z a b = true -> f32_gt FloatOps_Z b c = true ->
             f32_gt FloatOps_Z a c = true) by (intros a b c; simpl; lia).
  assert (Hl : "windows" <> "linux") by discriminate.
  assert (Hd : "windows" <> "darwin") by discriminate.
  split; [exact Hl|]. split; [exact Hd|]. split; [exact Hirr|].
  split; [exact Htrans|].
  exact (proj2 (getCPUTemp_default_highest FloatOps_Z "windows" sample_sensors
                  Hl Hd Hirr Htrans)).
Defined.
